(** * flowkit: the task-graph execution engine, embedded in Rocq

    A shallow embedding of [flowkit/task.py], [flowkit/dag.py],
    [flowkit/flow.py] and [flowkit/functional.py], and the properties of the
    engine proved over it.

    Conventions of the embedding.
    - Python objects that are used as dictionary keys by identity ([Task],
      [AppliedTask]) are natural numbers (their identity); the attributes
      are read through accessor functions or records.
    - Dictionaries are [gmap]s; a [defaultdict(list)] is a [gmap] read with
      a default of [[]].
    - The observable effects of a task (logger calls, invocations of the
      wrapped function, [time.sleep]) are appended to a trace, the
      [World]; the wrapped function is a function of the trace so far, so a
      body may behave differently from one invocation to the next.
    - Delays are rationals ([Q]) where Python has floats.
    - The worker pool is a list of futures; which worker runs next and which
      finished future the orchestrating thread sees next are chosen by a
      schedule, a list of actions, and the properties are proved for every
      schedule. *)

From Stdlib Require Import QArith Qpower.
From stdpp Require Import gmap strings list fin_maps functions relations.

Local Open Scope Z_scope.

(** ** Values, exceptions, results *)

Inductive value :=
| VNone
| VInt (z : Z)
| VStr (s : string).

Inductive exn :=
| DAGCycleError
| KeyError
| ValueError (msg : string)
| TypeError (msg : string).

Inductive result (A : Type) :=
| Ok (a : A)
| Raise (e : exn).
Arguments Ok {A} a.
Arguments Raise {A} e.

Definition is_none (v : value) : bool :=
  match v with VNone => true | _ => false end.

(** ** The world: trace of effects and the random source *)

Inductive event :=
| EvSkip (name reason : string)                 (* logger.log_task_skip *)
| EvStart (name : string)                       (* logger.log_task_start *)
| EvCall (name : string) (args : list value) (kwargs : list (string * value))
                                                (* self.func( *args, **kwargs ) *)
| EvSuccess (name : string)                     (* logger.log_task_success *)
| EvFailure (name : string) (e : exn)           (* logger.log_task_failure *)
| EvRetry (name : string) (attempt max_retries : Z) (delay : Q)
                                                (* logger.log_task_retry *)
| EvSleep (seconds : Q).                        (* time.sleep *)

(** [random_uniform k a b] is what the [k]-th call of [random.uniform]
    returns when it is called with the bounds [a] and [b]. *)
Record World := mkWorld {
  trace : list event;
  random_uniform : nat -> Q -> Q -> Q;
  draws : nat
}.

Definition emit (ev : event) (w : World) : World :=
  mkWorld (trace w ++ [ev]) (random_uniform w) (draws w).

Definition draw_uniform (a b : Q) (w : World) : Q * World :=
  (random_uniform w (draws w) a b,
   mkWorld (trace w) (random_uniform w) (S (draws w))).

Definition is_call_of (n : string) (ev : event) : bool :=
  match ev with EvCall m _ _ => bool_decide (m = n) | _ => false end.

Definition is_retry_of (n : string) (ev : event) : bool :=
  match ev with EvRetry m _ _ _ => bool_decide (m = n) | _ => false end.


Definition count_ev (p : event -> bool) (tr : list event) : nat :=
  length (filter (fun ev => p ev = true) tr).

(** Number of invocations of the body of the task named [n]. *)
Definition calls_of (n : string) (tr : list event) : nat :=
  count_ev (is_call_of n) tr.

Definition retries_of (n : string) (tr : list event) : nat :=
  count_ev (is_retry_of n) tr.

(** ** task.py: [class Task] *)

Record Task := mkTask {
  name : string;                 (* func.__name__ *)
  params : list string;          (* inspect.signature(func).parameters *)
  func : list event -> list value -> list (string * value) -> result value;
  retries : Z;
  delay : Q;
  backoff : Q;
  when : option (value -> result bool)
}.

(** [self.func( *args, **kwargs )]: the invocation is recorded, and the body
    sees the trace before it. *)
Definition call_func (t : Task) (args : list value)
    (kwargs : list (string * value)) (w : World) : result value * World :=
  (func t (trace w) args kwargs, emit (EvCall (name t) args kwargs) w).

(** What [time.sleep] raises when it is called with a negative length. *)
Definition negative_sleep : exn :=
  ValueError "sleep length must be non-negative".

(** The [while True] loop of [Task.__call__]. The loop ends when the body
    returns, when [attempt] exceeds [retries], or when [time.sleep] raises:
    it is called inside the [except] block, so what it raises leaves the
    call. [EvSleep] records the call of [time.sleep]; [fuel] bounds the
    number of iterations and [Task_call] gives enough of it. *)
Fixpoint retry_loop (fuel : nat) (t : Task) (args : list value)
    (kwargs : list (string * value)) (attempt : Z) (current_delay : Q)
    (w : World) : option (result value * World) :=
  match fuel with
  | O => None
  | S fuel' =>
    match call_func t args kwargs w with
    | (Ok r, w1) => Some (Ok r, emit (EvSuccess (name t)) w1)
    | (Raise e, w1) =>
      let attempt := attempt + 1 in
      if retries t <? attempt then
        Some (Raise e, emit (EvFailure (name t) e) w1)
      else if 0 <? retries t then
        let '(jitter, w2) := draw_uniform 0 (current_delay * (1 # 10))%Q w1 in
        let total_delay := (current_delay + jitter)%Q in
        let w3 := emit (EvRetry (name t) attempt (retries t) total_delay) w2 in
        let w4 := emit (EvSleep total_delay) w3 in
        if Qle_bool 0 total_delay then
          retry_loop fuel' t args kwargs attempt (current_delay * backoff t)%Q
                     w4
        else Some (Raise negative_sleep, w4)
      else
        retry_loop fuel' t args kwargs attempt current_delay w1
    end
  end.

(** [Task.__call__(self, *args, **kwargs)] *)
Definition Task_call (t : Task) (args : list value)
    (kwargs : list (string * value)) (w : World)
    : option (result value * World) :=
  let run_body (w : World) :=
    retry_loop (S (Z.to_nat (retries t))) t args kwargs 0 (delay t)
               (emit (EvStart (name t)) w) in
  match when t with
  | Some cond =>
    match args with
    | a :: _ =>
      match cond a with
      | Raise e => Some (Raise e, w)
      | Ok false =>
        Some (Ok VNone, emit (EvSkip (name t) "condition not met") w)
      | Ok true => run_body w
      end
    | [] => Some (Ok VNone, emit (EvSkip (name t) "no upstream data") w)
    end
  | None => run_body w
  end.

(** ** Cycle detection: [_has_cycle] of dag.py, flow.py and functional.py

    The three front ends carry the same three-colour depth-first search;
    they differ only in where the downstream list of a node is read from
    ([task.downstream] or [self.graph[task]]), which is the parameter
    [down]. *)

(** The values of the [state] dictionary: 0, 1 and 2. *)
Inductive color :=
| Unvisited   (* 0 *)
| Visiting    (* 1 *)
| Visited.    (* 2 *)

Global Instance color_eq_dec : EqDecision color.
Proof. solve_decision. Defined.

(** A computation that may raise, and that is cut off when its recursion
    budget is used up ([None]). *)
Definition comp (A : Type) : Type := option (result A).

Section CycleDetector.
Variable down : nat -> list nat.

(** [for downstream in ...: if dfs(downstream): return True] *)
Fixpoint dfs_children
    (rec : gmap nat color -> nat -> comp (bool * gmap nat color))
    (ds : list nat) (state : gmap nat color) : comp (bool * gmap nat color) :=
  match ds with
  | [] => Some (Ok (false, state))
  | d :: ds' =>
    match rec state d with
    | Some (Ok (false, state')) => dfs_children rec ds' state'
    | other => other
    end
  end.

(** The nested function [dfs(task)]; the dictionary [state] it mutates is
    threaded through. [state[task]] on a missing key raises [KeyError]. *)
Fixpoint dfs (fuel : nat) (state : gmap nat color) (task : nat)
    : comp (bool * gmap nat color) :=
  match fuel with
  | O => None
  | S fuel' =>
    match state !! task with
    | None => Some (Raise KeyError)
    | Some Visiting => Some (Ok (true, state))
    | Some Visited => Some (Ok (false, state))
    | Some Unvisited =>
      match dfs_children (dfs fuel') (down task) (<[task := Visiting]> state) with
      | Some (Ok (false, state')) => Some (Ok (false, <[task := Visited]> state'))
      | other => other
      end
    end
  end.

(** [for task in tasks: if state[task] == 0: if dfs(task): return True] *)
Fixpoint has_cycle_loop (fuel : nat) (tasks : list nat)
    (state : gmap nat color) : comp bool :=
  match tasks with
  | [] => Some (Ok false)
  | task :: rest =>
    match state !! task with
    | None => Some (Raise KeyError)
    | Some Unvisited =>
      match dfs fuel state task with
      | Some (Ok (true, _)) => Some (Ok true)
      | Some (Ok (false, state')) => has_cycle_loop fuel rest state'
      | Some (Raise e) => Some (Raise e)
      | None => None
      end
    | Some _ => has_cycle_loop fuel rest state
    end
  end.

(** [state = {t: 0 for t in tasks}] *)
Definition initial_colors (tasks : list nat) : gmap nat color :=
  list_to_map ((fun t => (t, Unvisited)) <$> tasks).

Definition has_cycle (tasks : list nat) : comp bool :=
  has_cycle_loop (S (length tasks)) tasks (initial_colors tasks).

End CycleDetector.

(** ** The scheduler: the body of [run] shared by the three front ends

    [P] is what [pool.submit] is given besides the node: the positional
    arguments in dag.py, a copy of the results in flow.py, and nothing in
    functional.py, whose worker reads the shared dictionary [results]
    itself. *)

Inductive status :=
| Running
| Returned
| Raised (e : exn).

Inductive action :=
| Work (k : nat)
| Collect (k : nat).

Record future (P : Type) := mkFuture {
  fut_node : nat;
  fut_payload : P;
  fut_result : option (result value)   (* [None] until a worker has run it *)
}.
Arguments mkFuture {P} _ _ _.
Arguments fut_node {P} _.
Arguments fut_payload {P} _.
Arguments fut_result {P} _.

(** The local variables of [run] inside the [with ExecutorClass(...)] block.
    [pool] lists every future ever submitted (its index is the future's
    identity), [futures] the keys of the dictionary [futures], [batch] what
    the current [as_completed(futures)] has not yielded yet. [resolved] is a
    history variable: the nodes counted by [completed += 1], in order. *)
Record state (P : Type) := mkState {
  indegree : gmap nat Z;
  results : gmap string value;
  pool : list (future P);
  futures : list nat;
  batch : list nat;
  world : World;
  st_status : status;
  resolved : list nat
}.
Arguments mkState {P} _ _ _ _ _ _ _ _.
Arguments indegree {P} _.
Arguments results {P} _.
Arguments pool {P} _.
Arguments futures {P} _.
Arguments batch {P} _.
Arguments world {P} _.
Arguments st_status {P} _.
Arguments resolved {P} _.

(** What differs between the three [run] methods. *)
Record Engine (P : Type) := mkEngine {
  e_nodes : list nat;                  (* tasks / all_tasks / self.all_nodes *)
  e_down : nat -> list nat;            (* task.downstream / self.graph[task] *)
  e_indegree : gmap nat Z;             (* the dictionary [indegree] *)
  e_name : nat -> string;              (* task.name / node.name *)
  e_first_payload : nat -> result P;   (* for the initially ready nodes *)
  e_payload : nat -> gmap string value -> P;
                                       (* for a node unlocked later *)
  e_execute : nat -> P -> gmap string value -> World
              -> option (result value * World);
                                       (* what the worker runs *)
  e_store_none : bool                  (* is a [None] result stored? *)
}.
Arguments mkEngine {P} _ _ _ _ _ _ _ _.
Arguments e_nodes {P} _.
Arguments e_down {P} _.
Arguments e_indegree {P} _.
Arguments e_name {P} _.
Arguments e_first_payload {P} _.
Arguments e_payload {P} _.
Arguments e_execute {P} _.
Arguments e_store_none {P} _.

Section Scheduler.
Context {P : Type}.
Variable E : Engine P.

Definition set_status (st : status) (s : state P) : state P :=
  mkState (indegree s) (results s) (pool s) (futures s) (batch s) (world s)
          st (resolved s).

(** [futures[pool.submit(...)] = node] *)
Definition submit (n : nat) (p : P) (s : state P) : state P :=
  mkState (indegree s) (results s) (pool s ++ [mkFuture n p None])
          (futures s ++ [length (pool s)]) (batch s) (world s)
          (st_status s) (resolved s).

Definition set_indegree (n : nat) (d : Z) (s : state P) : state P :=
  mkState (<[n := d]> (indegree s)) (results s) (pool s) (futures s)
          (batch s) (world s) (st_status s) (resolved s).

(** [for down in adj[task]: indegree[down] -= 1;
     if indegree[down] == 0: futures[pool.submit(...)] = down] *)
Fixpoint unlock (downs : list nat) (s : state P) : state P :=
  match downs with
  | [] => s
  | d :: rest =>
    match indegree s !! d with
    | None => set_status (Raised KeyError) s
    | Some deg =>
      let s1 := set_indegree d (deg - 1) s in
      let s2 := if deg - 1 =? 0 then submit d (e_payload E d (results s1)) s1
                else s1 in
      unlock rest s2
    end
  end.

(** [ready = deque([t for t in tasks if indegree[t] == 0])] *)
Definition ready : list nat :=
  filter (fun t => e_indegree E !! t = Some 0) (e_nodes E).

(** [for t in ready: futures[pool.submit(...)] = t] *)
Fixpoint submit_ready (ts : list nat) (s : state P) : state P :=
  match ts with
  | [] => s
  | t :: rest =>
    match e_first_payload E t with
    | Raise e => set_status (Raised e) s
    | Ok p => submit_ready rest (submit t p s)
    end
  end.

(** The test of [while futures:] and the snapshot taken by
    [as_completed(futures)] when the inner [for] starts. *)
Definition next_round (s : state P) : state P :=
  match st_status s with
  | Running =>
    match batch s with
    | [] =>
      match futures s with
      | [] => set_status Returned s
      | _ => mkState (indegree s) (results s) (pool s) (futures s) (futures s)
                     (world s) Running (resolved s)
      end
    | _ => s
    end
  | _ => s
  end.

Definition remove_id (k : nat) (l : list nat) : list nat :=
  filter (fun j => j ≠ k) l.

(** A worker runs the future [k]. With the thread pool this also happens
    after [run] has raised: leaving the [with] block waits for the futures
    already submitted. *)
Definition work (k : nat) (s : state P) : option (state P) :=
  match pool s !! k with
  | Some (mkFuture n p None) =>
    match e_execute E n p (results s) (world s) with
    | Some (r, w') =>
      Some (mkState (indegree s) (results s)
                    (<[k := mkFuture n p (Some r)]> (pool s))
                    (futures s) (batch s) w' (st_status s) (resolved s))
    | None => None
    end
  | _ => None
  end.

(** [if result is not None: results[task.name] = result] in dag.py and
    flow.py, [results[node.name] = result] in functional.py. *)
Definition store (n : nat) (v : value) (res : gmap string value)
    : gmap string value :=
  if e_store_none E || negb (is_none v) then <[e_name E n := v]> res else res.

(** One iteration of [for fut in as_completed(futures)] in which the
    finished future [k] is yielded. *)
Definition collect (k : nat) (s : state P) : option (state P) :=
  match st_status s with
  | Running =>
    if bool_decide (k ∈ batch s) then
      match pool s !! k with
      | Some (mkFuture n p (Some r)) =>
        let futures' := remove_id k (futures s) in      (* futures.pop(fut) *)
        let batch' := remove_id k (batch s) in
        match r with
        | Raise e =>                                     (* fut.result() raises *)
          Some (mkState (indegree s) (results s) (pool s) futures' batch'
                        (world s) (Raised e) (resolved s))
        | Ok v =>
          let s1 := mkState (indegree s) (store n v (results s)) (pool s)
                            futures' batch' (world s) Running
                            (resolved s ++ [n]) in
          Some (next_round (unlock (e_down E n) s1))
        end
      | _ => None
      end
    else None
  | _ => None
  end.

Definition step (a : action) (s : state P) : option (state P) :=
  match a with
  | Work k => work k s
  | Collect k => collect k s
  end.

(** The run under a schedule; an action that cannot be taken is passed
    over. *)
Fixpoint exec (sch : list action) (s : state P) : state P :=
  match sch with
  | [] => s
  | a :: rest =>
    match step a s with
    | Some s' => exec rest s'
    | None => exec rest s
    end
  end.

Definition initial_state (w : World) : state P :=
  mkState (e_indegree E) ∅ [] [] [] w Running [].

(** The state in which [run] leaves before it has made a pool. *)
Definition finished (st : status) (w : World) : state P :=
  mkState ∅ ∅ [] [] [] w st [].

Definition start (w : World) : state P :=
  next_round (submit_ready ready (initial_state w)).

(** [run]: the emptiness test, the cycle check, then the scheduler. [None]
    when the cycle check is cut off. *)
Definition engine_run (sch : list action) (w : World) : option (state P) :=
  match e_nodes E with
  | [] => Some (finished Returned w)
  | _ =>
    match has_cycle (e_down E) (e_nodes E) with
    | None => None
    | Some (Raise e) => Some (finished (Raised e) w)
    | Some (Ok true) => Some (finished (Raised DAGCycleError) w)
    | Some (Ok false) => Some (exec sch (start w))
    end
  end.

End Scheduler.

(** Nodes handed to the pool, and nodes whose callable a worker has run. *)
Definition submitted {P} (s : state P) : list nat := fut_node <$> pool s.

Definition started {P} (s : state P) : list nat :=
  fut_node <$> filter (fun f => fut_result f ≠ None) (pool s).

(** ** dag.py: [class DAG] and the [>>] operator of task.py *)

(** The [Task] objects by identity, with the edge lists the chain operator
    keeps on them, and the registry [Task._all_tasks]. [Task.__init__]
    appends the new task to the registry once. *)
Record Registry := mkRegistry {
  all_tasks : list nat;
  task_obj : nat -> Task;
  upstream : nat -> list nat;
  downstream : nat -> list nat
}.

(** [l.append(x)] on the list kept under [k]. *)
Definition append_to (k x : nat) (f : nat -> list nat) : nat -> list nat :=
  <[k := f k ++ [x]]> f.

(** [a >> b] for two tasks: [Task.__rshift__]. *)
Definition rshift (a b : nat) (r : Registry) : Registry :=
  mkRegistry (all_tasks r) (task_obj r)
             (append_to b a (upstream r)) (append_to a b (downstream r)).

(** [a >> [b1; ...]]: [Task.__rshift__] on a list. *)
Definition rshift_list (a : nat) (bs : list nat) (r : Registry) : Registry :=
  foldl (fun r b => rshift a b r) r bs.

(** [[a1; ...] >> b]: [Task.__rrshift__] on a list. *)
Definition rrshift_list (as_ : list nat) (b : nat) (r : Registry) : Registry :=
  foldl (fun r a => rshift a b r) r as_.

Definition task_name (r : Registry) (n : nat) : string := name (task_obj r n).

(** [indegree = {t: len(t.upstream) for t in tasks}] *)
Definition DAG_indegree (r : Registry) : gmap nat Z :=
  list_to_map ((fun t => (t, Z.of_nat (length (upstream r t)))) <$> all_tasks r).

(** [args = [results[u.name] for u in t.upstream]] before the loop, where
    [results] is still empty. *)
Definition DAG_first_args (r : Registry) (t : nat) : result (list value) :=
  match mapM (fun u => (∅ : gmap string value) !! task_name r u) (upstream r t) with
  | Some args => Ok args
  | None => Raise KeyError
  end.

(** [args = [results.get(u.name) for u in down.upstream]] *)
Definition DAG_args (r : Registry) (d : nat) (res : gmap string value)
    : list value :=
  (fun u => default VNone (res !! task_name r u)) <$> upstream r d.

(** [pool.submit(t, *args)]: the worker calls the task itself. *)
Definition DAG_execute (r : Registry) (n : nat) (args : list value)
    (res : gmap string value) (w : World) : option (result value * World) :=
  Task_call (task_obj r n) args [] w.

(** [adj[task]] is a copy of [task.downstream] for the tasks of the
    registry. *)
Definition DAG_engine (r : Registry) : Engine (list value) :=
  mkEngine (all_tasks r) (downstream r) (DAG_indegree r) (task_name r)
           (DAG_first_args r) (DAG_args r) (DAG_execute r) false.

(** [DAG.run] *)
Definition DAG_run (r : Registry) (sch : list action) (w : World)
    : option (state (list value)) :=
  engine_run (DAG_engine r) sch w.

(** ** flow.py: [class Flow] *)

Record Flow := mkFlow {
  tasks : list nat;
  graph : gmap nat (list nat);          (* upstream -> downstream *)
  reverse_graph : gmap nat (list nat);  (* downstream -> upstream *)
  branch_points : list nat
}.

Definition Flow_new : Flow := mkFlow [] ∅ ∅ [].

(** [g[k].append(x)] on a [defaultdict(list)]. *)
Definition dd_append (k x : nat) (g : gmap nat (list nat))
    : gmap nat (list nat) :=
  <[k := (g !!! k) ++ [x]]> g.

(** [graph[a].append(b); reverse_graph[b].append(a)] *)
Definition connect (a b : nat) (f : Flow) : Flow :=
  mkFlow (tasks f) (dd_append a b (graph f)) (dd_append b a (reverse_graph f))
         (branch_points f).

Definition set_branch_points (bp : list nat) (f : Flow) : Flow :=
  mkFlow (tasks f) (graph f) (reverse_graph f) bp.

Definition append_task (t : nat) (f : Flow) : Flow :=
  mkFlow (tasks f ++ [t]) (graph f) (reverse_graph f) (branch_points f).

(** [if t not in self.tasks: self.tasks.append(t)] *)
Definition append_task_once (t : nat) (f : Flow) : Flow :=
  if bool_decide (t ∈ tasks f) then f else append_task t f.

(** [Flow.add] *)
Definition add (task : nat) (f : Flow) : Flow :=
  let f1 := append_task task f in
  let f2 := match last (tasks f) with       (* self.tasks[-2] *)
            | Some prev => connect prev task f1
            | None => f1
            end in
  set_branch_points [task] f2.

(** [Flow.branch] *)
Definition branch (branch_tasks : list nat) (f : Flow) : result Flow :=
  match branch_points f with
  | [] => Raise (ValueError "Cannot branch before adding a task")
  | prev_tasks =>
    let f1 := foldl (fun f prev =>
                foldl (fun f b => connect prev b f) f branch_tasks)
              f prev_tasks in
    let f2 := foldl (fun f b => append_task_once b f) f1 branch_tasks in
    Ok (set_branch_points branch_tasks f2)
  end.

(** [Flow.merge] *)
Definition merge (merge_task : nat) (f : Flow) : result Flow :=
  match branch_points f with
  | [] => Raise (ValueError "No branches to merge")
  | bps =>
    let f1 := foldl (fun f b => connect b merge_task f) f bps in
    Ok (set_branch_points [merge_task] (append_task_once merge_task f1))
  end.

(** [Flow._collect_transitive_tasks]: the loop over [self.graph[task]] and
    the method; [collected] is the set, kept in insertion order. *)
Fixpoint collect_downstream (rec : list nat -> nat -> option (list nat))
    (ds : list nat) (collected : list nat) : option (list nat) :=
  match ds with
  | [] => Some collected
  | d :: rest =>
    if bool_decide (d ∈ collected) then collect_downstream rec rest collected
    else
      match rec (collected ++ [d]) d with
      | Some collected' => collect_downstream rec rest collected'
      | None => None
      end
  end.

Fixpoint collect_transitive_tasks (fuel : nat) (g : gmap nat (list nat))
    (collected : list nat) (task : nat) : option (list nat) :=
  match fuel with
  | O => None
  | S fuel' =>
    collect_downstream (collect_transitive_tasks fuel' g) (g !!! task) collected
  end.

(** [all_tasks = set(self.tasks)
     for task in self.tasks: self._collect_transitive_tasks(task, all_tasks)] *)
Definition Flow_all_tasks (f : Flow) : option (list nat) :=
  let fuel := S (length (concat (snd <$> map_to_list (graph f)))) in
  foldl (fun acc task =>
           match acc with
           | Some collected => collect_transitive_tasks fuel (graph f) collected task
           | None => None
           end)
        (Some (remove_dups (tasks f))) (tasks f).

(** The keyword arguments both [_execute_task] and [_execute_node] build:
    [for param_name in params: if param_name in results: ...]. *)
Definition filter_kwargs (ps : list string) (res : gmap string value)
    : list (string * value) :=
  omap (fun p => match res !! p with Some v => Some (p, v) | None => None end) ps.

(** [Flow._execute_task] *)
Definition Flow_execute_task (t : Task) (upstream_results : gmap string value)
    (w : World) : option (result value * World) :=
  if bool_decide (upstream_results = ∅) then Task_call t [] [] w
  else
    match filter_kwargs (params t) upstream_results with
    | [] => Task_call t [] [] w
    | filtered_kwargs => Some (call_func t [] filtered_kwargs w)
    end.

(** [indegree = {t: len(self.reverse_graph[t]) for t in all_tasks}] *)
Definition Flow_indegree (f : Flow) (all : list nat) : gmap nat Z :=
  list_to_map ((fun t => (t, Z.of_nat (length (reverse_graph f !!! t)))) <$> all).

Definition Flow_engine (objs : nat -> Task) (f : Flow) (all : list nat)
    : Engine (gmap string value) :=
  mkEngine all (fun t => graph f !!! t) (Flow_indegree f all)
           (fun t => name (objs t))
           (fun _ => Ok ∅)                 (* self._execute_task(t, {}) *)
           (fun _ res => res)              (* down_kwargs = dict(results) *)
           (fun n p _ w => Flow_execute_task (objs n) p w)
           false.

(** [Flow.run]; [objs] gives the [Task] object of an identity. *)
Definition Flow_run (objs : nat -> Task) (f : Flow) (sch : list action)
    (w : World) : option (state (gmap string value)) :=
  match Flow_all_tasks f with
  | Some all => engine_run (Flow_engine objs f all) sch w
  | None => None
  end.

(** ** functional.py: [AppliedTask], [Layer], [FunctionalFlow] *)

(** What may stand in [inputs] and [outputs]: an [AppliedTask] object or a
    bare [Layer] wrapping a task. *)
Inductive node_ref :=
| RApplied (id : nat)
| RLayer (task : nat).

Record AppliedTask := mkApplied {
  at_task : nat;
  at_inputs : list node_ref
}.

(** The fields of a [FunctionalFlow] that [_build_graph] fills, with the
    [AppliedTask] objects constructed so far ([heap], an object's identity
    being its position). *)
Record FunctionalFlow := mkFunctional {
  heap : list AppliedTask;
  all_nodes : list nat;
  ff_graph : gmap nat (list nat);
  ff_reverse_graph : gmap nat (list nat)
}.

(** [Layer.__call__( *inputs )] *)
Definition Layer_call (task : nat) (inputs : list node_ref)
    (ff : FunctionalFlow) : nat * FunctionalFlow :=
  (length (heap ff),
   mkFunctional (heap ff ++ [mkApplied task inputs]) (all_nodes ff)
                (ff_graph ff) (ff_reverse_graph ff)).

(** [if isinstance(node, Layer): node = node()] *)
Definition as_applied (node : node_ref) (ff : FunctionalFlow)
    : nat * FunctionalFlow :=
  match node with
  | RApplied id => (id, ff)
  | RLayer task => Layer_call task [] ff
  end.

Definition add_node (n : nat) (ff : FunctionalFlow) : FunctionalFlow :=
  mkFunctional (heap ff) (all_nodes ff ++ [n]) (ff_graph ff)
               (ff_reverse_graph ff).

(** [self.graph[inp].append(node); self.reverse_graph[node].append(inp)] *)
Definition add_edge (inp node : nat) (ff : FunctionalFlow) : FunctionalFlow :=
  mkFunctional (heap ff) (all_nodes ff) (dd_append inp node (ff_graph ff))
               (dd_append node inp (ff_reverse_graph ff)).

Definition inputs_of (ff : FunctionalFlow) (n : nat) : list node_ref :=
  match heap ff !! n with
  | Some a => at_inputs a
  | None => []
  end.

(** The loop [for inp in node.inputs] of [traverse]. *)
Fixpoint traverse_inputs
    (rec : FunctionalFlow -> node_ref -> option FunctionalFlow)
    (node : nat) (inps : list node_ref) (ff : FunctionalFlow)
    : option FunctionalFlow :=
  match inps with
  | [] => Some ff
  | inp :: rest =>
    let '(i, ff1) := as_applied inp ff in
    match rec ff1 (RApplied i) with
    | Some ff2 => traverse_inputs rec node rest (add_edge i node ff2)
    | None => None
    end
  end.

(** The nested function [traverse(node)] of [_build_graph]. *)
Fixpoint traverse (fuel : nat) (ff : FunctionalFlow) (node : node_ref)
    : option FunctionalFlow :=
  match fuel with
  | O => None
  | S fuel' =>
    let '(n, ff1) := as_applied node ff in
    if bool_decide (n ∈ all_nodes ff1) then Some ff1
    else traverse_inputs (traverse fuel') n (inputs_of ff1 n) (add_node n ff1)
  end.

(** [FunctionalFlow._build_graph]: [for output in self.outputs:
    traverse(output)], from the empty node set and edge maps. *)
Definition build_graph (objects : list AppliedTask) (outputs : list node_ref)
    : option FunctionalFlow :=
  foldl (fun acc output =>
           match acc with
           | Some ff => traverse (S (length objects)) ff output
           | None => None
           end)
        (Some (mkFunctional objects [] ∅ ∅)) outputs.

Definition node_task (objs : nat -> Task) (ff : FunctionalFlow) (n : nat)
    : option Task :=
  match heap ff !! n with
  | Some a => Some (objs (at_task a))
  | None => None
  end.

(** [FunctionalFlow._execute_node]; [results] is the dictionary of [run]
    as it is when the worker runs. *)
Definition FunctionalFlow_execute_node (objs : nat -> Task)
    (ff : FunctionalFlow) (node : nat) (results : gmap string value)
    (w : World) : option (result value * World) :=
  match node_task objs ff node with
  | None => None
  | Some t =>
    match inputs_of ff node with
    | [] => Task_call t [] [] w
    | _ =>
      match filter_kwargs (params t) results with
      | [] => Task_call t [] [] w
      | kwargs => Some (call_func t [] kwargs w)
      end
    end
  end.

Definition node_name (objs : nat -> Task) (ff : FunctionalFlow) (n : nat)
    : string :=
  match node_task objs ff n with
  | Some t => name t
  | None => EmptyString
  end.

(** [indegree = {node: len(self.reverse_graph[node]) for node in self.all_nodes}] *)
Definition Functional_indegree (ff : FunctionalFlow) : gmap nat Z :=
  list_to_map ((fun t => (t, Z.of_nat (length (ff_reverse_graph ff !!! t))))
                 <$> all_nodes ff).

Definition Functional_engine (objs : nat -> Task) (ff : FunctionalFlow)
    : Engine unit :=
  mkEngine (all_nodes ff) (fun n => ff_graph ff !!! n) (Functional_indegree ff)
           (node_name objs ff)
           (fun _ => Ok tt) (fun _ _ => tt)
           (fun n _ res w => FunctionalFlow_execute_node objs ff n res w)
           true.

(** [FunctionalFlow.run], up to the dictionary [results]. *)
Definition FunctionalFlow_run (objs : nat -> Task) (ff : FunctionalFlow)
    (sch : list action) (w : World) : option (state unit) :=
  engine_run (Functional_engine objs ff) sch w.

(** [FunctionalFlow(inputs, outputs).run()]: build, then run. *)
Definition FunctionalFlow_build_and_run (objs : nat -> Task)
    (objects : list AppliedTask) (outputs : list node_ref)
    (sch : list action) (w : World) : option (state unit) :=
  match build_graph objects outputs with
  | Some ff => FunctionalFlow_run objs ff sch w
  | None => None
  end.

(** * Properties *)

(** ** Counting events *)


Lemma count_ev_cons (p : event -> bool) (ev : event) (l : list event) :
  count_ev p (ev :: l) = ((if p ev then 1 else 0) + count_ev p l)%nat.
Proof.
  unfold count_ev. rewrite filter_cons.
  destruct (p ev); case_decide; simpl; congruence.
Qed.


Lemma is_call_of_call (n : string) args kwargs :
  is_call_of n (EvCall n args kwargs) = true.
Proof. simpl. by rewrite bool_decide_eq_true. Qed.



Lemma trace_emit (ev : event) (w : World) : trace (emit ev w) = trace w ++ [ev].
Proof. reflexivity. Qed.

(** ** [Task.__call__] returns *)

Lemma retry_loop_total (t : Task) args kwargs (fuel : nat) (attempt : Z)
    (d : Q) (w : World) :
  0 <= attempt ->
  (Z.to_nat (retries t - attempt) < fuel)%nat ->
  is_Some (retry_loop fuel t args kwargs attempt d w).
Proof.
  revert attempt d w. induction fuel as [|fuel IH]; intros attempt d w Ha Hf.
  - lia.
  - simpl. destruct (func t (trace w) args kwargs) as [r|e]; [by eexists|].
    destruct (Z.ltb_spec (retries t) (attempt + 1)); [by eexists|].
    destruct (0 <? retries t); [|apply IH; lia].
    destruct (Qle_bool 0 _); [apply IH; lia | by eexists].
Qed.

Lemma Task_call_total (t : Task) args kwargs (w : World) :
  is_Some (Task_call t args kwargs w).
Proof.
  assert (forall w', is_Some (retry_loop (S (Z.to_nat (retries t))) t args
                                kwargs 0 (delay t) w')) as Hrun.
  { intros w'. apply retry_loop_total; [lia|]. rewrite Z.sub_0_r. lia. }
  unfold Task_call. destruct (when t) as [cond|]; [|apply Hrun].
  destruct args as [|a rest]; [by eexists|].
  destruct (cond a) as [[|]|e]; by eauto.
Qed.

(** The condition of a task lets the call through. *)
Definition when_passes (t : Task) (args : list value) : Prop :=
  match when t with
  | None => True
  | Some cond => exists a rest, args = a :: rest /\ cond a = Ok true
  end.

Lemma Task_call_passes (t : Task) args kwargs (w : World) :
  when_passes t args ->
  Task_call t args kwargs w =
  retry_loop (S (Z.to_nat (retries t))) t args kwargs 0 (delay t)
             (emit (EvStart (name t)) w).
Proof.
  unfold when_passes, Task_call. destruct (when t) as [cond|]; [|done].
  intros (a & rest & -> & ->). done.
Qed.

(** The random source answers within the bounds it is given. *)
Definition uniform_in_range (w : World) : Prop :=
  forall k a b, (a <= b)%Q ->
    (a <= random_uniform w k a b)%Q /\ (random_uniform w k a b <= b)%Q.

(** ** Retry then succeed *)



Definition flaky_task : Task :=
  mkTask "my_task" []
         (fun tr _ _ => if (calls_of "my_task" tr <? 2)%nat
                        then Raise (ValueError "Temporary failure")
                        else Ok (VStr "success"))
         3 1 2 None.

(** A world with an empty trace whose random source always answers with
    the lower bound. *)
Definition quiet_world : World := mkWorld [] (fun _ a _ => a) 0.



(** With a negative delay the first wait is negative: [time.sleep] raises,
    and the call ends there, after one invocation of the body, whatever the
    retry budget that is left. *)
Lemma Task_call_negative_wait (t : Task) args kwargs (w : World) (e : exn) :
  0 < retries t ->
  when_passes t args ->
  func t (trace w ++ [EvStart (name t)]) args kwargs = Raise e ->
  let wait := (delay t
               + random_uniform w (draws w) 0 (delay t * (1 # 10)))%Q in
  (wait < 0)%Q ->
  Task_call t args kwargs w
  = Some (Raise negative_sleep,
          mkWorld (trace w ++ [EvStart (name t); EvCall (name t) args kwargs;
                               EvRetry (name t) 1 (retries t) wait;
                               EvSleep wait])
                  (random_uniform w) (S (draws w))).
Proof.
  intros Hr Hpass Hfail wait Hneg.
  rewrite (Task_call_passes _ _ _ _ Hpass).
  cbn [retry_loop call_func emit trace]. rewrite Hfail.
  destruct (Z.ltb_spec (retries t) (0 + 1)); [lia|].
  destruct (Z.ltb_spec 0 (retries t)); [|lia].
  cbn [draw_uniform emit trace random_uniform draws]. fold wait.
  destruct (Qle_bool 0 wait) eqn:Hq.
  { apply Qle_bool_iff in Hq. by apply Qlt_not_le in Hneg. }
  unfold emit; simpl. rewrite <- !app_assoc. reflexivity.
Qed.

(** ** Retry exhaustion, at the level of the task *)


(** ** Conditional skip, at the level of the task *)

(** Does the trace extension [l] hold an invocation of a body, a retry or a
    failure? *)
Definition quiet_event (ev : event) : bool :=
  match ev with
  | EvCall _ _ _ | EvRetry _ _ _ _ | EvSleep _ | EvFailure _ _ => false
  | _ => true
  end.

Lemma Task_call_skip_no_args (t : Task) cond kwargs (w : World) :
  when t = Some cond ->
  Task_call t [] kwargs w
  = Some (Ok VNone, emit (EvSkip (name t) "no upstream data") w).
Proof. intros Hw. unfold Task_call. by rewrite Hw. Qed.

Lemma Task_call_skip_false (t : Task) cond a rest kwargs (w : World) :
  when t = Some cond ->
  cond a = Ok false ->
  Task_call t (a :: rest) kwargs w
  = Some (Ok VNone, emit (EvSkip (name t) "condition not met") w).
Proof. intros Hw Hc. unfold Task_call. by rewrite Hw, Hc. Qed.

(** The condition of a task is not met: there is no first positional
    argument, or the predicate is false of it. *)
Definition condition_not_met (t : Task) (args : list value) : Prop :=
  exists cond, when t = Some cond /\
    match args with
    | [] => True
    | a :: _ => cond a = Ok false
    end.

Lemma Task_call_skipped (t : Task) args kwargs (w : World) :
  condition_not_met t args ->
  exists reason,
    Task_call t args kwargs w = Some (Ok VNone, emit (EvSkip (name t) reason) w).
Proof.
  intros (cond & Hw & Hc). destruct args as [|a rest].
  - eexists. by eapply Task_call_skip_no_args.
  - eexists. by eapply Task_call_skip_false.
Qed.

(** ** The arguments a body is called with *)

(** Every invocation of a body recorded in [ext] is one of the task named
    [n], with the positional arguments [args] and the keyword arguments
    [kwargs]. *)
Definition calls_with (n : string) (args : list value)
    (kwargs : list (string * value)) (ext : list event) : Prop :=
  forall m a k, EvCall m a k ∈ ext -> m = n /\ a = args /\ k = kwargs.

Lemma calls_with_nil n args kwargs : calls_with n args kwargs [].
Proof. intros m a k H. by apply elem_of_nil in H. Qed.

Lemma calls_with_app n args kwargs l1 l2 :
  calls_with n args kwargs l1 -> calls_with n args kwargs l2 ->
  calls_with n args kwargs (l1 ++ l2).
Proof.
  intros H1 H2 m a k [H|H]%elem_of_app; [by apply H1 | by apply H2].
Qed.

Lemma calls_with_cons n args kwargs ev l :
  match ev with
  | EvCall m a k => m = n /\ a = args /\ k = kwargs
  | _ => True
  end ->
  calls_with n args kwargs l -> calls_with n args kwargs (ev :: l).
Proof.
  intros Hev Hl m a k [Heq|H]%elem_of_cons; [by subst ev | by apply Hl].
Qed.

Lemma retry_loop_trace (t : Task) args kwargs (fuel : nat) (attempt : Z)
    (d : Q) (w : World) r w' :
  retry_loop fuel t args kwargs attempt d w = Some (r, w') ->
  exists ext, trace w' = trace w ++ ext /\
              calls_with (name t) args kwargs ext /\
              (0 < calls_of (name t) ext)%nat.
Proof.
  revert attempt d w. induction fuel as [|fuel IH]; intros attempt d w; [done|].
  simpl.
  assert (forall l, (0 < calls_of (name t)
                         (EvCall (name t) args kwargs :: l))%nat) as Hpos.
  { intros l. unfold calls_of. rewrite count_ev_cons, is_call_of_call. lia. }
  destruct (func t (trace w) args kwargs) as [v|e].
  { intros [= <- <-]. exists [EvCall (name t) args kwargs; EvSuccess (name t)].
    simpl. rewrite <- app_assoc. split; [done|]. split; [|apply Hpos].
    repeat apply calls_with_cons; try done. apply calls_with_nil. }
  destruct (retries t <? attempt + 1).
  { intros [= <- <-]. exists [EvCall (name t) args kwargs; EvFailure (name t) e].
    simpl. rewrite <- app_assoc. split; [done|]. split; [|apply Hpos].
    repeat apply calls_with_cons; try done. apply calls_with_nil. }
  destruct (0 <? retries t).
  - destruct (Qle_bool 0 _).
    2:{ intros [= <- <-]. eexists [EvCall (name t) args kwargs; _; _].
        simpl. rewrite <- !app_assoc. split; [done|]. split; [|apply Hpos].
        repeat apply calls_with_cons; try done. apply calls_with_nil. }
    intros H. apply IH in H as (ext & Htr & Hc & _). simpl in Htr.
    eexists (EvCall (name t) args kwargs :: _ :: _ :: ext). split.
    { rewrite Htr, <- !app_assoc. reflexivity. }
    split; [|apply Hpos]. repeat apply calls_with_cons; done.
  - intros H. apply IH in H as (ext & Htr & Hc & _). simpl in Htr.
    exists (EvCall (name t) args kwargs :: ext). split.
    { rewrite Htr, <- !app_assoc. reflexivity. }
    split; [|apply Hpos]. apply calls_with_cons; done.
Qed.

Lemma Task_call_trace (t : Task) args kwargs (w : World) r w' :
  Task_call t args kwargs w = Some (r, w') ->
  exists ext, trace w' = trace w ++ ext /\ calls_with (name t) args kwargs ext.
Proof.
  assert (forall w0, retry_loop (S (Z.to_nat (retries t))) t args kwargs 0
                       (delay t) (emit (EvStart (name t)) w0) = Some (r, w') ->
          exists ext, trace w' = trace w0 ++ ext /\
                      calls_with (name t) args kwargs ext) as Hrun.
  { intros w0 H. apply retry_loop_trace in H as (ext & Htr & Hc & _).
    exists (EvStart (name t) :: ext). rewrite Htr. simpl.
    rewrite <- app_assoc. split; [done|]. by apply calls_with_cons. }
  unfold Task_call. destruct (when t) as [cond|]; [|apply Hrun].
  destruct args as [|a rest].
  { intros [= <- <-]. eexists [_]. split; [done|].
    apply calls_with_cons; [done | apply calls_with_nil]. }
  destruct (cond a) as [[|]|e]; [apply Hrun| |].
  - intros [= <- <-]. eexists [_]. split; [done|].
    apply calls_with_cons; [done | apply calls_with_nil].
  - intros [= <- <-]. exists []. rewrite app_nil_r. split; [done|].
    apply calls_with_nil.
Qed.

Lemma call_func_trace (t : Task) args kwargs (w : World) :
  trace (call_func t args kwargs w).2 = trace w ++ [EvCall (name t) args kwargs].
Proof. reflexivity. Qed.

(** ** Named-result injection: [filter_kwargs] *)

Lemma elem_of_filter_kwargs (ps : list string) (res : gmap string value) p v :
  (p, v) ∈ filter_kwargs ps res <-> p ∈ ps /\ res !! p = Some v.
Proof.
  unfold filter_kwargs. rewrite list_elem_of_omap. split.
  - intros (q & Hq & Hsome). destruct (res !! q) as [u|] eqn:Hl; [|done].
    by simplify_eq.
  - intros [Hp Hl]. exists p. by rewrite Hl.
Qed.

Lemma filter_kwargs_nil (ps : list string) (res : gmap string value) :
  filter_kwargs ps res = [] <-> forall p, p ∈ ps -> res !! p = None.
Proof.
  split.
  - intros Hnil p Hp. destruct (res !! p) as [v|] eqn:Hl; [|done].
    assert ((p, v) ∈ filter_kwargs ps res) as Hin
      by by apply elem_of_filter_kwargs.
    rewrite Hnil in Hin. by apply elem_of_nil in Hin.
  - intros Hnone. destruct (filter_kwargs ps res) as [|[p v] l] eqn:Hf; [done|].
    assert ((p, v) ∈ filter_kwargs ps res) as Hin by (rewrite Hf; left).
    apply elem_of_filter_kwargs in Hin as [Hp Hl]. by rewrite Hnone in Hl.
Qed.

Lemma filter_kwargs_empty (ps : list string) : filter_kwargs ps ∅ = [].
Proof. apply filter_kwargs_nil. intros. apply lookup_empty. Qed.

Lemma filter_kwargs_cons (p : string) (ps : list string)
    (res : gmap string value) :
  filter_kwargs (p :: ps) res =
  match res !! p with
  | Some v => (p, v) :: filter_kwargs ps res
  | None => filter_kwargs ps res
  end.
Proof. unfold filter_kwargs. simpl. by destruct (res !! p). Qed.

(** The parameter names of [filter_kwargs ps res] are those of [ps] that
    have an entry, in the order of [ps]. *)
Lemma filter_kwargs_names (ps : list string) (res : gmap string value) :
  (filter_kwargs ps res).*1 = filter (fun p => is_Some (res !! p)) ps.
Proof.
  induction ps as [|p ps IH]; [done|].
  rewrite filter_kwargs_cons, filter_cons.
  destruct (res !! p) as [v|] eqn:Hl.
  - rewrite decide_True by eauto. by rewrite fmap_cons, IH.
  - rewrite decide_False by (by intros [? ?]). done.
Qed.

(** ** The raw call of flow.py and functional.py *)

Lemma Flow_execute_task_raw (t : Task) (res : gmap string value) (w : World) :
  filter_kwargs (params t) res ≠ [] ->
  Flow_execute_task t res w
  = Some (call_func t [] (filter_kwargs (params t) res) w).
Proof.
  intros Hne. unfold Flow_execute_task.
  case_bool_decide as He.
  - subst res. by rewrite filter_kwargs_empty in Hne.
  - by destruct (filter_kwargs (params t) res).
Qed.

Lemma Flow_execute_task_call (t : Task) (res : gmap string value) (w : World) :
  filter_kwargs (params t) res = [] ->
  Flow_execute_task t res w = Task_call t [] [] w.
Proof.
  intros Hnil. unfold Flow_execute_task. rewrite Hnil. by case_bool_decide.
Qed.

Lemma execute_node_raw (objs : nat -> Task) (ff : FunctionalFlow) (n : nat)
    (t : Task) (res : gmap string value) (w : World) :
  node_task objs ff n = Some t ->
  inputs_of ff n ≠ [] ->
  filter_kwargs (params t) res ≠ [] ->
  FunctionalFlow_execute_node objs ff n res w
  = Some (call_func t [] (filter_kwargs (params t) res) w).
Proof.
  intros Ht Hin Hne. unfold FunctionalFlow_execute_node. rewrite Ht.
  destruct (inputs_of ff n); [done|].
  by destruct (filter_kwargs (params t) res).
Qed.

Lemma execute_node_call (objs : nat -> Task) (ff : FunctionalFlow) (n : nat)
    (t : Task) (res : gmap string value) (w : World) :
  node_task objs ff n = Some t ->
  inputs_of ff n = [] \/ filter_kwargs (params t) res = [] ->
  FunctionalFlow_execute_node objs ff n res w = Task_call t [] [] w.
Proof.
  intros Ht Hor. unfold FunctionalFlow_execute_node. rewrite Ht.
  destruct (inputs_of ff n); [done|].
  destruct Hor as [?|Hnil]; [done|]. by rewrite Hnil.
Qed.

Lemma some_match_iff (ps : list string) (res : gmap string value) :
  filter_kwargs ps res ≠ [] <-> exists p, p ∈ ps /\ is_Some (res !! p).
Proof.
  rewrite filter_kwargs_nil. split.
  - intros Hn. destruct (filter_kwargs ps res) as [|[p v] l] eqn:Hf.
    + exfalso. apply Hn. by apply filter_kwargs_nil.
    + assert ((p, v) ∈ filter_kwargs ps res) as Hin by (rewrite Hf; left).
      apply elem_of_filter_kwargs in Hin as [Hp Hl]. eauto.
  - intros (p & Hp & v & Hv) Hnone. by rewrite Hnone in Hv.
Qed.

(** C7. In [Flow._execute_task] and [FunctionalFlow._execute_node], when an
    entry of the results matches a declared parameter name (and, in
    functional.py, the node has inputs), the wrapped function is called once
    and directly with the matching keyword arguments, and the outcome of
    that one call is the outcome of the node: nothing of [Task.__call__]
    runs, whatever [retries] and [when] are. When no entry matches (or the
    node has no inputs) the task itself is called, without arguments. *)
Theorem raw_call_bypasses_task_contract (t : Task) (res : gmap string value)
    (w : World) :
  let kwargs := filter_kwargs (params t) res in
  let raw := Some (func t (trace w) [] kwargs,
                   emit (EvCall (name t) [] kwargs) w) in
  ((exists p, p ∈ params t /\ is_Some (res !! p)) ->
     Flow_execute_task t res w = raw) /\
  ((forall p, p ∈ params t -> res !! p = None) ->
     Flow_execute_task t res w = Task_call t [] [] w) /\
  (forall objs ff n, node_task objs ff n = Some t ->
     (inputs_of ff n ≠ [] -> (exists p, p ∈ params t /\ is_Some (res !! p)) ->
        FunctionalFlow_execute_node objs ff n res w = raw) /\
     (inputs_of ff n = [] \/ (forall p, p ∈ params t -> res !! p = None) ->
        FunctionalFlow_execute_node objs ff n res w = Task_call t [] [] w)).
Proof.
  intros kwargs raw. split; [|split].
  - intros Hm. apply some_match_iff in Hm. by apply Flow_execute_task_raw.
  - intros Hn. apply Flow_execute_task_call. by apply filter_kwargs_nil.
  - intros objs ff n Ht. split.
    + intros Hin Hm. apply some_match_iff in Hm. by apply execute_node_raw.
    + intros Hor. apply execute_node_call; [done|].
      destruct Hor as [?|Hn]; [by left | right]. by apply filter_kwargs_nil.
Qed.

(** A task that always raises, with a retry budget and a condition that is
    never met: called raw, its body runs once and its error comes out. *)
Definition guarded_task : Task :=
  mkTask "guarded" ["source"]
         (fun _ _ _ => Raise (ValueError "boom"))
         5 1 2 (Some (fun _ => Ok false)).

Lemma raw_call_bypasses_task_contract_witness :
  Flow_execute_task guarded_task {["source" := VInt 1]} quiet_world
  = Some (Raise (ValueError "boom"),
          mkWorld [EvCall "guarded" [] [("source", VInt 1)]]
                  (random_uniform quiet_world) 0)
  /\ Flow_execute_task guarded_task ∅ quiet_world
     = Some (Ok VNone,
             mkWorld [EvSkip "guarded" "no upstream data"]
                     (random_uniform quiet_world) 0).
Proof.
  destruct (raw_call_bypasses_task_contract guarded_task
              {["source" := VInt 1]} quiet_world) as (Hraw & _ & _).
  destruct (raw_call_bypasses_task_contract guarded_task ∅ quiet_world)
    as (_ & Hcall & _).
  split.
  - rewrite Hraw; [reflexivity|].
    exists "source"%string. split; [by left | by eexists].
  - rewrite Hcall; [reflexivity|]. intros p _. apply lookup_empty.
Defined.

(** ** Named-result injection in the three front ends *)

Definition new_events (w w' : World) : list event :=
  drop (length (trace w)) (trace w').

Lemma new_events_app (w w' : World) ext :
  trace w' = trace w ++ ext -> new_events w w' = ext.
Proof. intros H. unfold new_events. by rewrite H, drop_app_length. Qed.

(** Named-result injection, as a property of an engine: when the node [d]
    becomes ready while the Result Store is [res], whatever call of a body
    its execution makes passes no positional argument and passes exactly the
    entries of [res] that match a declared parameter name. *)
Definition injects_by_name {P} (E : Engine P) (params_of : nat -> list string)
    (is_downstream : nat -> Prop) : Prop :=
  forall d res w r w',
    is_downstream d ->
    e_execute E d (e_payload E d res) res w = Some (r, w') ->
    forall m a k, EvCall m a k ∈ new_events w w' ->
      a = [] /\ k = filter_kwargs (params_of d) res.

Definition node_params (objs : nat -> Task) (ff : FunctionalFlow) (n : nat)
    : list string :=
  match node_task objs ff n with
  | Some t => params t
  | None => []
  end.

Lemma Flow_injects_by_name (objs : nat -> Task) (f : Flow) (all : list nat) :
  injects_by_name (Flow_engine objs f all) (fun n => params (objs n))
                  (fun _ => True).
Proof.
  intros d res w r w' _ Hex m a k Hin. simpl in Hex.
  destruct (filter_kwargs (params (objs d)) res) as [|kv l] eqn:Hf.
  - rewrite Flow_execute_task_call in Hex by done.
    apply Task_call_trace in Hex as (ext & Htr & Hc).
    rewrite (new_events_app _ _ _ Htr) in Hin.
    destruct (Hc _ _ _ Hin) as (_ & Ha & Hk). by split.
  - rewrite Flow_execute_task_raw in Hex by (by rewrite Hf).
    injection Hex as <- <-. rewrite Hf in Hin.
    erewrite new_events_app in Hin by apply trace_emit.
    apply list_elem_of_singleton in Hin. by simplify_eq.
Qed.

Lemma Functional_injects_by_name (objs : nat -> Task) (ff : FunctionalFlow) :
  injects_by_name (Functional_engine objs ff) (node_params objs ff)
                  (fun n => inputs_of ff n ≠ []).
Proof.
  intros d res w r w' Hinp Hex m a k Hin. simpl in Hex.
  unfold node_params.
  destruct (node_task objs ff d) as [t|] eqn:Ht.
  2:{ unfold FunctionalFlow_execute_node in Hex. by rewrite Ht in Hex. }
  destruct (filter_kwargs (params t) res) as [|kv l] eqn:Hf.
  - erewrite execute_node_call in Hex by eauto.
    apply Task_call_trace in Hex as (ext & Htr & Hc).
    rewrite (new_events_app _ _ _ Htr) in Hin.
    destruct (Hc _ _ _ Hin) as (_ & Ha & Hk). by split.
  - erewrite execute_node_raw in Hex by (try done; by rewrite Hf).
    injection Hex as <- <-. rewrite Hf in Hin.
    erewrite new_events_app in Hin by apply trace_emit.
    apply list_elem_of_singleton in Hin. by simplify_eq.
Qed.

Lemma DAG_passes_positionally (r : Registry) (d : nat)
    (res : gmap string value) (w : World) out w' :
  e_execute (DAG_engine r) d (e_payload (DAG_engine r) d res) res w
  = Some (out, w') ->
  forall m a k, EvCall m a k ∈ new_events w w' ->
    a = (fun u => default VNone (res !! task_name r u)) <$> upstream r d
    /\ k = [].
Proof.
  simpl. unfold DAG_execute. intros Hex m a k Hin.
  apply Task_call_trace in Hex as (ext & Htr & Hc).
  rewrite (new_events_app _ _ _ Htr) in Hin.
  destruct (Hc _ _ _ Hin) as (_ & Ha & Hk). by split.
Qed.

(** The chain [source >> final] of dag.py, where [final(x)] names no
    upstream task. *)
Definition chain_registry : Registry :=
  rshift 0 1
    (mkRegistry [0; 1]%nat
       (fun n => match n with
                 | O => mkTask "source" [] (fun _ _ _ => Ok (VInt 1)) 0 1 2 None
                 | _ => mkTask "final" ["x"]
                          (fun _ a _ => match a with
                                        | [v] => Ok v
                                        | _ => Raise (TypeError "final")
                                        end) 0 1 2 None
                 end)
       (fun _ => []) (fun _ => [])).

(** C1, as stated, fails for [DAG.run]: [final(x)] has no parameter that
    matches an entry of the Result Store, and is called with the result of
    [source] as a positional argument all the same. *)
Lemma DAG_does_not_inject_by_name :
  ~ injects_by_name (DAG_engine chain_registry)
      (fun n => params (task_obj chain_registry n))
      (fun n => upstream chain_registry n ≠ []).
Proof.
  intros Hclaim.
  destruct (Hclaim 1%nat {["source" := VInt 1]} quiet_world (Ok (VInt 1))
              (mkWorld [EvStart "final"; EvCall "final" [VInt 1] [];
                        EvSuccess "final"] (random_uniform quiet_world) 0)
              ltac:(done) eq_refl "final"%string [VInt 1] [])
    as [Hargs _].
  - unfold new_events. simpl. right. left.
  - discriminate Hargs.
Qed.

(** Named-result injection, the call itself: when an entry of [res] matches
    a declared parameter of the node [d], what the worker runs for [d] is one
    call of the body, without positional argument and with the matching
    entries as keyword arguments, and each matching parameter is among
    them with the value of its entry. *)
Definition calls_by_name {P} (E : Engine P) (task_of : nat -> option Task)
    (is_downstream : nat -> Prop) : Prop :=
  forall d t res w,
    is_downstream d -> task_of d = Some t ->
    (exists p, p ∈ params t /\ is_Some (res !! p)) ->
    let kwargs := filter_kwargs (params t) res in
    e_execute E d (e_payload E d res) res w
    = Some (func t (trace w) [] kwargs, emit (EvCall (name t) [] kwargs) w) /\
    new_events w (emit (EvCall (name t) [] kwargs) w)
    = [EvCall (name t) [] kwargs] /\
    forall p v, p ∈ params t -> res !! p = Some v -> (p, v) ∈ kwargs.

Lemma Flow_calls_by_name (objs : nat -> Task) (f : Flow) (all : list nat) :
  calls_by_name (Flow_engine objs f all) (fun n => Some (objs n))
                (fun _ => True).
Proof.
  intros d t res w _ [= <-] Hm kwargs. split; [|split].
  - simpl. apply Flow_execute_task_raw. by apply some_match_iff.
  - by apply new_events_app.
  - intros p v Hp Hv. by apply elem_of_filter_kwargs.
Qed.

Lemma Functional_calls_by_name (objs : nat -> Task) (ff : FunctionalFlow) :
  calls_by_name (Functional_engine objs ff) (node_task objs ff)
                (fun n => inputs_of ff n ≠ []).
Proof.
  intros d t res w Hin Ht Hm kwargs. split; [|split].
  - simpl. apply execute_node_raw; [done..|]. by apply some_match_iff.
  - by apply new_events_app.
  - intros p v Hp Hv. by apply elem_of_filter_kwargs.
Qed.

Lemma count_ev_pos (q : event -> bool) (l : list event) :
  (0 < count_ev q l)%nat -> exists ev, ev ∈ l /\ q ev = true.
Proof.
  unfold count_ev. intros Hpos.
  destruct (filter (fun ev => q ev = true) l) as [|ev l'] eqn:Hf;
    [simpl in Hpos; lia|].
  assert (ev ∈ filter (fun ev => q ev = true) l) as Hin by (rewrite Hf; left).
  apply list_elem_of_filter in Hin as [Hq Hin]. eauto.
Qed.

(** A call of a task whose condition lets it through returns or raises,
    and it has invoked the body with the arguments of the call. *)
Lemma Task_call_calls (t : Task) args kwargs (w : World) :
  when_passes t args ->
  exists r w', Task_call t args kwargs w = Some (r, w') /\
               EvCall (name t) args kwargs ∈ new_events w w'.
Proof.
  intros Hpass. destruct (Task_call_total t args kwargs w) as [[r w'] Hcall].
  exists r, w'. split; [done|].
  rewrite (Task_call_passes _ _ _ _ Hpass) in Hcall.
  apply retry_loop_trace in Hcall as (ext & Htr & Hc & Hpos).
  simpl in Htr. rewrite <- app_assoc in Htr.
  rewrite (new_events_app _ _ _ Htr).
  apply count_ev_pos in Hpos as (ev & Hin & Hq). right.
  destruct ev; try done. destruct (Hc _ _ _ Hin) as (-> & -> & ->). done.
Qed.

(** C1, amended. [Flow.run] and [FunctionalFlow.run] inject by name: a body
    is called without positional arguments and with the entries of the
    Result Store that match its declared parameter names, in the order of
    the parameters, and with nothing for the other parameters; the store is
    the one copied when the node becomes ready in flow.py, and the one the
    worker reads when it runs a node that has inputs in functional.py. When
    an entry matches, that call is made: it is the one call of the body, and
    every matching parameter receives the value of its entry; when none
    matches, the task is called without arguments, and its body is invoked
    without arguments if it has no condition. [DAG.run] passes the results of
    the immediate upstream tasks positionally, in the order of [upstream],
    [None] standing for a missing entry, and no keyword argument; the body
    is invoked with them when the condition of the task lets the call
    through. *)
Theorem injection_by_front_end :
  (forall objs f all,
     injects_by_name (Flow_engine objs f all) (fun n => params (objs n))
                     (fun _ => True)) /\
  (forall objs ff,
     injects_by_name (Functional_engine objs ff) (node_params objs ff)
                     (fun n => inputs_of ff n ≠ [])) /\
  (forall ps res p v,
     (p, v) ∈ filter_kwargs ps res <-> p ∈ ps /\ res !! p = Some v) /\
  (forall ps res,
     (filter_kwargs ps res).*1 = filter (fun p => is_Some (res !! p)) ps) /\
  (forall r d res w out w',
     e_execute (DAG_engine r) d (e_payload (DAG_engine r) d res) res w
     = Some (out, w') ->
     forall m a k, EvCall m a k ∈ new_events w w' ->
       a = (fun u => default VNone (res !! task_name r u)) <$> upstream r d
       /\ k = []) /\
  (forall objs f all,
     calls_by_name (Flow_engine objs f all) (fun n => Some (objs n))
                   (fun _ => True)) /\
  (forall objs ff,
     calls_by_name (Functional_engine objs ff) (node_task objs ff)
                   (fun n => inputs_of ff n ≠ [])) /\
  (forall objs f all d res w,
     (forall p, p ∈ params (objs d) -> res !! p = None) ->
     when (objs d) = None ->
     exists out w',
       e_execute (Flow_engine objs f all) d
                 (e_payload (Flow_engine objs f all) d res) res w
       = Some (out, w') /\
       EvCall (name (objs d)) [] [] ∈ new_events w w') /\
  (forall objs ff d t res w,
     node_task objs ff d = Some t ->
     inputs_of ff d = [] \/ (forall p, p ∈ params t -> res !! p = None) ->
     when t = None ->
     exists out w',
       e_execute (Functional_engine objs ff) d
                 (e_payload (Functional_engine objs ff) d res) res w
       = Some (out, w') /\
       EvCall (name t) [] [] ∈ new_events w w') /\
  (forall r d res w,
     let args := (fun u => default VNone (res !! task_name r u))
                   <$> upstream r d in
     when_passes (task_obj r d) args ->
     exists out w',
       e_execute (DAG_engine r) d (e_payload (DAG_engine r) d res) res w
       = Some (out, w') /\
       EvCall (task_name r d) args [] ∈ new_events w w').
Proof.
  split; [apply Flow_injects_by_name|].
  split; [apply Functional_injects_by_name|].
  split; [apply elem_of_filter_kwargs|].
  split; [apply filter_kwargs_names|].
  split; [apply DAG_passes_positionally|].
  split; [apply Flow_calls_by_name|].
  split; [apply Functional_calls_by_name|].
  assert (forall t, when t = None -> when_passes t []) as Hpass.
  { intros t Hw. unfold when_passes. by rewrite Hw. }
  split; [|split].
  - intros objs f all d res w Hnone Hw. simpl.
    rewrite Flow_execute_task_call by (by apply filter_kwargs_nil).
    by apply Task_call_calls, Hpass.
  - intros objs ff d t res w Ht Hor Hw. simpl.
    assert (inputs_of ff d = [] \/ filter_kwargs (params t) res = [])
      as Hor'.
    { destruct Hor as [?|Hn]; [by left | right; by apply filter_kwargs_nil]. }
    rewrite (execute_node_call objs ff d t res w Ht Hor').
    by apply Task_call_calls, Hpass.
  - intros r d res w args Hp. simpl. unfold DAG_execute, DAG_args.
    by apply Task_call_calls.
Qed.

(** Both halves at work in [Flow._execute_task]: a task that names an
    earlier result is called with it, and nothing else. *)
Example Flow_injection_example :
  let t := mkTask "final" ["source"; "other"]
                  (fun _ _ kw => match kw with
                                 | [(_, v)] => Ok v
                                 | _ => Raise (TypeError "final")
                                 end) 0 1 2 None in
  e_execute (Flow_engine (fun _ => t) Flow_new []) 0%nat
            {["source" := VInt 1; "unrelated" := VInt 2]}
            ∅ quiet_world
  = Some (Ok (VInt 1),
          mkWorld [EvCall "final" [] [("source", VInt 1)]]
                  (random_uniform quiet_world) 0).
Proof. vm_compute. reflexivity. Qed.

(** ** The cycle detector is correct *)

Section CycleFacts.
Variable down : nat -> list nat.

(** [b] is downstream of [a]. *)
Definition edge (a b : nat) : Prop := b ∈ down a.

Definition whites (st : gmap nat color) : nat :=
  size (filter (fun kv => kv.2 = Unvisited) st).

Lemma whites_insert_white (st : gmap nat color) (t : nat) (c : color) :
  st !! t = Some Unvisited -> c ≠ Unvisited ->
  S (whites (<[t := c]> st)) = whites st.
Proof.
  intros Ht Hc. unfold whites.
  rewrite map_filter_insert_False by done.
  rewrite map_filter_delete, map_size_delete.
  assert (filter (fun kv : nat * color => kv.2 = Unvisited) st !! t
          = Some Unvisited) as Hf by by apply map_lookup_filter_Some.
  rewrite Hf. simpl.
  assert (size (filter (fun kv : nat * color => kv.2 = Unvisited) st) ≠ 0%nat).
  { apply map_size_non_empty_iff. intros He. by rewrite He in Hf. }
  lia.
Qed.

Lemma whites_insert_other (st : gmap nat color) (t : nat) (c0 c : color) :
  st !! t = Some c0 -> c0 ≠ Unvisited -> c ≠ Unvisited ->
  whites (<[t := c]> st) = whites st.
Proof.
  intros Ht Hc0 Hc. unfold whites.
  rewrite map_filter_insert_not'; [done|done|].
  intros y Hy. simpl. congruence.
Qed.

(** The invariants of the search. *)
Definition keys_closed (st : gmap nat color) : Prop :=
  forall n d, is_Some (st !! n) -> edge n d -> is_Some (st !! d).

Definition black_closed (st : gmap nat color) : Prop :=
  forall b d, st !! b = Some Visited -> edge b d -> st !! d = Some Visited.

Definition black_acyclic (st : gmap nat color) : Prop :=
  forall b, st !! b = Some Visited -> ~ tc edge b b.

(** What a call that returns [False] may have done to the dictionary. *)
Record extends (st st' : gmap nat color) : Prop := mkExtends {
  ext_keys : forall n, is_Some (st !! n) <-> is_Some (st' !! n);
  ext_gray : forall n, st !! n = Some Visiting <-> st' !! n = Some Visiting;
  ext_black : forall n, st !! n = Some Visited -> st' !! n = Some Visited;
  ext_whites : (whites st' <= whites st)%nat
}.

Lemma extends_refl st : extends st st.
Proof. by split. Qed.

Lemma extends_trans st1 st2 st3 :
  extends st1 st2 -> extends st2 st3 -> extends st1 st3.
Proof.
  intros [K1 G1 B1 W1] [K2 G2 B2 W2]. split.
  - intros n. by rewrite K1.
  - intros n. by rewrite G1.
  - intros n H. by apply B2, B1.
  - lia.
Qed.

Lemma keys_closed_extends st st' :
  extends st st' -> keys_closed st -> keys_closed st'.
Proof.
  intros [K _ _ _] Hc n d Hn He. apply K. eapply Hc; [|done]. by apply K.
Qed.

Lemma black_closed_reach st b d :
  black_closed st -> st !! b = Some Visited -> rtc edge b d ->
  st !! d = Some Visited.
Proof. intros Hc Hb Hr. induction Hr; eauto. Qed.

(** The specification of a call [dfs(t)] from the dictionary [st]. *)
Definition dfs_post (st : gmap nat color) (t : nat)
    (out : comp (bool * gmap nat color)) : Prop :=
  exists b st', out = Some (Ok (b, st')) /\
    if b then exists n, is_Some (st !! n) /\ tc edge n n
    else extends st st' /\ st' !! t = Some Visited /\
         black_closed st' /\ black_acyclic st'.

Definition dfs_pre (fuel : nat) (st : gmap nat color) (t : nat) : Prop :=
  keys_closed st /\ is_Some (st !! t) /\ (whites st < fuel)%nat /\
  (forall g, st !! g = Some Visiting -> tc edge g t) /\
  black_closed st /\ black_acyclic st.

Lemma dfs_children_spec (fuel : nat)
    (rec : gmap nat color -> nat -> comp (bool * gmap nat color)) (p : nat) :
  (forall st t, dfs_pre fuel st t -> dfs_post st t (rec st t)) ->
  forall ds st,
    (forall d, d ∈ ds -> edge p d) ->
    st !! p = Some Visiting ->
    keys_closed st -> (whites st < fuel)%nat ->
    (forall g, st !! g = Some Visiting -> rtc edge g p) ->
    black_closed st -> black_acyclic st ->
    exists b st', dfs_children rec ds st = Some (Ok (b, st')) /\
      if b then exists n, is_Some (st !! n) /\ tc edge n n
      else extends st st' /\ (forall d, d ∈ ds -> st' !! d = Some Visited) /\
           black_closed st' /\ black_acyclic st'.
Proof.
  intros Hrec ds. induction ds as [|d ds IH]; intros st Hds Hp Hk Hw Hg Hbc Hba.
  - exists false, st. split; [done|]. split; [apply extends_refl|].
    split; [|done]. intros d Hd. by apply elem_of_nil in Hd.
  - simpl.
    destruct (Hrec st d) as (b & st1 & -> & Hpost).
    { split; [done|]. split.
      { eapply Hk; [by eexists|]. apply Hds. left. }
      split; [done|]. split; [|done].
      intros g Hgray. eapply tc_rtc_l; [by apply Hg|]. apply tc_once, Hds. left. }
    destruct b.
    { exists true, st1. done. }
    destruct Hpost as (Hext & Hd & Hbc1 & Hba1).
    destruct (IH st1) as (b & st2 & Heq & Hpost2).
    { intros d' Hd'. apply Hds. by right. }
    { by apply Hext. }
    { by eapply keys_closed_extends. }
    { pose proof (ext_whites _ _ Hext). lia. }
    { intros g Hgray. apply Hg. by apply Hext. }
    { done. }
    { done. }
    exists b, st2. split; [done|]. destruct b.
    + destruct Hpost2 as (n & Hn & Hcyc). exists n. split; [|done].
      by apply Hext.
    + destruct Hpost2 as (Hext2 & Hall & Hbc2 & Hba2).
      split; [by eapply extends_trans|]. split; [|done].
      intros d' [->|Hd']%elem_of_cons; [|by apply Hall].
      by apply Hext2.
Qed.

Lemma dfs_spec (fuel : nat) :
  forall st t, dfs_pre fuel st t -> dfs_post st t (dfs down fuel st t).
Proof.
  induction fuel as [|fuel IH]; intros st t (Hk & Ht & Hw & Hg & Hbc & Hba).
  { lia. }
  simpl. destruct Ht as [c Ht]. rewrite Ht. destruct c.
  - (* unvisited *)
    set (st1 := <[t := Visiting]> st).
    destruct (dfs_children_spec fuel (dfs down fuel) t IH (down t) st1)
      as (b & st2 & -> & Hpost).
    { done. }
    { apply lookup_insert_eq. }
    { intros n d [x Hn] He. unfold st1 in *.
      destruct (decide (d = t)) as [->|Hne].
      - rewrite lookup_insert_eq. by eexists.
      - rewrite lookup_insert_ne by done. eapply Hk; [|done].
        destruct (decide (n = t)) as [->|Hne'].
        + by eexists.
        + rewrite lookup_insert_ne in Hn by done. by eexists. }
    { pose proof (whites_insert_white st t Visiting Ht ltac:(done)).
      unfold st1. lia. }
    { intros g. unfold st1. destruct (decide (g = t)) as [->|Hne].
      - intros _. apply rtc_refl.
      - rewrite lookup_insert_ne by done. intros Hgray. by apply tc_rtc, Hg. }
    { intros b d. unfold st1. destruct (decide (b = t)) as [->|Hne].
      - by rewrite lookup_insert_eq.
      - rewrite lookup_insert_ne by done. intros Hb He.
        pose proof (Hbc b d Hb He) as Hd.
        rewrite lookup_insert_ne; [done|]. intros ->. congruence. }
    { intros b. unfold st1. destruct (decide (b = t)) as [->|Hne].
      - by rewrite lookup_insert_eq.
      - rewrite lookup_insert_ne by done. apply Hba. }
    assert (forall n, is_Some (st !! n) <-> is_Some (st1 !! n)) as Hkeys1.
    { intros n. unfold st1. destruct (decide (n = t)) as [->|Hne].
      - rewrite lookup_insert_eq, Ht. split; by eexists.
      - by rewrite lookup_insert_ne. }
    destruct b.
    { exists true, st2. split; [done|]. destruct Hpost as (n & Hn & Hc).
      exists n. split; [|done]. by apply Hkeys1. }
    destruct Hpost as (Hext & Hall & Hbc2 & Hba2).
    assert (st2 !! t = Some Visiting) as Ht2.
    { apply Hext. apply lookup_insert_eq. }
    exists false, (<[t := Visited]> st2). split; [done|].
    split; [|split; [apply lookup_insert_eq|split]].
    + split.
      * intros n. rewrite Hkeys1, (ext_keys _ _ Hext).
        destruct (decide (n = t)) as [->|Hne].
        -- rewrite lookup_insert_eq, Ht2. split; by eexists.
        -- by rewrite lookup_insert_ne.
      * intros n. destruct (decide (n = t)) as [->|Hne].
        -- rewrite lookup_insert_eq, Ht. split; congruence.
        -- rewrite lookup_insert_ne by done. rewrite <- (ext_gray _ _ Hext).
           unfold st1. by rewrite lookup_insert_ne.
      * intros n Hn. destruct (decide (n = t)) as [->|Hne].
        -- congruence.
        -- rewrite lookup_insert_ne by done. apply Hext.
           unfold st1. by rewrite lookup_insert_ne.
      * rewrite (whites_insert_other st2 t Visiting Visited) by done.
        pose proof (ext_whites _ _ Hext).
        pose proof (whites_insert_white st t Visiting Ht ltac:(done)).
        fold st1 in H0. lia.
    + intros b d Hb He. destruct (decide (d = t)) as [->|Hnd].
      { apply lookup_insert_eq. }
      rewrite lookup_insert_ne by done.
      destruct (decide (b = t)) as [->|Hnb].
      * by apply Hall.
      * rewrite lookup_insert_ne in Hb by done. by eapply Hbc2.
    + intros b Hb Hcyc. destruct (decide (b = t)) as [->|Hnb].
      * apply tc_rtc in Hcyc as Hr. inversion Hcyc as [x y He|x y z He Htc]; subst.
        -- pose proof (Hall _ He). congruence.
        -- pose proof (Hall _ He) as Hy.
           pose proof (black_closed_reach st2 y t Hbc2 Hy (tc_rtc _ _ Htc)).
           congruence.
      * rewrite lookup_insert_ne in Hb by done. by eapply Hba2.
  - (* visiting: a cycle *)
    exists true, st. split; [done|]. exists t. split; [by eexists|]. by apply Hg.
  - (* visited *)
    exists false, st. split; [done|]. split; [apply extends_refl|]. done.
Qed.

(** A cycle among the nodes [tasks]. *)
Definition cyclic (tasks : list nat) : Prop :=
  exists n, n ∈ tasks /\ tc edge n n.

(** Every edge leads to a node of [tasks]. *)
Definition closed (tasks : list nat) : Prop :=
  forall n d, n ∈ tasks -> edge n d -> d ∈ tasks.

Lemma initial_colors_lookup (tasks : list nat) (n : nat) :
  initial_colors tasks !! n = if decide (n ∈ tasks) then Some Unvisited else None.
Proof.
  unfold initial_colors. case_decide as Hin.
  - induction tasks as [|t ts IH]; [by apply elem_of_nil in Hin|].
    simpl. destruct (decide (n = t)) as [->|Hne].
    + apply lookup_insert_eq.
    + rewrite lookup_insert_ne by done. apply IH.
      apply elem_of_cons in Hin as [?|?]; done.
  - apply not_elem_of_list_to_map_1. rewrite <- list_fmap_compose.
    intros Hn. apply Hin. apply list_elem_of_fmap in Hn as (x & -> & Hx). done.
Qed.

Lemma whites_le_size (st : gmap nat color) : (whites st <= size st)%nat.
Proof. apply map_size_filter. Qed.

Lemma initial_colors_size (tasks : list nat) :
  (size (initial_colors tasks) <= length tasks)%nat.
Proof.
  unfold initial_colors. induction tasks as [|t ts IH]; simpl.
  - by rewrite map_size_empty.
  - rewrite map_size_insert. unfold initial_colors in IH.
    destruct (list_to_map _ !! t); unfold id; simpl;
      [apply Nat.le_le_succ_r | apply le_n_S]; apply IH.
Qed.

Lemma has_cycle_loop_spec (fuel : nat) :
  forall (todo : list nat) st,
    (forall t, t ∈ todo -> is_Some (st !! t)) ->
    keys_closed st -> (whites st < fuel)%nat ->
    (forall g, st !! g ≠ Some Visiting) ->
    black_closed st -> black_acyclic st ->
    exists b, has_cycle_loop down fuel todo st = Some (Ok b) /\
      if b then exists n, is_Some (st !! n) /\ tc edge n n
      else exists st', extends st st' /\
             (forall t, t ∈ todo -> st' !! t = Some Visited) /\
             black_acyclic st'.
Proof.
  intros todo.
  induction todo as [|t ts IH]; intros st Hin Hk Hw Hg Hbc Hba.
  - exists false. split; [done|]. exists st. split; [apply extends_refl|].
    split; [|done]. intros t Ht. by apply elem_of_nil in Ht.
  - simpl. destruct (Hin t) as [c Ht]; [left|]. rewrite Ht.
    assert (forall st', extends st st' -> black_closed st' ->
              black_acyclic st' -> st' !! t = Some Visited ->
              exists b, has_cycle_loop down fuel ts st' = Some (Ok b) /\
                if b then exists n, is_Some (st !! n) /\ tc edge n n
                else exists st'', extends st st'' /\
                  (forall u, u ∈ t :: ts -> st'' !! u = Some Visited) /\
                  black_acyclic st'') as Hrest.
    { intros st' Hext Hbc' Hba' Ht'.
      destruct (IH st') as (b & -> & Hpost).
      { intros u Hu. apply Hext, Hin. by right. }
      { by eapply keys_closed_extends. }
      { pose proof (ext_whites _ _ Hext). lia. }
      { intros g Hgray. apply (Hg g). by apply Hext. }
      { done. }
      { done. }
      exists b. split; [done|]. destruct b.
      - destruct Hpost as (n & Hn & Hc). exists n. split; [|done]. by apply Hext.
      - destruct Hpost as (st'' & Hext' & Hall & Hba'').
        exists st''. split; [by eapply extends_trans|]. split; [|done].
        intros u [->|Hu]%elem_of_cons; [|by apply Hall]. by apply Hext'. }
    destruct c.
    + destruct (dfs_spec fuel st t) as (b & st1 & -> & Hpost).
      { split; [done|]. split; [by eexists|]. split; [done|].
        split; [|done]. intros g Hgray. by apply Hg in Hgray. }
      destruct b.
      * exists true. done.
      * destruct Hpost as (Hext & Ht1 & Hbc1 & Hba1). by apply Hrest.
    + by apply Hg in Ht.
    + apply Hrest; [apply extends_refl|done..].
Qed.

(** On a closed graph [_has_cycle] returns, and it returns [True] exactly
    when there is a cycle among the nodes. *)
Lemma has_cycle_correct (tasks : list nat) :
  closed tasks ->
  exists b, has_cycle down tasks = Some (Ok b) /\ (b = true <-> cyclic tasks).
Proof.
  intros Hclosed. unfold has_cycle.
  assert (forall n, is_Some (initial_colors tasks !! n) <-> n ∈ tasks) as Hdom.
  { intros n. rewrite initial_colors_lookup. case_decide; split; try done;
      try (by eexists); by intros [? ?]. }
  destruct (has_cycle_loop_spec (S (length tasks)) tasks
              (initial_colors tasks)) as (b & Heq & Hpost).
  - intros t Ht. by apply Hdom.
  - intros n d Hn He. apply Hdom. eapply Hclosed; [|done]. by apply Hdom.
  - pose proof (whites_le_size (initial_colors tasks)).
    pose proof (initial_colors_size tasks). lia.
  - intros g. rewrite initial_colors_lookup. by case_decide.
  - intros b d. rewrite initial_colors_lookup. by case_decide.
  - intros b. rewrite initial_colors_lookup. by case_decide.
  - exists b. split; [done|]. destruct b.
    + split; [|done]. intros _. destruct Hpost as (n & Hn & Hc).
      exists n. split; [by apply Hdom | done].
    + split; [done|]. intros (n & Hn & Hc).
      destruct Hpost as (st' & _ & Hall & Hba).
      exfalso. by apply (Hba n (Hall n Hn)).
Qed.

End CycleFacts.

(** ** The acyclicity gate *)

(** C2. [DAG.run], [Flow.run] and [FunctionalFlow.run] are [engine_run] of
    their engines. On a graph whose edges stay within the node set: if there
    is a cycle among the nodes (a self-loop, a longer cycle, in whatever
    component), [run] raises [DAGCycleError] having submitted nothing and
    with the world as it was, so no body has run, whatever the schedule; and
    if there is none, [_has_cycle] returns [False] and the run goes on to
    the scheduler. *)
Theorem acyclicity_gate {P} (E : Engine P) (sch : list action) (w : World) :
  closed (e_down E) (e_nodes E) ->
  (cyclic (e_down E) (e_nodes E) ->
     engine_run E sch w = Some (finished (Raised DAGCycleError) w) /\
     forall s, engine_run E sch w = Some s ->
       st_status s = Raised DAGCycleError /\
       world s = w /\ submitted s = [] /\ started s = []) /\
  (~ cyclic (e_down E) (e_nodes E) ->
     has_cycle (e_down E) (e_nodes E) = Some (Ok false) /\
     (e_nodes E ≠ [] -> engine_run E sch w = Some (exec E sch (start E w)))).
Proof.
  intros Hclosed.
  destruct (has_cycle_correct (e_down E) (e_nodes E) Hclosed)
    as (b & Hhc & Hiff).
  split.
  - intros Hcyc. assert (b = true) as -> by by apply Hiff.
    assert (engine_run E sch w = Some (finished (Raised DAGCycleError) w))
      as Hrun.
    { unfold engine_run. rewrite Hhc. destruct Hcyc as (n & Hn & _).
      destruct (e_nodes E); [by apply elem_of_nil in Hn | done]. }
    split; [done|]. intros s. rewrite Hrun. by intros [= <-].
  - intros Hacyc. assert (b = false) as ->.
    { destruct b; [|done]. exfalso. by apply Hacyc, Hiff. }
    split; [done|]. intros Hne. unfold engine_run. rewrite Hhc.
    by destruct (e_nodes E).
Qed.

(** A task that depends on itself, as in the test of the self cycle: the
    task is in its own [downstream] and [upstream]. *)
Definition self_cycle_registry : Registry :=
  rshift 0 0
    (mkRegistry [0]%nat
       (fun _ => mkTask "task1" [] (fun _ _ _ => Ok (VInt 1)) 0 1 2 None)
       (fun _ => []) (fun _ => [])).

Lemma acyclicity_gate_witness :
  DAG_run self_cycle_registry [Work 0; Collect 0] quiet_world
  = Some (finished (Raised DAGCycleError) quiet_world).
Proof.
  apply (acyclicity_gate (DAG_engine self_cycle_registry)
           [Work 0; Collect 0] quiet_world).
  - intros n d Hn Hd. simpl in *.
    apply list_elem_of_singleton in Hn as ->.
    unfold edge in Hd. simpl in Hd. unfold append_to in Hd.
    rewrite fn_lookup_insert in Hd. simpl in Hd. done.
  - exists 0%nat. split; [by left|]. apply tc_once.
    unfold edge. simpl. unfold append_to. rewrite fn_lookup_insert. by left.
Defined.

(** ** Invariants of the scheduler *)

(** Number of occurrences of [x] in [l]: edge lists may repeat a node. *)
Definition occ (x : nat) (l : list nat) : nat := length (filter (eq x) l).

Lemma occ_nil x : occ x [] = 0%nat.
Proof. reflexivity. Qed.

Lemma occ_cons x y l :
  occ x (y :: l) = ((if decide (x = y) then 1 else 0) + occ x l)%nat.
Proof. unfold occ. rewrite filter_cons. by case_decide. Qed.

Lemma occ_app x l1 l2 : occ x (l1 ++ l2) = (occ x l1 + occ x l2)%nat.
Proof. unfold occ. by rewrite filter_app, length_app. Qed.

Lemma occ_pos x l : (0 < occ x l)%nat <-> x ∈ l.
Proof.
  induction l as [|y l IH].
  - rewrite occ_nil. split; [lia|]. intros H. by apply elem_of_nil in H.
  - rewrite occ_cons, elem_of_cons. case_decide.
    + split; [by left | lia].
    + rewrite <- IH. split; [intros; right; lia | intros [?|?]; [done|lia]].
Qed.

Lemma occ_zero x l : occ x l = 0%nat <-> x ∉ l.
Proof. rewrite <- occ_pos. lia. Qed.

Section SchedulerFacts.
Context {P : Type}.
Variable E : Engine P.
Variable up : nat -> list nat.

(** Upstream edges of [n] that come from a node not yet resolved. *)
Definition pending (res : list nat) (n : nat) : nat :=
  length (filter (fun u => u ∉ res) (up n)).

(** What the builders guarantee of the graph an engine runs on: [up] is the
    reverse adjacency ([t.upstream], [self.reverse_graph[t]]). *)
Record engine_wf : Prop := mkWf {
  wf_nodup : NoDup (e_nodes E);
  wf_down : forall n d, n ∈ e_nodes E -> d ∈ e_down E n -> d ∈ e_nodes E;
  wf_up : forall n u, n ∈ e_nodes E -> u ∈ up n -> u ∈ e_nodes E;
  wf_edges : forall a b, occ b (e_down E a) = occ a (up b);
  wf_indegree : forall n, n ∈ e_nodes E ->
    e_indegree E !! n = Some (Z.of_nat (length (up n)));
  wf_first : forall n, n ∈ e_nodes E -> up n = [] ->
    exists p, e_first_payload E n = Ok p
}.

Lemma pending_nil n : pending [] n = length (up n).
Proof.
  unfold pending. induction (up n) as [|u l IH]; [done|].
  rewrite filter_cons_True by (intros H; by apply elem_of_nil in H).
  cbn [length]. f_equal. exact IH.
Qed.

Lemma pending_resolve (res : list nat) (m n : nat) :
  m ∉ res ->
  (pending (res ++ [m]) n + occ m (up n))%nat = pending res n.
Proof.
  intros Hm. unfold pending. induction (up n) as [|u l IH]; [done|].
  rewrite occ_cons, !filter_cons.
  destruct (decide (m = u)) as [<-|Hne].
  - rewrite decide_False.
    2:{ intros H. apply H, elem_of_app. right. left. }
    rewrite decide_True by done. simpl. lia.
  - destruct (decide (u ∈ res)) as [Hin|Hnin].
    + rewrite decide_False.
      2:{ intros H. apply H, elem_of_app. by left. }
      rewrite decide_False by (intros H; by apply H). lia.
    + rewrite decide_True.
      2:{ intros [H|H]%elem_of_app; [done|].
          apply list_elem_of_singleton in H. congruence. }
      rewrite decide_True by done. simpl. lia.
Qed.

Lemma pending_zero (res : list nat) (n : nat) :
  pending res n = 0%nat <-> forall u, u ∈ up n -> u ∈ res.
Proof.
  unfold pending. rewrite length_zero_iff_nil. split.
  - intros Hnil u Hu. destruct (decide (u ∈ res)) as [|Hn]; [done|].
    assert (u ∈ filter (fun u => u ∉ res) (up n)) as Hf
      by by apply list_elem_of_filter.
    rewrite Hnil in Hf. by apply elem_of_nil in Hf.
  - intros Hall. induction (up n) as [|u l IH]; [done|].
    rewrite filter_cons_False.
    + apply IH. intros v Hv. apply Hall. by right.
    + intros Hn. apply Hn, Hall. by left.
Qed.

(** *** Elementary facts on the state updates *)

Lemma submitted_submit n p (s : state P) :
  submitted (submit n p s) = submitted s ++ [n].
Proof. unfold submitted. simpl. by rewrite fmap_app. Qed.

Lemma lookup_pool_submit n p (s : state P) k f :
  pool (submit n p s) !! k = Some f <->
  pool s !! k = Some f \/ (k = length (pool s) /\ f = mkFuture n p None).
Proof.
  simpl. rewrite lookup_app_Some. rewrite list_lookup_singleton_Some.
  split; [intros [?|(? & ? & ?)]|intros [?|[? ?]]]; eauto.
  - right. split; [lia|done].
  - right. subst. split; [lia|]. split; [lia|done].
Qed.

Lemma elem_of_remove_id k j l : j ∈ remove_id k l <-> j ∈ l /\ j ≠ k.
Proof. unfold remove_id. rewrite list_elem_of_filter. tauto. Qed.

Lemma elem_of_submitted (s : state P) n :
  n ∈ submitted s <-> exists k f, pool s !! k = Some f /\ fut_node f = n.
Proof.
  unfold submitted. rewrite list_elem_of_fmap. split.
  - intros (f & -> & Hf). apply list_elem_of_lookup in Hf as [k Hk]. eauto.
  - intros (k & f & Hk & <-). exists f. split; [done|].
    by eapply list_elem_of_lookup_2.
Qed.

Lemma submitted_insert_result (s : state P) k n p r r' :
  pool s !! k = Some (mkFuture n p r) ->
  fut_node <$> <[k := mkFuture n p r']> (pool s) = submitted s.
Proof.
  intros Hk. unfold submitted. rewrite list_fmap_insert. simpl.
  apply list_insert_id. by rewrite list_lookup_fmap, Hk.
Qed.

Lemma started_subseteq (s : state P) n : n ∈ started s -> n ∈ submitted s.
Proof.
  unfold started, submitted. rewrite !list_elem_of_fmap.
  intros (f & -> & Hf). exists f. split; [done|].
  by apply list_elem_of_filter in Hf as [_ ?].
Qed.

(** *** The invariant *)

(** The part of the invariant that the loop over the downstream nodes keeps,
    with [ds] the downstream nodes still to be visited: the in-degree of a
    node counts its upstream edges from unresolved nodes, where the edges
    from the node being collected are those still in [ds]. *)
Record core (ds : list nat) (s : state P) : Prop := mkCore {
  core_nodup : NoDup (submitted s);
  core_nodes : forall n, n ∈ submitted s -> n ∈ e_nodes E;
  core_ds : forall d, d ∈ ds -> d ∈ e_nodes E;
  core_indegree : forall n, n ∈ e_nodes E ->
    indegree s !! n = Some (Z.of_nat (pending (resolved s) n + occ n ds));
  core_ready : forall n, n ∈ e_nodes E ->
    (n ∈ submitted s <-> (pending (resolved s) n + occ n ds = 0)%nat);
  core_resolved_nodup : NoDup (resolved s);
  core_resolved : forall n, n ∈ resolved s ->
    exists k p v, pool s !! k = Some (mkFuture n p (Some (Ok v))) /\
                  (k ∉ futures s);
  core_futures : forall k, k ∈ futures s ->
    exists f, pool s !! k = Some f /\ (fut_node f ∉ resolved s);
  core_pool : forall k f, pool s !! k = Some f -> fut_node f ∉ resolved s ->
    k ∈ futures s \/
    exists e, st_status s = Raised e /\ fut_result f = Some (Raise e);
  core_batch : forall k, k ∈ batch s -> k ∈ futures s;
  core_raised : forall e, st_status s = Raised e ->
    exists k f, pool s !! k = Some f /\ fut_result f = Some (Raise e) /\
                (fut_node f ∉ resolved s) /\ (k ∉ futures s)
}.

Record inv (s : state P) : Prop := mkInv {
  inv_core : core [] s;
  inv_running : st_status s = Running -> batch s ≠ [];
  inv_returned : st_status s = Returned -> futures s = []
}.

Lemma core_resolved_submitted ds s n :
  core ds s -> n ∈ resolved s -> n ∈ submitted s.
Proof.
  intros Hc Hn. destruct (core_resolved _ _ Hc n Hn) as (k & p & v & Hk & _).
  apply elem_of_submitted. by exists k, (mkFuture n p (Some (Ok v))).
Qed.

Lemma core_futures_lt ds s k : core ds s -> k ∈ futures s -> (k < length (pool s))%nat.
Proof.
  intros Hc Hk. destruct (core_futures _ _ Hc k Hk) as (f & Hf & _).
  by eapply lookup_lt_Some.
Qed.

Lemma inv_indegree s n :
  inv s -> n ∈ e_nodes E ->
  indegree s !! n = Some (Z.of_nat (pending (resolved s) n)).
Proof.
  intros [Hc _ _] Hn. rewrite (core_indegree _ _ Hc n Hn), occ_nil.
  by rewrite Nat.add_0_r.
Qed.

Lemma inv_ready s n :
  inv s -> n ∈ e_nodes E ->
  (n ∈ submitted s <-> forall u, u ∈ up n -> u ∈ resolved s).
Proof.
  intros [Hc _ _] Hn. rewrite (core_ready _ _ Hc n Hn), occ_nil, Nat.add_0_r.
  apply pending_zero.
Qed.

(** *** The loop over the downstream nodes *)

Lemma unlock_frame (ds : list nat) (s : state P) :
  resolved (unlock E ds s) = resolved s /\
  results (unlock E ds s) = results s /\
  world (unlock E ds s) = world s /\
  batch (unlock E ds s) = batch s.
Proof.
  revert s. induction ds as [|d ds IH]; intros s; [done|].
  simpl. destruct (indegree s !! d) as [deg|]; [|done].
  destruct (deg - 1 =? 0); by rewrite !(proj1 (IH _)), !(proj1 (proj2 (IH _))),
    !(proj1 (proj2 (proj2 (IH _)))), !(proj2 (proj2 (proj2 (IH _)))).
Qed.

Ltac norm_state :=
  repeat first
    [ rewrite submitted_submit
    | progress change (submitted (set_indegree ?a ?b ?s)) with (submitted s)
    | progress cbn [resolved futures batch st_status indegree results world
                    submit set_indegree set_status] ].

Lemma unlock_core (ds : list nat) (s : state P) :
  st_status s = Running -> core ds s ->
  st_status (unlock E ds s) = Running /\ core [] (unlock E ds s) /\
  (forall k, k ∈ futures s -> k ∈ futures (unlock E ds s)) /\
  (forall k f, pool s !! k = Some f -> pool (unlock E ds s) !! k = Some f).
Proof.
  revert s. induction ds as [|d ds IH]; intros s Hrun Hc; [done|].
  simpl.
  assert (d ∈ e_nodes E) as Hd by (apply (core_ds _ _ Hc); left).
  rewrite (core_indegree _ _ Hc d Hd), occ_cons, decide_True by done.
  set (deg' := (pending (resolved s) d + occ d ds)%nat).
  replace (Z.of_nat (pending (resolved s) d + (1 + occ d ds)) - 1)
    with (Z.of_nat deg') by (unfold deg'; lia).
  assert (forall n, n ∈ e_nodes E ->
            <[d := Z.of_nat deg']> (indegree s) !! n
            = Some (Z.of_nat (pending (resolved s) n + occ n ds))) as Hdeg.
  { intros n Hn. destruct (decide (n = d)) as [->|Hne].
    - by rewrite lookup_insert_eq.
    - rewrite lookup_insert_ne by done. rewrite (core_indegree _ _ Hc n Hn).
      rewrite occ_cons, decide_False by done. done. }
  assert (d ∉ submitted s) as Hdsub.
  { rewrite (core_ready _ _ Hc d Hd), occ_cons, decide_True by done. lia. }
  destruct (Z.eqb_spec (Z.of_nat deg') 0) as [Hz|Hnz].
  - (* the node becomes ready *)
    match goal with |- context [unlock E ds ?s2] =>
      destruct (IH s2) as (Hrun' & Hc' & Hfut & Hpool); [done| |] end.
    { split; norm_state.
      - apply NoDup_app. split; [apply Hc|].
        split; [|apply NoDup_singleton].
        intros x Hx Hx'%list_elem_of_singleton. by subst.
      - intros n [?|Hx%list_elem_of_singleton]%elem_of_app;
          [by apply Hc | by subst].
      - intros x Hx. apply (core_ds _ _ Hc). by right.
      - done.
      - intros n Hn. rewrite elem_of_app, list_elem_of_singleton.
        rewrite (core_ready _ _ Hc n Hn), occ_cons.
        destruct (decide (n = d)) as [->|Hne].
        + fold deg'. split; [lia|]. intros _. by right.
        + split; [intros [?|?]; [lia|done] | intros ?; left; lia].
      - apply Hc.
      - intros n Hn. destruct (core_resolved _ _ Hc n Hn) as (k & p & v & Hk & Hkf).
        exists k, p, v. split.
        + apply lookup_pool_submit. by left.
        + intros [?|Heq%list_elem_of_singleton]%elem_of_app; [done|].
          apply lookup_lt_Some in Hk. cbn [pool set_indegree] in Heq. lia.
      - intros k [Hk|Hx%list_elem_of_singleton]%elem_of_app; [|subst k].
        + destruct (core_futures _ _ Hc k Hk) as (f & Hf & Hnr).
          exists f. split; [|done]. apply lookup_pool_submit. by left.
        + eexists. split; [apply lookup_pool_submit; by right|]. simpl.
          intros Hr. apply Hdsub. by eapply core_resolved_submitted.
      - intros k f [Hk|[-> ->]]%lookup_pool_submit Hnr.
        + destruct (core_pool _ _ Hc k f Hk Hnr) as [?|(e & He & _)].
          * left. apply elem_of_app. by left.
          * congruence.
        + left. apply elem_of_app. right. by left.
      - intros k Hk. apply elem_of_app. left. by apply Hc.
      - intros e He. congruence. }
    split; [done|]. split; [done|]. split.
    + intros k Hk. apply Hfut. simpl. apply elem_of_app. by left.
    + intros k f Hk. apply Hpool, lookup_pool_submit. by left.
  - (* not yet *)
    match goal with |- context [unlock E ds ?s1] =>
      destruct (IH s1) as (Hrun' & Hc' & Hfut & Hpool); [done| |done] end.
    split; norm_state; try apply Hc.
    + intros x Hx. apply (core_ds _ _ Hc). by right.
    + done.
    + intros n Hn. rewrite (core_ready _ _ Hc n Hn), occ_cons.
      destruct (decide (n = d)) as [->|Hne]; [|done].
      fold deg'. lia.
Qed.

(** *** Each step keeps the invariant *)

Lemma core_change_batch ds (s : state P) (b : list nat) (st : status) :
  core ds s -> st_status s = Running ->
  (forall k, k ∈ b -> k ∈ futures s) -> (forall e, st ≠ Raised e) ->
  core ds (mkState (indegree s) (results s) (pool s) (futures s) b (world s)
                   st (resolved s)).
Proof.
  intros Hc Hrun Hb Hst. split; try apply Hc.
  - intros k f Hk Hn. left.
    destruct (core_pool _ _ Hc k f Hk Hn) as [?|(e & He & _)]; [done|].
    congruence.
  - done.
  - intros e He. simpl in He. by apply Hst in He.
Qed.

Lemma next_round_inv (s : state P) :
  st_status s = Running -> core [] s -> inv (next_round s).
Proof.
  intros Hrun Hc. unfold next_round. rewrite Hrun.
  destruct (batch s) as [|b bs] eqn:Hb.
  - destruct (futures s) as [|k ks] eqn:Hf.
    + split; [|done|done]. unfold set_status. rewrite Hb.
      apply core_change_batch; try done. intros k Hk. by apply elem_of_nil in Hk.
    + split; [|done|done]. rewrite <- Hf. by apply core_change_batch.
  - split; [done| |congruence]. intros _. by rewrite Hb.
Qed.

Lemma pool_node_inj (s : state P) k k' f f' :
  NoDup (submitted s) -> pool s !! k = Some f -> pool s !! k' = Some f' ->
  fut_node f = fut_node f' -> k = k'.
Proof.
  intros Hnd Hk Hk' Heq. eapply NoDup_lookup; [exact Hnd| |].
  - unfold submitted. rewrite list_lookup_fmap, Hk. reflexivity.
  - unfold submitted. rewrite list_lookup_fmap, Hk'. simpl. by rewrite Heq.
Qed.

Lemma work_inv (k : nat) (s s' : state P) :
  inv s -> work E k s = Some s' -> inv s'.
Proof.
  intros [Hc Hr Hret] Hw. unfold work in Hw.
  destruct (pool s !! k) as [[n p [r|]]|] eqn:Hk; try done.
  destruct (e_execute E n p (results s) (world s)) as [[r w']|]; [|done].
  injection Hw as <-.
  assert (forall j f, <[k := mkFuture n p (Some r)]> (pool s) !! j = Some f ->
            exists f0, pool s !! j = Some f0 /\ fut_node f0 = fut_node f /\
                       (fut_result f0 = None \/ fut_result f0 = fut_result f))
    as Hlook.
  { intros j f. destruct (decide (j = k)) as [->|Hne].
    - rewrite list_lookup_insert_eq by by eapply lookup_lt_Some.
      intros [= <-]. eexists. split; [done|]. split; [done|]. by left.
    - rewrite list_lookup_insert_ne by done. intros Hj. exists f. eauto. }
  assert (fut_node <$> <[k := mkFuture n p (Some r)]> (pool s) = submitted s)
    as Hsub by by eapply submitted_insert_result.
  split; [|done|done]. destruct Hc. split; try done.
  - unfold submitted. simpl. by rewrite Hsub.
  - unfold submitted. simpl. by rewrite Hsub.
  - intros m Hm. unfold submitted. simpl. rewrite Hsub. by apply core_ready0.
  - intros m Hm. simpl.
    destruct (core_resolved0 m Hm) as (j & p0 & v & Hj & Hjf).
    exists j, p0, v. split; [|done].
    rewrite list_lookup_insert_ne; [done|]. intros ->. congruence.
  - intros j Hj. simpl. destruct (core_futures0 j Hj) as (f & Hf & Hn).
    destruct (decide (j = k)) as [->|Hne].
    + eexists. split; [apply list_lookup_insert_eq; by eapply lookup_lt_Some|].
      simpl. rewrite Hk in Hf. by injection Hf as <-.
    + exists f. by rewrite list_lookup_insert_ne.
  - intros j f Hj Hn. simpl in *.
    destruct (Hlook j f Hj) as (f0 & Hf0 & Hnode & Hres).
    rewrite <- Hnode in Hn.
    destruct (core_pool0 j f0 Hf0 Hn) as [?|(e & He & Hfe)]; [by left|].
    right. exists e. split; [done|]. destruct Hres as [?|<-]; [congruence|done].
  - intros e He. simpl in *.
    destruct (core_raised0 e He) as (j & f & Hj & Hres & Hn & Hjf).
    exists j, f. split; [|done].
    rewrite list_lookup_insert_ne; [done|]. intros ->.
    rewrite Hk in Hj. by injection Hj as <-.
Qed.

Lemma collect_inv (engine_ok : engine_wf) (k : nat) (s s' : state P) :
  inv s -> collect E k s = Some s' -> inv s'.
Proof.
  intros [Hc Hr Hret] Hcol. unfold collect in Hcol.
  destruct (st_status s) eqn:Hst; try done.
  case_bool_decide as Hkb; [|done].
  destruct (pool s !! k) as [[n p [r|]]|] eqn:Hk; try done.
  assert (k ∈ futures s) as Hkf by by apply (core_batch _ _ Hc).
  assert (n ∉ resolved s) as Hnres.
  { destruct (core_futures _ _ Hc k Hkf) as (f & Hf & Hn).
    rewrite Hk in Hf. by injection Hf as <-. }
  assert (n ∈ e_nodes E) as Hnode.
  { apply (core_nodes _ _ Hc), elem_of_submitted. by eexists k, _. }
  destruct r as [v|e]; injection Hcol as <-.
  - (* a result *)
    match goal with |- context [unlock E _ ?s1] =>
      destruct (unlock_core (e_down E n) s1) as (Hrun & Hc1 & _ & _) end.
    { done. }
    { split; norm_state; try apply Hc.
      - intros d Hd. by eapply wf_down.
      - intros m Hm. rewrite (core_indegree _ _ Hc m Hm), occ_nil.
        rewrite (wf_edges engine_ok), <- (pending_resolve (resolved s) n m Hnres).
        do 2 f_equal. lia.
      - intros m Hm. rewrite (core_ready _ _ Hc m Hm), occ_nil.
        rewrite (wf_edges engine_ok), <- (pending_resolve (resolved s) n m Hnres).
        lia.
      - apply NoDup_app. split; [apply Hc|]. split; [|apply NoDup_singleton].
        intros x Hx Hx'%list_elem_of_singleton. by subst.
      - intros m [Hm|Hm%list_elem_of_singleton]%elem_of_app.
        + destruct (core_resolved _ _ Hc m Hm) as (j & p0 & v0 & Hj & Hjf).
          exists j, p0, v0. split; [done|]. rewrite elem_of_remove_id. tauto.
        + subst m. exists k, p, v. split; [done|].
          rewrite elem_of_remove_id. tauto.
      - intros j [Hj Hne]%elem_of_remove_id.
        destruct (core_futures _ _ Hc j Hj) as (f & Hf & Hn).
        exists f. split; [done|].
        intros [?|Hx%list_elem_of_singleton]%elem_of_app; [done|].
        apply Hne. eapply pool_node_inj; [apply Hc|done..].
      - intros j f Hj Hn. cbn [pool] in Hj. left. apply elem_of_remove_id.
        assert (fut_node f ∉ resolved s) as Hn'.
        { intros ?. apply Hn, elem_of_app. by left. }
        split.
        + destruct (core_pool _ _ Hc j f Hj Hn') as [?|(e & He & _)]; [done|].
          congruence.
        + intros ->. rewrite Hk in Hj. injection Hj as <-.
          apply Hn, elem_of_app. right. by left.
      - intros j [Hj Hne]%elem_of_remove_id. apply elem_of_remove_id.
        split; [by apply Hc|done].
      - intros e He. congruence. }
    by apply next_round_inv.
  - (* the future raised *)
    split; [|done|done]. split; norm_state; try apply Hc.
    + intros m Hm. destruct (core_resolved _ _ Hc m Hm) as (j & p0 & v0 & Hj & Hjf).
      exists j, p0, v0. split; [done|]. rewrite elem_of_remove_id. tauto.
    + intros j [Hj Hne]%elem_of_remove_id. by apply Hc.
    + intros j f Hj Hn. cbn [pool] in Hj.
      destruct (decide (j = k)) as [->|Hne].
      * right. exists e. split; [done|]. rewrite Hk in Hj. by injection Hj as <-.
      * left. apply elem_of_remove_id. split; [|done].
        destruct (core_pool _ _ Hc j f Hj Hn) as [?|(e' & He & _)]; [done|].
        congruence.
    + intros j [Hj Hne]%elem_of_remove_id. apply elem_of_remove_id.
      split; [by apply Hc|done].
    + intros e' [= <-]. exists k, (mkFuture n p (Some (Raise e))).
      split; [done|]. split; [done|]. split; [done|].
      rewrite elem_of_remove_id. tauto.
Qed.

Lemma step_inv (engine_ok : engine_wf) (a : action) (s s' : state P) :
  inv s -> step E a s = Some s' -> inv s'.
Proof.
  destruct a; simpl; [apply work_inv | by apply collect_inv].
Qed.

Lemma exec_inv (engine_ok : engine_wf) (sch : list action) (s : state P) :
  inv s -> inv (exec E sch s).
Proof.
  revert s. induction sch as [|a sch IH]; intros s Hinv; [done|].
  simpl. destruct (step E a s) as [s'|] eqn:Hs; [|by apply IH].
  apply IH. by eapply step_inv.
Qed.

(** *** The initial submissions *)

Lemma elem_of_ready (engine_ok : engine_wf) (n : nat) :
  n ∈ ready E <-> n ∈ e_nodes E /\ up n = [].
Proof.
  unfold ready. rewrite list_elem_of_filter. split.
  - intros [Hdeg Hn]. split; [done|].
    rewrite (wf_indegree engine_ok n Hn) in Hdeg.
    injection Hdeg as Hdeg. apply length_zero_iff_nil. lia.
  - intros [Hn Hup]. split; [|done].
    rewrite (wf_indegree engine_ok n Hn), Hup. done.
Qed.

Lemma submit_ready_spec (ts : list nat) (s : state P) :
  (forall t, t ∈ ts -> exists p, e_first_payload E t = Ok p) ->
  let s' := submit_ready E ts s in
  st_status s' = st_status s /\ submitted s' = submitted s ++ ts /\
  indegree s' = indegree s /\ resolved s' = resolved s /\
  batch s' = batch s /\ results s' = results s /\ world s' = world s /\
  (length (pool s) <= length (pool s'))%nat /\
  (forall k, k ∈ futures s' <->
     k ∈ futures s \/ (length (pool s) <= k < length (pool s'))%nat) /\
  (forall k f, pool s !! k = Some f -> pool s' !! k = Some f).
Proof.
  revert s. induction ts as [|t ts IH]; intros s Hts; simpl.
  { rewrite app_nil_r. repeat split; try done; [by left | intros [?|?]; [done|lia]]. }
  destruct (Hts t) as [p Hp]; [left|]. rewrite Hp.
  destruct (IH (submit t p s)) as (H1 & H2 & H3 & H4 & H5 & H6 & H7 & H8 & H9 & H10).
  { intros t' Ht'. apply Hts. by right. }
  rewrite H1, H2, H3, H4, H5, H6, H7. rewrite submitted_submit, <- app_assoc.
  simpl in H8. rewrite length_app in H8. simpl in H8.
  repeat split; try done.
  - lia.
  - rewrite H9. simpl. rewrite elem_of_app, list_elem_of_singleton, length_app.
    simpl. intros [[?|?]|?]; [by left|right; lia|right; lia].
  - rewrite H9. simpl. rewrite elem_of_app, list_elem_of_singleton, length_app.
    simpl. intros [?|?]; [by left; left|].
    destruct (decide (k = length (pool s))); [left; by right | right; lia].
  - intros k f Hk. apply H10, lookup_pool_submit. by left.
Qed.

Lemma start_inv (engine_ok : engine_wf) (w : World) : inv (start E w).
Proof.
  unfold start.
  destruct (submit_ready_spec (ready E) (initial_state E w))
    as (H1 & H2 & H3 & H4 & H5 & H6 & H7 & H8 & H9 & H10).
  { intros t [Ht Hup]%(elem_of_ready engine_ok). by apply (wf_first engine_ok). }
  apply next_round_inv; [by rewrite H1|].
  assert (forall n, n ∈ e_nodes E ->
            (n ∈ ready E <-> (pending [] n + occ n [] = 0)%nat)) as Hready.
  { intros n Hn. rewrite (elem_of_ready engine_ok), pending_nil, occ_nil.
    rewrite Nat.add_0_r, length_zero_iff_nil. tauto. }
  split.
  - rewrite H2. simpl. apply NoDup_filter, engine_ok.
  - intros n. rewrite H2. simpl. by intros [? ?]%(elem_of_ready engine_ok).
  - intros d Hd. by apply elem_of_nil in Hd.
  - intros n Hn. rewrite H3, H4. simpl.
    rewrite (wf_indegree engine_ok n Hn), pending_nil, occ_nil.
    by rewrite Nat.add_0_r.
  - intros n Hn. rewrite H2, H4. simpl. by apply Hready.
  - rewrite H4. apply NoDup_nil_2.
  - intros n. rewrite H4. intros Hn. by apply elem_of_nil in Hn.
  - intros k [Hk|Hk]%H9; [by apply elem_of_nil in Hk|].
    destruct (lookup_lt_is_Some_2 (pool (submit_ready E (ready E)
                (initial_state E w))) k) as [f Hf]; [lia|].
    exists f. split; [done|]. rewrite H4. intros Hn. by apply elem_of_nil in Hn.
  - intros k f Hk _. left. apply H9. right. apply lookup_lt_Some in Hk.
    simpl. lia.
  - intros k. rewrite H5. intros Hk. by apply elem_of_nil in Hk.
  - intros e. rewrite H1. done.
Qed.

(** Every state a run goes through satisfies the invariant. *)
Lemma run_inv (engine_ok : engine_wf) (sch : list action) (w : World) :
  inv (exec E sch (start E w)).
Proof. by apply exec_inv, start_inv. Qed.

(** *** Where the results of futures come from *)

Lemma next_round_pool (s : state P) : pool (next_round s) = pool s.
Proof.
  unfold next_round. destruct (st_status s); try done.
  destruct (batch s); [|done]. by destruct (futures s).
Qed.


Section FromExecute.

(** A property of the world that the work of a node keeps, such as what is
    assumed of the random source. *)
Variable good : World -> Prop.
Hypothesis good_execute : forall n p res w r w',
  good w -> e_execute E n p res w = Some (r, w') -> good w'.





End FromExecute.

(** *** Kahn's argument: without a cycle, nothing is left behind *)

Lemma up_down (engine_ok : engine_wf) (u n : nat) :
  u ∈ up n <-> n ∈ e_down E u.
Proof. by rewrite <- !occ_pos, (wf_edges engine_ok). Qed.

(** [u] is an upstream node of the node [n]. *)
Definition parent (n u : nat) : Prop := n ∈ e_nodes E /\ u ∈ up n.

Lemma tc_parent_edge (engine_ok : engine_wf) (n u : nat) :
  tc parent n u -> n ∈ e_nodes E /\ u ∈ e_nodes E /\ tc (edge (e_down E)) u n.
Proof.
  induction 1 as [n u [Hn Hu]|n u v [Hn Hu] _ (Hu' & Hv & Htc)].
  - split; [done|]. split; [by eapply wf_up|].
    apply tc_once. by apply up_down.
  - split; [done|]. split; [done|].
    eapply tc_r; [done|]. by apply up_down.
Qed.

Lemma parent_sn (engine_ok : engine_wf) (n : nat) :
  ~ cyclic (e_down E) (e_nodes E) -> sn parent n.
Proof.
  intros Hacyc. apply tc_finite_sn.
  - intros x Hx. apply Hacyc. exists x.
    by apply tc_parent_edge in Hx as (? & _ & ?).
  - exists (e_nodes E). intros y Hy.
    by apply tc_parent_edge in Hy as (_ & ? & _).
Qed.

Lemma all_resolved (engine_ok : engine_wf) (s : state P) :
  ~ cyclic (e_down E) (e_nodes E) ->
  inv s -> futures s = [] -> (forall e, st_status s ≠ Raised e) ->
  forall n, n ∈ e_nodes E -> n ∈ resolved s.
Proof.
  intros Hacyc Hinv Hfut Hst n.
  induction (parent_sn engine_ok n Hacyc) as [n _ IH]. intros Hn.
  destruct (decide (n ∈ resolved s)) as [|Hnr]; [done|]. exfalso.
  assert (n ∈ submitted s) as Hsub.
  { apply inv_ready; [done..|]. intros u Hu. apply IH; [done|].
    by eapply wf_up. }
  apply elem_of_submitted in Hsub as (k & f & Hk & <-).
  destruct (core_pool _ _ (inv_core _ Hinv) k f Hk Hnr) as [Hin|(e & He & _)].
  - rewrite Hfut in Hin. by apply elem_of_nil in Hin.
  - by apply Hst in He.
Qed.


(** *** The Result Store *)

(** Node names are unique among the nodes of the graph. *)
Definition names_unique : Prop :=
  forall a b, a ∈ e_nodes E -> b ∈ e_nodes E -> e_name E a = e_name E b -> a = b.

(** What [store] leaves under the name of a node whose call returned [v]. *)
Definition entry_of (v : value) : option value :=
  if e_store_none E || negb (is_none v) then Some v else None.

Record store_inv (s : state P) : Prop := mkStoreInv {
  store_writer : forall key v, results s !! key = Some v ->
    exists n, n ∈ resolved s /\ e_name E n = key;
  store_entry : names_unique ->
    forall n k p v, n ∈ resolved s ->
      pool s !! k = Some (mkFuture n p (Some (Ok v))) ->
      results s !! e_name E n = entry_of v;
  store_all : e_store_none E = true ->
    forall n, n ∈ resolved s -> is_Some (results s !! e_name E n);
  store_not_none : e_store_none E = false ->
    forall key, results s !! key ≠ Some VNone
}.

Lemma lookup_store n v res key :
  store E n v res !! key =
  if decide (key = e_name E n)
  then match entry_of v with Some x => Some x | None => res !! key end
  else res !! key.
Proof.
  unfold store, entry_of. destruct (e_store_none E || negb (is_none v)).
  - case_decide as Hk; [subst; apply lookup_insert_eq|].
    by rewrite lookup_insert_ne.
  - by case_decide.
Qed.

Lemma next_round_frame (s : state P) :
  results (next_round s) = results s /\ resolved (next_round s) = resolved s.
Proof.
  unfold next_round. destruct (st_status s); try done.
  destruct (batch s); [|done]. by destruct (futures s).
Qed.

Lemma collect_shape (k : nat) (s s' : state P) :
  collect E k s = Some s' ->
  exists n p r, pool s !! k = Some (mkFuture n p (Some r)) /\
    st_status s = Running /\ k ∈ batch s /\
    match r with
    | Ok v => results s' = store E n v (results s) /\
              resolved s' = resolved s ++ [n] /\
              (forall j f, pool s !! j = Some f -> pool s' !! j = Some f)
    | Raise e => results s' = results s /\ resolved s' = resolved s /\
                 pool s' = pool s /\ st_status s' = Raised e
    end.
Proof.
  unfold collect. destruct (st_status s) eqn:Hst; try done.
  case_bool_decide as Hb; [|done].
  destruct (pool s !! k) as [[n p [[v|e]|]]|] eqn:Hk; try done.
  - intros [= <-]. exists n, p, (Ok v). repeat split; try done.
    + rewrite (proj1 (next_round_frame _)).
      by rewrite (proj1 (proj2 (unlock_frame _ _))).
    + rewrite (proj2 (next_round_frame _)).
      by rewrite (proj1 (unlock_frame _ _)).
    + intros j f Hj. rewrite next_round_pool.
      assert (forall ds (s0 : state P), pool s0 !! j = Some f ->
                pool (unlock E ds s0) !! j = Some f) as Hu.
      { induction ds as [|d ds IH]; intros s0 H0; [done|].
        simpl. destruct (indegree s0 !! d) as [deg|]; [|done].
        destruct (deg - 1 =? 0); apply IH; [|done].
        apply lookup_pool_submit. by left. }
      by apply Hu.
  - intros [= <-]. by exists n, p, (Raise e).
Qed.

Lemma work_shape (k : nat) (s s' : state P) :
  work E k s = Some s' ->
  exists n p r w',
    pool s !! k = Some (mkFuture n p None) /\
    e_execute E n p (results s) (world s) = Some (r, w') /\
    s' = mkState (indegree s) (results s)
                 (<[k := mkFuture n p (Some r)]> (pool s))
                 (futures s) (batch s) w' (st_status s) (resolved s).
Proof.
  unfold work. destruct (pool s !! k) as [[n p [r|]]|] eqn:Hk; try done.
  destruct (e_execute E n p (results s) (world s)) as [[r w']|] eqn:He;
    [|done].
  intros [= <-]. by exists n, p, r, w'.
Qed.

Lemma step_store_inv (engine_ok : engine_wf) (a : action) (s s' : state P) :
  inv s -> store_inv s -> step E a s = Some s' -> store_inv s'.
Proof.
  intros Hinv [Hw He Ha Hn] Hstep. pose proof (inv_core _ Hinv) as Hc.
  pose proof (inv_core _ (step_inv engine_ok a s s' Hinv Hstep)) as Hc'.
  destruct a as [k|k]; simpl in Hstep.
  - apply work_shape in Hstep as (n & p & r & w' & Hk & Hex & ->).
    split; try done. simpl. intros Hu m j q v Hm Hj.
    destruct (decide (j = k)) as [->|Hne].
    + exfalso. rewrite list_lookup_insert_eq in Hj by by eapply lookup_lt_Some.
      injection Hj as -> -> ->.
      destruct (core_resolved _ _ Hc m Hm) as (j & q0 & v0 & Hj & _).
      assert (j = k) as -> by (eapply pool_node_inj; [apply Hc|done..]).
      congruence.
    + rewrite list_lookup_insert_ne in Hj by done. by eapply He.
  - apply collect_shape in Hstep as (n & p & r & Hk & Hst & Hkb & Hr).
    destruct r as [v|e].
    2:{ destruct Hr as (Hres & Hrsv & Hpool & _).
        split; rewrite ?Hres, ?Hrsv, ?Hpool; done. }
    destruct Hr as (Hres & Hrsv & Hpool).
    assert (n ∉ resolved s) as Hnr.
    { destruct (core_futures _ _ Hc k) as (f & Hf & Hnf); [by apply Hc|].
      rewrite Hk in Hf. by injection Hf as <-. }
    assert (forall m, m ∈ resolved s -> m ∈ e_nodes E) as Hrn.
    { intros m Hm. apply (core_nodes _ _ Hc). by eapply core_resolved_submitted. }
    assert (n ∈ e_nodes E) as Hnn.
    { apply (core_nodes _ _ Hc), elem_of_submitted. by eexists k, _. }
    split; rewrite ?Hres, ?Hrsv.
    + intros key x. rewrite lookup_store. case_decide as Hkey.
      * intros _. exists n. split; [|done]. apply elem_of_app. right. by left.
      * intros (m & Hm & <-)%Hw. exists m. split; [|done].
        apply elem_of_app. by left.
    + intros Hu m j q x [Hm|Hm%list_elem_of_singleton]%elem_of_app Hj.
      * assert (m ≠ n) as Hmn by (intros ->; done).
        rewrite lookup_store, decide_False.
        2:{ intros Heq. apply Hmn. apply Hu; [by apply Hrn|done|done]. }
        destruct (core_resolved _ _ Hc m Hm) as (j0 & q0 & x0 & Hj0 & _).
        pose proof (Hpool _ _ Hj0) as Hj0'.
        assert (j0 = j) as ->
          by (eapply (pool_node_inj s'); [apply Hc'|done..]).
        rewrite Hj0' in Hj. injection Hj as ? ?. subst q x. by eapply He.
      * subst m. pose proof (Hpool _ _ Hk) as Hk'.
        assert (k = j) as ->
          by (eapply (pool_node_inj s'); [apply Hc'|done..]).
        rewrite Hk' in Hj. injection Hj as ? ?. subst q x.
        rewrite lookup_store, decide_True by done.
        unfold entry_of. destruct (e_store_none E || negb (is_none v)) eqn:Hb;
          [done|].
        destruct (results s !! e_name E n) as [y|] eqn:Hy; [|done].
        apply Hw in Hy as (m & Hm & Heq). exfalso. apply Hnr.
        by rewrite <- (Hu m n (Hrn m Hm) Hnn Heq).
    + intros Hsn m [Hm|Hm%list_elem_of_singleton]%elem_of_app.
      * rewrite lookup_store. case_decide; [|by apply Ha].
        unfold entry_of. rewrite Hsn. simpl. by eexists.
      * subst m. rewrite lookup_store, decide_True by done.
        unfold entry_of. rewrite Hsn. simpl. by eexists.
    + intros Hsn key. rewrite lookup_store. case_decide; [|by apply Hn].
      unfold entry_of. rewrite Hsn. simpl.
      destruct v; simpl; try done. by apply Hn.
Qed.

Lemma start_store_inv (w : World) :
  (forall t, t ∈ ready E -> exists p, e_first_payload E t = Ok p) ->
  store_inv (start E w).
Proof.
  intros Hfirst.
  destruct (submit_ready_spec (ready E) (initial_state E w) Hfirst)
    as (_ & _ & _ & Hres & _ & Hr & _).
  unfold start. destruct (next_round_frame (submit_ready E (ready E)
                                              (initial_state E w))) as [Hn1 Hn2].
  split; rewrite ?Hn1, ?Hn2, ?Hr, ?Hres; simpl.
  - intros key v. by rewrite lookup_empty.
  - intros _ n k p v Hn. by apply elem_of_nil in Hn.
  - intros _ n Hn. by apply elem_of_nil in Hn.
  - intros _ key. by rewrite lookup_empty.
Qed.

Lemma run_store_inv (engine_ok : engine_wf) (sch : list action) (w : World) :
  store_inv (exec E sch (start E w)).
Proof.
  assert (inv (start E w) /\ store_inv (start E w)) as Hstart.
  { split; [by apply start_inv|]. apply start_store_inv.
    intros t [Ht Hup]%(elem_of_ready engine_ok). by apply (wf_first engine_ok). }
  revert Hstart. generalize (start E w).
  induction sch as [|a sch IH]; intros s [Hi Hs]; [done|].
  simpl. destruct (step E a s) as [s'|] eqn:Hstep; [|by apply IH].
  apply IH. split; [by eapply step_inv | by eapply step_store_inv].
Qed.

(** Under unique names a step never overwrites an entry of the store. *)
Lemma step_results_mono (engine_ok : engine_wf) (a : action) (s s' : state P) :
  names_unique -> inv s -> store_inv s -> step E a s = Some s' ->
  results s ⊆ results s'.
Proof.
  intros Hu Hinv Hs Hstep. pose proof (inv_core _ Hinv) as Hc.
  destruct a as [k|k]; simpl in Hstep.
  - by apply work_shape in Hstep as (n & p & r & w' & Hk & Hex & ->).
  - apply collect_shape in Hstep as (n & p & r & Hk & Hst & Hkb & Hr).
    destruct r as [v|e]; [|by destruct Hr as (-> & _)].
    destruct Hr as (-> & _ & _). unfold store.
    destruct (e_store_none E || negb (is_none v)); [|done].
    apply insert_subseteq.
    destruct (results s !! e_name E n) as [y|] eqn:Hy; [|done]. exfalso.
    apply (store_writer _ Hs) in Hy as (m & Hm & Heq).
    destruct (core_futures _ _ Hc k) as (f & Hf & Hnf); [by apply Hc|].
    rewrite Hk in Hf. injection Hf as <-. apply Hnf. simpl.
    assert (m = n) as <-; [|done]. apply Hu; [| |done].
    + apply (core_nodes _ _ Hc). by eapply core_resolved_submitted.
    + apply (core_nodes _ _ Hc), elem_of_submitted. by eexists k, _.
Qed.

Lemma exec_results_mono (engine_ok : engine_wf) (sch : list action)
    (s : state P) :
  names_unique -> inv s -> store_inv s ->
  results s ⊆ results (exec E sch s).
Proof.
  intros Hu. revert s. induction sch as [|a sch IH]; intros s Hi Hs; [done|].
  simpl. destruct (step E a s) as [s'|] eqn:Hstep; [|by apply IH].
  etrans; [by eapply step_results_mono|].
  apply IH; [by eapply step_inv | by eapply step_store_inv].
Qed.

Lemma exec_app (sch1 sch2 : list action) (s : state P) :
  exec E (sch1 ++ sch2) s = exec E sch2 (exec E sch1 s).
Proof.
  revert s. induction sch1 as [|a sch1 IH]; intros s; [done|].
  simpl. by destruct (step E a s).
Qed.
End SchedulerFacts.

(** ** The graphs of the three front ends *)

Lemma key_map_lookup (f : nat -> Z) (l : list nat) (n : nat) :
  n ∈ l ->
  (list_to_map ((fun t => (t, f t)) <$> l) : gmap nat Z) !! n = Some (f n).
Proof.
  induction l as [|t l IH]; intros Hn; [by apply elem_of_nil in Hn|].
  simpl. destruct (decide (n = t)) as [->|Hne].
  - apply lookup_insert_eq.
  - rewrite lookup_insert_ne by done. apply IH.
    by apply elem_of_cons in Hn as [?|?].
Qed.

(** What the chain operator guarantees of a registry: the two edge lists
    mirror each other; and every task an edge leads to is registered, each
    task once. *)
Record registry_wf (r : Registry) : Prop := mkRegistryWf {
  reg_nodup : NoDup (all_tasks r);
  reg_down : forall n d, n ∈ all_tasks r -> d ∈ downstream r n -> d ∈ all_tasks r;
  reg_up : forall n u, n ∈ all_tasks r -> u ∈ upstream r n -> u ∈ all_tasks r;
  reg_edges : forall a b, occ b (downstream r a) = occ a (upstream r b)
}.

Lemma DAG_engine_wf (r : Registry) :
  registry_wf r -> engine_wf (DAG_engine r) (upstream r).
Proof.
  intros [Hnd Hdown Hup Hedges]. split; simpl; try done.
  - intros n Hn. unfold DAG_indegree.
    by rewrite (key_map_lookup (fun t => Z.of_nat (length (upstream r t)))).
  - intros n _ Hupn. unfold DAG_first_args. rewrite Hupn. by eexists.
Qed.

Lemma append_to_lookup (k x j : nat) (f : nat -> list nat) :
  append_to k x f j = if decide (j = k) then f k ++ [x] else f j.
Proof.
  unfold append_to. case_decide as H.
  - subst. apply fn_lookup_insert.
  - by apply fn_lookup_insert_ne.
Qed.

(** [a >> b] keeps the two edge lists mirrored. *)
Lemma rshift_edges (a b : nat) (r : Registry) :
  (forall x y, occ y (downstream r x) = occ x (upstream r y)) ->
  forall x y, occ y (downstream (rshift a b r) x)
              = occ x (upstream (rshift a b r) y).
Proof.
  intros H x y. simpl. rewrite !append_to_lookup.
  destruct (decide (x = a)) as [->|Hx], (decide (y = b)) as [->|Hy];
    rewrite ?occ_app, ?occ_cons, ?occ_nil, H.
  - by rewrite !decide_True.
  - rewrite decide_False by done. lia.
  - rewrite decide_False by done. lia.
  - done.
Qed.

(** The graph of a flow, with its node set [all]. *)
Record flow_wf (f : Flow) (all : list nat) : Prop := mkFlowWf {
  flow_nodup : NoDup all;
  flow_down : forall n d, n ∈ all -> d ∈ graph f !!! n -> d ∈ all;
  flow_up : forall n u, n ∈ all -> u ∈ reverse_graph f !!! n -> u ∈ all;
  flow_edges : forall a b,
    occ b (graph f !!! a) = occ a (reverse_graph f !!! b)
}.

Lemma Flow_engine_wf (objs : nat -> Task) (f : Flow) (all : list nat) :
  flow_wf f all ->
  engine_wf (Flow_engine objs f all) (fun t => reverse_graph f !!! t).
Proof.
  intros [Hnd Hdown Hup Hedges]. split; simpl; try done.
  - intros n Hn. unfold Flow_indegree.
    by rewrite (key_map_lookup
                  (fun t => Z.of_nat (length (reverse_graph f !!! t)))).
  - intros n _ _. by eexists.
Qed.

Record functional_wf (ff : FunctionalFlow) : Prop := mkFunctionalWf {
  fun_nodup : NoDup (all_nodes ff);
  fun_down : forall n d, n ∈ all_nodes ff -> d ∈ ff_graph ff !!! n ->
                         d ∈ all_nodes ff;
  fun_up : forall n u, n ∈ all_nodes ff -> u ∈ ff_reverse_graph ff !!! n ->
                       u ∈ all_nodes ff;
  fun_edges : forall a b,
    occ b (ff_graph ff !!! a) = occ a (ff_reverse_graph ff !!! b)
}.

Lemma Functional_engine_wf (objs : nat -> Task) (ff : FunctionalFlow) :
  functional_wf ff ->
  engine_wf (Functional_engine objs ff) (fun n => ff_reverse_graph ff !!! n).
Proof.
  intros [Hnd Hdown Hup Hedges]. split; simpl; try done.
  - intros n Hn. unfold Functional_indegree.
    by rewrite (key_map_lookup
                  (fun t => Z.of_nat (length (ff_reverse_graph ff !!! t)))).
  - intros n _ _. by eexists.
Qed.

(** ** What [run] returns is a state of the scheduler, or [run] left before
    the pool was made *)

Lemma engine_run_state {P} (E : Engine P) (sch : list action) (w : World) s :
  engine_run E sch w = Some s ->
  (exists st, s = finished st w /\ (st = Returned -> e_nodes E = [])) \/
  (s = exec E sch (start E w) /\ e_nodes E ≠ [] /\
   has_cycle (e_down E) (e_nodes E) = Some (Ok false)).
Proof.
  unfold engine_run. destruct (e_nodes E) as [|n ns] eqn:Hn.
  { intros [= <-]. left. by eexists. }
  destruct (has_cycle (e_down E) (n :: ns)) as [[[|]|e]|]; intros [= <-].
  - left. by eexists.
  - right. done.
  - left. by eexists.
Qed.

Lemma engine_run_total {P} (E : Engine P) (sch : list action) (w : World) :
  closed (e_down E) (e_nodes E) -> is_Some (engine_run E sch w).
Proof.
  intros Hclosed. unfold engine_run. destruct (e_nodes E) eqn:Hn; [by eexists|].
  rewrite <- Hn in *.
  destruct (has_cycle_correct _ _ Hclosed) as (b & -> & _).
  destruct b; by eexists.
Qed.

Lemma registry_wf_base (l : list nat) (objs : nat -> Task) :
  NoDup l -> registry_wf (mkRegistry l objs (fun _ => []) (fun _ => [])).
Proof.
  intros Hnd. split; simpl; try done.
  - intros n d _ Hd. by apply elem_of_nil in Hd.
  - intros n u _ Hu. by apply elem_of_nil in Hu.
Qed.

Lemma rshift_wf (a b : nat) (r : Registry) :
  a ∈ all_tasks r -> b ∈ all_tasks r -> registry_wf r ->
  registry_wf (rshift a b r).
Proof.
  intros Ha Hb [Hnd Hdown Hup Hedges]. split; simpl; try done.
  - intros n d Hn. rewrite append_to_lookup. case_decide; [|by apply Hdown].
    subst n. intros [Hd|Hd%list_elem_of_singleton]%elem_of_app;
      [by eapply Hdown | by subst].
  - intros n u Hn. rewrite append_to_lookup. case_decide; [|by apply Hup].
    subst n. intros [Hu|Hu%list_elem_of_singleton]%elem_of_app;
      [by eapply Hup | by subst].
  - by apply rshift_edges.
Qed.

Lemma rshift_list_wf (a : nat) (bs : list nat) (r : Registry) :
  a ∈ all_tasks r -> (forall b, b ∈ bs -> b ∈ all_tasks r) -> registry_wf r ->
  registry_wf (rshift_list a bs r).
Proof.
  unfold rshift_list. revert r.
  induction bs as [|b bs IH]; intros r Ha Hbs Hwf; [done|].
  simpl. apply IH; [done| |].
  - intros b' Hb'. apply Hbs. by right.
  - apply rshift_wf; [done| |done]. apply Hbs. by left.
Qed.

Lemma rrshift_list_wf (l : list nat) (b : nat) (r : Registry) :
  b ∈ all_tasks r -> (forall a, a ∈ l -> a ∈ all_tasks r) -> registry_wf r ->
  registry_wf (rrshift_list l b r).
Proof.
  unfold rrshift_list. revert r.
  induction l as [|a l IH]; intros r Hb Hl Hwf; [done|].
  simpl. apply IH; [done| |].
  - intros a' Ha'. apply Hl. by right.
  - apply rshift_wf; [|done|done]. apply Hl. by left.
Qed.

(** The fan-out and fan-in of the specification: [R >> [A, B]] and
    [[A, B] >> M], with [R] = 10, [A(x)] = [x * 2], [B(x)] = [x + 5] and
    [M(a, b)] = [a + b]. *)
Definition diamond_tasks (n : nat) : Task :=
  match n with
  | 0%nat => mkTask "R" [] (fun _ _ _ => Ok (VInt 10)) 0 1 2 None
  | 1%nat => mkTask "A" ["x"]
               (fun _ a _ => match a with
                             | [VInt x] => Ok (VInt (x * 2))
                             | _ => Raise (TypeError "A")
                             end) 0 1 2 None
  | 2%nat => mkTask "B" ["x"]
               (fun _ a _ => match a with
                             | [VInt x] => Ok (VInt (x + 5))
                             | _ => Raise (TypeError "B")
                             end) 0 1 2 None
  | _ => mkTask "M" ["a"; "b"]
           (fun _ a _ => match a with
                         | [VInt x; VInt y] => Ok (VInt (x + y))
                         | _ => Raise (TypeError "M")
                         end) 0 1 2 None
  end.

Definition diamond : Registry :=
  rrshift_list [1; 2]%nat 3%nat
    (rshift_list 0%nat [1; 2]%nat
       (mkRegistry [0; 1; 2; 3]%nat diamond_tasks (fun _ => []) (fun _ => []))).

Lemma elem_of_list_4 (x a b c d : nat) :
  x = a \/ x = b \/ x = c \/ x = d -> x ∈ [a; b; c; d].
Proof. rewrite !elem_of_cons. tauto. Qed.

Lemma diamond_wf : registry_wf diamond.
Proof.
  apply rrshift_list_wf; [apply elem_of_list_4; tauto | |].
  { intros a [->|[->|[]%elem_of_nil]%elem_of_cons]%elem_of_cons;
      apply elem_of_list_4; tauto. }
  apply rshift_list_wf; [apply elem_of_list_4; tauto | |].
  { intros a [->|[->|[]%elem_of_nil]%elem_of_cons]%elem_of_cons;
      apply elem_of_list_4; tauto. }
  apply registry_wf_base. repeat constructor; rewrite ?elem_of_cons;
    try (intros H; decompose [or] H; try discriminate);
    try (by intros ?%elem_of_nil).
  all: by match goal with H : _ ∈ [] |- _ => apply elem_of_nil in H end.
Qed.

Lemma diamond_names_unique : names_unique (DAG_engine diamond).
Proof.
  intros a b Ha Hb. simpl in *.
  repeat (apply elem_of_cons in Ha as [->|Ha]);
    [| | | |by apply elem_of_nil in Ha];
    repeat (apply elem_of_cons in Hb as [->|Hb]);
    try (by apply elem_of_nil in Hb); try done; by intros [=].
Qed.

(** One order in which the diamond can run: [R], then [A] and [B] in the
    workers, [B] collected before [A], then [M]. *)
Definition diamond_schedule : list action :=
  [Work 0; Collect 0; Work 1; Work 2; Collect 2; Collect 1; Work 3; Collect 3].

Example diamond_results :
  (fun s => (st_status s, map_to_list (results s)))
    <$> DAG_run diamond diamond_schedule quiet_world
  = Some (Returned, [("M"%string, VInt 35); ("A"%string, VInt 20);
                     ("R"%string, VInt 10); ("B"%string, VInt 15)]).
Proof. vm_compute. reflexivity. Qed.

(** ** Topological correctness *)

(** C3. In every state a run reaches on a well-formed graph, whatever the
    schedule: a node that has been submitted to the pool has in-degree zero
    and each of its upstream nodes has been resolved, that is, collected
    with a result or as skipped; the nodes whose callable has been run are
    among the submitted ones; and at the moment a worker runs a future, the
    upstream nodes of its node are all resolved. *)
Theorem topological_order {P} (E : Engine P) (up : nat -> list nat)
    (sch : list action) (w : World) (s : state P) :
  engine_wf E up ->
  engine_run E sch w = Some s ->
  (forall n, n ∈ submitted s ->
     indegree s !! n = Some 0 /\ forall u, u ∈ up n -> u ∈ resolved s) /\
  (forall n, n ∈ started s -> n ∈ submitted s) /\
  (forall k s', work E k s = Some s' ->
     exists f, pool s !! k = Some f /\ fut_result f = None /\
               forall u, u ∈ up (fut_node f) -> u ∈ resolved s).
Proof.
  intros Hwf Hrun. split; [|split; [apply started_subseteq|]].
  - apply engine_run_state in Hrun as [(st & -> & _)|(-> & _ & _)].
    { intros n Hn. by apply elem_of_nil in Hn. }
    pose proof (run_inv E up Hwf sch w) as Hinv. intros n Hn.
    assert (n ∈ e_nodes E) as Hnode by by apply (core_nodes _ _ _ _ (inv_core _ _ _ Hinv)).
    pose proof (proj1 (inv_ready E up _ n Hinv Hnode) Hn) as Hall.
    split; [|done]. rewrite (inv_indegree E up _ n Hinv Hnode).
    by rewrite (proj2 (pending_zero up _ _) Hall).
  - intros k s' Hwork.
    apply work_shape in Hwork as (n & p & r & w' & Hk & _ & _).
    exists (mkFuture n p None). split; [done|]. split; [done|]. simpl.
    apply engine_run_state in Hrun as [(st & -> & _)|(-> & _ & _)].
    { simpl in Hk. by rewrite lookup_nil in Hk. }
    pose proof (run_inv E up Hwf sch w) as Hinv.
    assert (n ∈ submitted (exec E sch (start E w))) as Hn.
    { apply elem_of_submitted. by eexists k, _. }
    apply (inv_ready E up _ n Hinv); [|done].
    by apply (core_nodes _ _ _ _ (inv_core _ _ _ Hinv)).
Qed.

Lemma topological_order_witness :
  let E := DAG_engine diamond in
  let sch := [Work 0; Collect 0; Work 1] in
  let s := exec E sch (start E quiet_world) in
  engine_wf E (upstream diamond) /\
  engine_run E sch quiet_world = Some s /\
  (forall n, n ∈ submitted s ->
     indegree s !! n = Some 0 /\
     forall u, u ∈ upstream diamond n -> u ∈ resolved s).
Proof.
  intros E sch s.
  assert (engine_wf E (upstream diamond)) as Hwf
    by apply DAG_engine_wf, diamond_wf.
  assert (engine_run E sch quiet_world = Some s) as Hrun
    by (vm_compute; reflexivity).
  split; [exact Hwf|]. split; [exact Hrun|].
  apply (topological_order E (upstream diamond) sch quiet_world s Hwf Hrun).
Defined.

(** ** At-most-once scheduling and the append-only store *)

Lemma engine_run_app {P} (E : Engine P) (sch sch' : list action) (w : World)
    (s s' : state P) :
  engine_run E sch w = Some s -> engine_run E (sch ++ sch') w = Some s' ->
  s' = exec E sch' s \/ (exists st, s = finished st w /\ s' = s).
Proof.
  unfold engine_run. destruct (e_nodes E).
  { intros [= <-] [= <-]. right. by eexists. }
  destruct (has_cycle (e_down E) (n :: l)) as [[[|]|e]|]; intros [= <-] [= <-].
  - right. by eexists.
  - left. apply exec_app.
  - right. by eexists.
Qed.

(** C9. On a well-formed graph with unique node names, in every state a run
    reaches: no node has been submitted twice, no node has been counted as
    completed twice, every entry of the Result Store was written by a
    resolved node of that name, which is the only node of that name; and
    whatever the run does next ([sch']), the entries stay as they are. *)
Theorem at_most_once {P} (E : Engine P) (up : nat -> list nat)
    (sch sch' : list action) (w : World) (s s' : state P) :
  engine_wf E up -> names_unique E ->
  engine_run E sch w = Some s ->
  engine_run E (sch ++ sch') w = Some s' ->
  NoDup (submitted s) /\ NoDup (resolved s) /\
  (forall key v, results s !! key = Some v ->
     exists n, n ∈ resolved s /\ e_name E n = key /\
               forall m, m ∈ e_nodes E -> e_name E m = key -> m = n) /\
  (forall key v, results s !! key = Some v -> results s' !! key = Some v).
Proof.
  intros Hwf Hu Hrun Hrun'.
  destruct (engine_run_state E sch w s Hrun) as [(st & -> & _)|(-> & _ & _)].
  { destruct (engine_run_app E sch sch' w _ s' Hrun Hrun')
      as [->|(st' & _ & ->)].
    - split; [apply NoDup_nil_2|]. split; [apply NoDup_nil_2|]. split; done.
    - split; [apply NoDup_nil_2|]. split; [apply NoDup_nil_2|]. split; done. }
  pose proof (run_inv E up Hwf sch w) as Hinv.
  pose proof (run_store_inv E up Hwf sch w) as Hs.
  pose proof (inv_core _ _ _ Hinv) as Hc.
  split; [apply Hc|]. split; [apply Hc|]. split.
  - intros key v (n & Hn & Hkey)%(store_writer _ _ Hs).
    exists n. split; [done|]. split; [done|]. intros m Hm Hmk.
    apply Hu; [done| |congruence].
    apply (core_nodes _ _ _ _ Hc). by eapply core_resolved_submitted.
  - destruct (engine_run_app E sch sch' w _ s' Hrun Hrun')
      as [->|(st' & Heq & ->)]; [|done].
    intros key v Hk. eapply lookup_weaken; [exact Hk|].
    by eapply exec_results_mono.
Qed.

Lemma at_most_once_witness :
  let E := DAG_engine diamond in
  let sch := [Work 0; Collect 0; Work 1] in
  let sch' := [Work 2; Collect 2; Collect 1] in
  let s := exec E sch (start E quiet_world) in
  let s' := exec E (sch ++ sch') (start E quiet_world) in
  engine_wf E (upstream diamond) /\ names_unique E /\
  engine_run E sch quiet_world = Some s /\
  engine_run E (sch ++ sch') quiet_world = Some s' /\
  NoDup (submitted s) /\
  (forall key v, results s !! key = Some v -> results s' !! key = Some v).
Proof.
  intros E sch sch' s s'.
  assert (engine_wf E (upstream diamond)) as Hwf
    by apply DAG_engine_wf, diamond_wf.
  assert (engine_run E sch quiet_world = Some s) as Hrun
    by (vm_compute; reflexivity).
  assert (engine_run E (sch ++ sch') quiet_world = Some s') as Hrun'
    by (vm_compute; reflexivity).
  split; [exact Hwf|]. split; [exact diamond_names_unique|].
  split; [exact Hrun|]. split; [exact Hrun'|].
  destruct (at_most_once E (upstream diamond) sch sch' quiet_world s s'
              Hwf diamond_names_unique Hrun Hrun') as (H1 & _ & _ & H4).
  split; [exact H1 | exact H4].
Defined.

(** ** [None] results and the store *)

(** C10. In [DAG.run] and [Flow.run] ([e_store_none] is [false]) the store
    never holds [None], and a completed node whose call returned [None]
    has no entry under its name, be it that its body returned [None] or
    that it was skipped by its condition: the call of a skipped task returns
    [None] as well, and [store] sees the value only. In
    [FunctionalFlow.run] ([e_store_none] is [true]) every completed node has
    an entry under its name, and it holds what the call returned, [None]
    included. *)
Theorem none_results {P} (E : Engine P) (up : nat -> list nat)
    (sch : list action) (w : World) (s : state P) :
  engine_wf E up ->
  engine_run E sch w = Some s ->
  (e_store_none E = false ->
     (forall key, results s !! key ≠ Some VNone) /\
     (forall n v res, store E n v res = if is_none v then res
                                        else <[e_name E n := v]> res) /\
     (names_unique E -> forall n k p, n ∈ resolved s ->
        pool s !! k = Some (mkFuture n p (Some (Ok VNone))) ->
        results s !! e_name E n = None)) /\
  (e_store_none E = true ->
     (forall n, n ∈ resolved s -> is_Some (results s !! e_name E n)) /\
     (names_unique E -> forall n k p v, n ∈ resolved s ->
        pool s !! k = Some (mkFuture n p (Some (Ok v))) ->
        results s !! e_name E n = Some v)) /\
  (forall t args kwargs w0, condition_not_met t args ->
     exists w1, Task_call t args kwargs w0 = Some (Ok VNone, w1)) /\
  (forall r, e_store_none (DAG_engine r) = false) /\
  (forall objs f all, e_store_none (Flow_engine objs f all) = false) /\
  (forall objs ff, e_store_none (Functional_engine objs ff) = true).
Proof.
  intros Hwf Hrun.
  assert (store_inv E s) as Hs.
  { apply engine_run_state in Hrun as [(st & -> & _)|(-> & _ & _)];
      [|by eapply run_store_inv].
    split; simpl.
    - intros key v. by rewrite lookup_empty.
    - intros _ n k p v Hn. by apply elem_of_nil in Hn.
    - intros _ n Hn. by apply elem_of_nil in Hn.
    - intros _ key. by rewrite lookup_empty. }
  split; [|split; [|split; [|done]]].
  - intros Hsn. split; [by apply (store_not_none _ _ Hs)|]. split.
    + intros n v res. unfold store. rewrite Hsn. by destruct v.
    + intros Hu n k p Hn Hk.
      rewrite (store_entry _ _ Hs Hu n k p VNone Hn Hk).
      unfold entry_of. by rewrite Hsn.
  - intros Hsn. split; [by apply (store_all _ _ Hs)|].
    intros Hu n k p v Hn Hk. rewrite (store_entry _ _ Hs Hu n k p v Hn Hk).
    unfold entry_of. by rewrite Hsn.
  - intros t args kwargs w0 Hc.
    destruct (Task_call_skipped t args kwargs w0 Hc) as [reason Hr]. eauto.
Qed.

(** ** Skip events *)

Definition is_skip (ev : event) : bool :=
  match ev with EvSkip _ _ => true | _ => false end.

Lemma retry_loop_no_skip (t : Task) args kwargs (fuel : nat) (attempt : Z)
    (d : Q) (w : World) r w' :
  retry_loop fuel t args kwargs attempt d w = Some (r, w') ->
  exists ext, trace w' = trace w ++ ext /\
              Forall (fun ev => is_skip ev = false) ext.
Proof.
  revert attempt d w. induction fuel as [|fuel IH]; intros attempt d w; [done|].
  simpl. destruct (func t (trace w) args kwargs) as [v|e].
  { intros [= <- <-]. eexists [_; _]. simpl. rewrite <- app_assoc.
    split; [done|]. by repeat constructor. }
  destruct (retries t <? attempt + 1).
  { intros [= <- <-]. eexists [_; _]. simpl. rewrite <- app_assoc.
    split; [done|]. by repeat constructor. }
  destruct (0 <? retries t).
  - destruct (Qle_bool 0 _).
    2:{ intros [= <- <-]. eexists [_; _; _]. simpl. rewrite <- !app_assoc.
        split; [done|]. by repeat constructor. }
    intros H. apply IH in H as (ext & Htr & Hf). simpl in Htr.
    eexists (_ :: _ :: _ :: ext). split.
    { rewrite Htr, <- !app_assoc. reflexivity. }
    by repeat constructor.
  - intros H. apply IH in H as (ext & Htr & Hf). simpl in Htr.
    eexists (_ :: ext). split.
    { rewrite Htr, <- !app_assoc. reflexivity. }
    by constructor.
Qed.

(** A skip event in what a call of a task adds to the trace bears the name
    of the task, and the call has then returned [None]. *)
Definition skips_mean_none (n : string) (r : result value)
    (ext : list event) : Prop :=
  forall x reason, EvSkip x reason ∈ ext -> x = n /\ r = Ok VNone.

Lemma no_skip_skips_mean_none n r ext :
  Forall (fun ev => is_skip ev = false) ext -> skips_mean_none n r ext.
Proof.
  intros Hf x reason Hin. rewrite Forall_forall in Hf.
  by apply Hf in Hin.
Qed.

Lemma Task_call_skips (t : Task) args kwargs (w : World) r w' :
  Task_call t args kwargs w = Some (r, w') ->
  exists ext, trace w' = trace w ++ ext /\ skips_mean_none (name t) r ext.
Proof.
  assert (forall w0, retry_loop (S (Z.to_nat (retries t))) t args kwargs 0
                       (delay t) (emit (EvStart (name t)) w0) = Some (r, w') ->
          exists ext, trace w' = trace w0 ++ ext /\
                      skips_mean_none (name t) r ext) as Hrun.
  { intros w0 H. apply retry_loop_no_skip in H as (ext & Htr & Hf).
    exists (EvStart (name t) :: ext). rewrite Htr. simpl.
    rewrite <- app_assoc. split; [done|].
    apply no_skip_skips_mean_none. by constructor. }
  assert (forall reason, skips_mean_none (name t) (Ok VNone)
                           [EvSkip (name t) reason]) as Hskip.
  { intros reason x reason' Hin. apply list_elem_of_singleton in Hin.
    by injection Hin as -> _. }
  unfold Task_call. destruct (when t) as [cond|]; [|apply Hrun].
  destruct args as [|a rest].
  { intros [= <- <-]. eexists [_]. split; [done|]. apply Hskip. }
  destruct (cond a) as [[|]|e]; [apply Hrun| |].
  - intros [= <- <-]. eexists [_]. split; [done|]. apply Hskip.
  - intros [= <- <-]. exists []. rewrite app_nil_r. split; [done|].
    intros x reason Hin. by apply elem_of_nil in Hin.
Qed.

Lemma call_func_skips (t : Task) args kwargs (w : World) r w' :
  Some (call_func t args kwargs w) = Some (r, w') ->
  exists ext, trace w' = trace w ++ ext /\ skips_mean_none (name t) r ext.
Proof.
  intros [= <- <-]. eexists [_]. split; [done|].
  intros x reason Hin. apply list_elem_of_singleton in Hin. done.
Qed.

(** What an engine must guarantee of the callables it runs. *)
Definition execute_traced {P} (E : Engine P) : Prop :=
  forall n p res w r w', e_execute E n p res w = Some (r, w') ->
    exists ext, trace w' = trace w ++ ext /\
                skips_mean_none (e_name E n) r ext.

Lemma DAG_execute_traced (r : Registry) : execute_traced (DAG_engine r).
Proof. intros n p res w out w'. apply Task_call_skips. Qed.

Lemma Flow_execute_traced (objs : nat -> Task) (f : Flow) (all : list nat) :
  execute_traced (Flow_engine objs f all).
Proof.
  intros n p res w out w'. simpl. unfold Flow_execute_task.
  case_bool_decide; [apply Task_call_skips|].
  destruct (filter_kwargs (params (objs n)) p);
    [apply Task_call_skips | apply call_func_skips].
Qed.

Lemma Functional_execute_traced (objs : nat -> Task) (ff : FunctionalFlow) :
  execute_traced (Functional_engine objs ff).
Proof.
  intros n p res w out w'. simpl.
  unfold FunctionalFlow_execute_node, node_name.
  destruct (node_task objs ff n) as [t|]; [|done].
  destruct (inputs_of ff n); [apply Task_call_skips|].
  destruct (filter_kwargs (params t) res);
    [apply Task_call_skips | apply call_func_skips].
Qed.

Section SkipFacts.
Context {P : Type}.
Variable E : Engine P.
Hypothesis traced : execute_traced E.
Variable w0 : World.

(** Every skip event of the run comes from a future that holds [None]. *)
Definition skip_inv (s : state P) : Prop :=
  forall x reason, EvSkip x reason ∈ trace (world s) ->
    EvSkip x reason ∈ trace w0 \/
    exists k n p, pool s !! k = Some (mkFuture n p (Some (Ok VNone))) /\
                  e_name E n = x.

Lemma step_skip_inv (a : action) (s s' : state P) :
  skip_inv s -> step E a s = Some s' -> skip_inv s'.
Proof.
  intros Hs Hstep. destruct a as [k|k]; simpl in Hstep.
  - apply work_shape in Hstep as (n & p & r & w' & Hk & Hex & ->).
    apply traced in Hex as (ext & Htr & Hskip).
    intros x reason. simpl. rewrite Htr.
    intros [Hin|Hin]%elem_of_app.
    + destruct (Hs x reason Hin) as [?|(j & m & q & Hj & Hm)]; [by left|].
      right. exists j, m, q. split; [|done].
      rewrite list_lookup_insert_ne; [done|]. intros ->. congruence.
    + apply Hskip in Hin as [-> ->]. right. exists k, n, p. split; [|done].
      apply list_lookup_insert_eq. by eapply lookup_lt_Some.
  - pose proof Hstep as Hshape.
    apply collect_shape in Hshape as (n & p & r & Hk & Hst & Hkb & Hr).
    assert (world s' = world s) as Hw.
    { unfold collect in Hstep. rewrite Hst, Hk in Hstep.
      case_bool_decide; [|done]. destruct r; injection Hstep as <-; [|done].
      unfold next_round.
      match goal with |- world (match ?x with _ => _ end) = _ =>
        destruct x eqn:Hx end;
        try (by rewrite (proj1 (proj2 (proj2 (unlock_frame E _ _))))).
      match goal with |- world (match ?x with _ => _ end) = _ =>
        destruct x end;
        [|by rewrite (proj1 (proj2 (proj2 (unlock_frame E _ _))))].
      match goal with |- world (match ?x with _ => _ end) = _ =>
        destruct x end; simpl;
        by rewrite (proj1 (proj2 (proj2 (unlock_frame E _ _)))). }
    assert (forall j f, pool s !! j = Some f -> pool s' !! j = Some f) as Hpool.
    { destruct r; [apply Hr|]. destruct Hr as (_ & _ & -> & _). done. }
    intros x reason. rewrite Hw. intros Hin.
    destruct (Hs x reason Hin) as [?|(j & m & q & Hj & Hm)]; [by left|].
    right. exists j, m, q. split; [by apply Hpool|done].
Qed.

Lemma run_skip_inv (sch : list action) : skip_inv (exec E sch (start E w0)).
Proof.
  assert (skip_inv (start E w0)) as Hstart.
  { intros x reason Hin. left.
    assert (world (start E w0) = w0) as Hw; [|by rewrite Hw in Hin].
    unfold start.
    assert (forall ts (s : state P), world (submit_ready E ts s) = world s)
      as Hsr.
    { induction ts as [|t ts IH]; intros s; [done|]. simpl.
      destruct (e_first_payload E t); [|done]. by rewrite IH. }
    unfold next_round. destruct (st_status _); try apply Hsr.
    destruct (batch _); [|apply Hsr]. destruct (futures _); apply Hsr. }
  revert Hstart. generalize (start E w0).
  induction sch as [|a sch IH]; intros s Hs; [done|].
  simpl. destruct (step E a s) as [s'|] eqn:Hstep; [|by apply IH].
  apply IH. by eapply step_skip_inv.
Qed.

End SkipFacts.

(** ** Conditional skip in a run *)

(** The claim that a skipped node leaves no entry in the Result Store of a
    run that starts from the world [w]. *)
Definition skipped_has_no_entry {P} (E : Engine P) (w : World) : Prop :=
  forall sch s n reason,
    engine_run E sch w = Some s -> n ∈ e_nodes E ->
    EvSkip (e_name E n) reason ∈ trace (world s) ->
    results s !! e_name E n = None.

(** A functional flow of one node, whose task has a condition. *)
Definition conditional_objs (n : nat) : Task :=
  mkTask "conditional_task" ["value"] (fun _ _ _ => Ok (VStr "executed"))
         0 1 2
         (Some (fun v => Ok (match v with VInt x => 50 <? x | _ => false end))).

Definition conditional_flow : FunctionalFlow :=
  mkFunctional [mkApplied 0 []] [0%nat] ∅ ∅.

Example conditional_flow_built :
  build_graph [mkApplied 0 []] [RApplied 0] = Some conditional_flow.
Proof. reflexivity. Qed.

(** C5, as stated, fails for [FunctionalFlow.run]: the node is skipped and
    the store holds an entry for it, with the value [None]. *)
Lemma functional_skip_has_entry :
  ~ skipped_has_no_entry (Functional_engine conditional_objs conditional_flow)
      quiet_world.
Proof.
  intros Hclaim.
  assert (results (exec (Functional_engine conditional_objs conditional_flow)
                     [Work 0; Collect 0]
                     (start (Functional_engine conditional_objs
                               conditional_flow) quiet_world))
          !! "conditional_task"%string = None) as Habs.
  { apply (Hclaim [Work 0; Collect 0] _ 0%nat "no upstream data"%string).
    - vm_compute. reflexivity.
    - by left.
    - vm_compute. by left. }
  vm_compute in Habs. discriminate Habs.
Qed.

Lemma finished_store_inv {P} (E : Engine P) (st : status) (w : World) :
  store_inv E (finished st w).
Proof.
  split; simpl.
  - intros key v. by rewrite lookup_empty.
  - intros _ n k p v Hn. by apply elem_of_nil in Hn.
  - intros _ n Hn. by apply elem_of_nil in Hn.
  - intros _ key. by rewrite lookup_empty.
Qed.

(** C5, amended. A task whose condition is not met (no positional argument,
    or the predicate false of the first one) is skipped: its call returns
    [None] at once, and adds to the trace one skip event and nothing else,
    so no call of the body, no retry, no sleep and no failure. In a run on a
    well-formed graph with unique names, a node whose skip event is in the
    trace has no entry in the store of [DAG.run] and [Flow.run]; in
    [FunctionalFlow.run] it has the entry [None] once it is collected.
    Collecting a future that holds a value, [None] included, counts its node
    as resolved, and a node is submitted exactly when all its upstream nodes
    are resolved, so the nodes downstream of a skipped one still become
    ready. Downstream, [DAG.run] passes [None] in the position of a missing
    entry; the keyword arguments of the other two leave a missing name out
    and, in functional.py, pass the [None] that is stored. *)
Theorem conditional_skip {P} (E : Engine P) (up : nat -> list nat)
    (sch : list action) (w : World) (s : state P) :
  engine_wf E up -> names_unique E -> execute_traced E ->
  ~ cyclic (e_down E) (e_nodes E) ->
  (forall x reason, EvSkip x reason ∉ trace w) ->
  engine_run E sch w = Some s ->
  (forall t args kwargs w0, condition_not_met t args ->
     exists reason, Task_call t args kwargs w0
                    = Some (Ok VNone, emit (EvSkip (name t) reason) w0)) /\
  (forall n reason, n ∈ e_nodes E ->
     EvSkip (e_name E n) reason ∈ trace (world s) ->
     results s !! e_name E n =
       if e_store_none E && bool_decide (n ∈ resolved s)
       then Some VNone else None) /\
  (forall k s' n p v, pool s !! k = Some (mkFuture n p (Some (Ok v))) ->
     collect E k s = Some s' -> resolved s' = resolved s ++ [n]) /\
  (forall d, d ∈ e_nodes E ->
     (d ∈ submitted s <-> forall u, u ∈ up d -> u ∈ resolved s)) /\
  (forall r d res i u, upstream r d !! i = Some u ->
     res !! task_name r u = None -> DAG_args r d res !! i = Some VNone) /\
  (forall ps res p, res !! p = None -> p ∉ (filter_kwargs ps res).*1) /\
  (forall ps res p, p ∈ ps -> res !! p = Some VNone ->
     (p, VNone) ∈ filter_kwargs ps res).
Proof.
  intros Hwf Hu Htr Hacyc Hw0 Hrun.
  split; [intros; by apply Task_call_skipped|].
  assert (e_nodes E = [] \/ s = exec E sch (start E w)) as Hcases.
  { destruct (has_cycle_correct (e_down E) (e_nodes E)) as (b & Hb & Hiff).
    { intros a d. apply (wf_down _ _ Hwf). }
    unfold engine_run in Hrun. rewrite Hb in Hrun.
    destruct (e_nodes E); [by left|]. right.
    destruct b; [exfalso; by apply Hacyc, Hiff|]. by injection Hrun. }
  split; [|split; [|split; [|split; [|split]]]].
  - intros n reason Hn Hskip.
    destruct Hcases as [Hnil| ->].
    { rewrite Hnil in Hn. by apply elem_of_nil in Hn. }
    pose proof (run_inv E up Hwf sch w) as Hinv.
    pose proof (run_store_inv E up Hwf sch w) as Hs.
    pose proof (inv_core _ _ _ Hinv) as Hc.
    destruct (run_skip_inv E Htr w sch _ _ Hskip)
      as [Hin|(k & m & p & Hk & Hname)]; [by apply Hw0 in Hin|].
    assert (m = n) as ->.
    { apply Hu; [|done|done]. apply (core_nodes _ _ _ _ Hc).
      apply elem_of_submitted. by eexists k, _. }
    case_bool_decide as Hres.
    + rewrite (store_entry _ _ Hs Hu n k p VNone Hres Hk). unfold entry_of.
      by destruct (e_store_none E).
    + rewrite andb_false_r.
      destruct (results _ !! e_name E n) as [y|] eqn:Hy; [|done].
      apply (store_writer _ _ Hs) in Hy as (m & Hm & Heq). exfalso.
      apply Hres. assert (m = n) as <-; [|done]. apply Hu; [|done|done].
      apply (core_nodes _ _ _ _ Hc). by eapply core_resolved_submitted.
  - intros k s' n p v Hk Hcol.
    apply collect_shape in Hcol as (n' & p' & r & Hk' & _ & _ & Hr).
    rewrite Hk in Hk'. injection Hk' as <- <- <-. apply Hr.
  - intros d Hd. destruct Hcases as [Hnil| ->].
    { rewrite Hnil in Hd. by apply elem_of_nil in Hd. }
    apply (inv_ready E up); [by apply run_inv|done].
  - intros r d res i u Hi Hnone. unfold DAG_args.
    rewrite list_lookup_fmap, Hi. simpl. by rewrite Hnone.
  - intros ps res p Hnone Hin. rewrite filter_kwargs_names in Hin.
    apply list_elem_of_filter in Hin as [[v Hv] _]. congruence.
  - intros ps res p Hp Hv. by apply elem_of_filter_kwargs.
Qed.

(** ** Whose events are in the trace *)






(** ** Counting the events of one node in a run *)

Section CountFacts.
Context {P : Type}.
Variable E : Engine P.
Variable up : nat -> list nat.
Hypothesis engine_ok : engine_wf E up.
Variable T : nat.
Variable q : event -> bool.
Variable c : nat.
Variable good : World -> Prop.
Hypothesis good_execute : forall n p res w r w',
  good w -> e_execute E n p res w = Some (r, w') -> good w'.
Hypothesis count_T : forall p res w r w',
  good w -> e_execute E T p res w = Some (r, w') ->
  count_ev q (trace w') = (count_ev q (trace w) + c)%nat.
Hypothesis count_other : forall n p res w r w',
  good w -> n ∈ e_nodes E -> n ≠ T -> e_execute E n p res w = Some (r, w') ->
  count_ev q (trace w') = count_ev q (trace w).








End CountFacts.

(** ** The cycle check, read backwards *)

Lemma acyclic_by_check (down : nat -> list nat) (l : list nat) :
  closed down l -> has_cycle down l = Some (Ok false) -> ~ cyclic down l.
Proof.
  intros Hclosed Hcheck Hcyc.
  destruct (has_cycle_correct down l Hclosed) as (b & Hb & Hiff).
  rewrite Hcheck in Hb. injection Hb as <-. by apply Hiff in Hcyc.
Qed.


(** ** Instances *)

Lemma names_unique_by_nodup {P} (E : Engine P) :
  NoDup (e_name E <$> e_nodes E) -> names_unique E.
Proof.
  intros Hnd a b Ha Hb Heq.
  apply list_elem_of_lookup in Ha as [i Hi].
  apply list_elem_of_lookup in Hb as [j Hj].
  assert (i = j) as ->; [|congruence].
  eapply NoDup_lookup; [exact Hnd| |].
  - by rewrite list_lookup_fmap, Hi.
  - rewrite list_lookup_fmap, Hj. simpl. by rewrite Heq.
Qed.





(** The chain of the test of a skipped step:
    [start >> multiply >> conditional_step >> final]. *)
Definition skip_chain_tasks (n : nat) : Task :=
  match n with
  | 0%nat => mkTask "start" [] (fun _ _ _ => Ok (VInt 3)) 0 1 2 None
  | 1%nat => mkTask "multiply" ["x"]
               (fun _ a _ => match a with
                             | [VInt x] => Ok (VInt (x * 10))
                             | _ => Raise (TypeError "multiply")
                             end) 0 1 2 None
  | 2%nat => mkTask "conditional_step" ["x"]
               (fun _ a _ => match a with
                             | [VInt x] => Ok (VInt (x + 100))
                             | _ => Raise (TypeError "conditional_step")
                             end) 0 1 2
               (Some (fun v => Ok (match v with
                                   | VInt x => 50 <? x
                                   | _ => false
                                   end)))
  | _ => mkTask "final" ["x"]
           (fun _ a _ => match a with
                         | [VNone] => Ok (VStr "Final: None")
                         | [v] => Ok v
                         | _ => Raise (TypeError "final")
                         end) 0 1 2 None
  end.

Definition skip_chain : Registry :=
  rshift 2 3 (rshift 1 2 (rshift 0 1
    (mkRegistry [0; 1; 2; 3]%nat skip_chain_tasks (fun _ => []) (fun _ => [])))).

Lemma skip_chain_wf : registry_wf skip_chain.
Proof.
  repeat (apply rshift_wf; [apply elem_of_list_4; tauto..|]).
  apply registry_wf_base. by apply (bool_decide_unpack _).
Qed.

Lemma skip_chain_names_unique : names_unique (DAG_engine skip_chain).
Proof. apply names_unique_by_nodup. by apply (bool_decide_unpack _). Qed.

Definition skip_chain_schedule : list action :=
  [Work 0; Collect 0; Work 1; Collect 1; Work 2; Collect 2; Work 3; Collect 3].

Example skip_chain_results :
  (fun s => (st_status s, map_to_list (results s)))
    <$> DAG_run skip_chain skip_chain_schedule quiet_world
  = Some (Returned, [("start"%string, VInt 3); ("multiply"%string, VInt 30);
                     ("final"%string, VStr "Final: None")]).
Proof. vm_compute. reflexivity. Qed.

Lemma skip_chain_acyclic : ~ cyclic (downstream skip_chain) (all_tasks skip_chain).
Proof.
  apply acyclic_by_check.
  - intros n d. apply (wf_down _ _ (DAG_engine_wf _ skip_chain_wf)).
  - vm_compute. reflexivity.
Qed.

Lemma conditional_skip_witness :
  let E := DAG_engine skip_chain in
  let s := exec E skip_chain_schedule (start E quiet_world) in
  engine_wf E (upstream skip_chain) /\ names_unique E /\ execute_traced E /\
  ~ cyclic (e_down E) (e_nodes E) /\
  (forall x reason, EvSkip x reason ∉ trace quiet_world) /\
  engine_run E skip_chain_schedule quiet_world = Some s /\
  results s !! "conditional_step"%string = None /\
  (3%nat ∈ submitted s).
Proof.
  intros E s.
  assert (engine_wf E (upstream skip_chain)) as Hwf
    by apply DAG_engine_wf, skip_chain_wf.
  assert (forall x reason, EvSkip x reason ∉ trace quiet_world) as Hw
    by (intros x reason Hin; by apply elem_of_nil in Hin).
  assert (engine_run E skip_chain_schedule quiet_world = Some s) as Hrun
    by (vm_compute; reflexivity).
  split; [exact Hwf|]. split; [exact skip_chain_names_unique|].
  split; [exact (DAG_execute_traced skip_chain)|].
  split; [exact skip_chain_acyclic|]. split; [exact Hw|]. split; [exact Hrun|].
  destruct (conditional_skip E (upstream skip_chain) skip_chain_schedule
              quiet_world s Hwf skip_chain_names_unique
              (DAG_execute_traced skip_chain) skip_chain_acyclic Hw Hrun)
    as (_ & Hentry & _ & Hready & _).
  split.
  - apply (Hentry 2%nat "condition not met"%string).
    + apply elem_of_list_4. tauto.
    + vm_compute. do 6 right. left.
  - apply Hready; [apply elem_of_list_4; tauto|].
    intros u Hu. vm_compute in Hu.
    apply list_elem_of_singleton in Hu as ->. vm_compute.
    do 2 right. left.
Defined.

(** [source >> conditional_task], where [source] returns [None] and the
    condition of [conditional_task] is false of [None]. *)
Definition none_tasks (n : nat) : Task :=
  match n with
  | O => mkTask "source" [] (fun _ _ _ => Ok VNone) 0 1 2 None
  | _ => mkTask "conditional_task" ["value"]
                (fun _ _ _ => Ok (VStr "executed")) 0 1 2
                (Some (fun v => Ok (negb (is_none v))))
  end.

Definition none_registry : Registry :=
  rshift 0 1 (mkRegistry [0; 1]%nat none_tasks (fun _ => []) (fun _ => [])).

Lemma none_registry_wf : registry_wf none_registry.
Proof.
  apply rshift_wf; [by left | by right; left|].
  apply registry_wf_base. by apply (bool_decide_unpack _).
Qed.

Example none_registry_results :
  (fun s => (st_status s, map_to_list (results s), resolved s))
    <$> DAG_run none_registry [Work 0; Collect 0; Work 1; Collect 1] quiet_world
  = Some (Returned, [], [0; 1]%nat).
Proof. vm_compute. reflexivity. Qed.

Lemma none_results_witness :
  let E := DAG_engine none_registry in
  let sch := [Work 0; Collect 0; Work 1; Collect 1] in
  let s := exec E sch (start E quiet_world) in
  engine_wf E (upstream none_registry) /\
  engine_run E sch quiet_world = Some s /\
  (forall key, results s !! key ≠ Some VNone).
Proof.
  intros E sch s.
  assert (engine_wf E (upstream none_registry)) as Hwf
    by apply DAG_engine_wf, none_registry_wf.
  assert (engine_run E sch quiet_world = Some s) as Hrun
    by (vm_compute; reflexivity).
  split; [exact Hwf|]. split; [exact Hrun|].
  destruct (none_results E (upstream none_registry) sch quiet_world s Hwf Hrun)
    as (Hfalse & _).
  apply Hfalse. reflexivity.
Defined.

(** ** The graph a functional flow builds *)

Lemma dd_append_lookup (k x j : nat) (g : gmap nat (list nat)) :
  dd_append k x g !!! j = if decide (j = k) then (g !!! k) ++ [x] else g !!! j.
Proof.
  unfold dd_append. case_decide as H.
  - subst. apply lookup_total_insert_eq.
  - by apply lookup_total_insert_ne.
Qed.

(** Appending the edge [a -> b] to both maps keeps them mirrored. *)
Lemma dd_append_edges (a b : nat) (g rg : gmap nat (list nat)) :
  (forall x y, occ y (g !!! x) = occ x (rg !!! y)) ->
  forall x y, occ y (dd_append a b g !!! x) = occ x (dd_append b a rg !!! y).
Proof.
  intros H x y. rewrite !dd_append_lookup.
  destruct (decide (x = a)) as [->|Hx], (decide (y = b)) as [->|Hy];
    rewrite ?occ_app, ?occ_cons, ?occ_nil, H.
  - by rewrite !decide_True.
  - rewrite decide_False by done. lia.
  - rewrite decide_False by done. lia.
  - done.
Qed.

Section BuildFacts.
Variable objects : list AppliedTask.
Variable outputs : list node_ref.

(** An [AppliedTask] is constructed from inputs that exist already. *)
Definition heap_wf : Prop :=
  forall n a i, objects !! n = Some a -> RApplied i ∈ at_inputs a -> (i < n)%nat.

Definition orig_inputs (n : nat) : list node_ref :=
  match objects !! n with
  | Some a => at_inputs a
  | None => []
  end.

(** [i] is one of the recorded inputs of the constructed node [n]. *)
Definition input_edge (n i : nat) : Prop := RApplied i ∈ orig_inputs n.

(** Reachable by reverse traversal from a declared output. *)
Definition reachable (n : nat) : Prop :=
  exists o, RApplied o ∈ outputs /\ rtc input_edge o n.

Record tinv (ff : FunctionalFlow) : Prop := mkTinv {
  t_heap : exists extra, heap ff = objects ++ extra /\
                         Forall (fun a => at_inputs a = []) extra;
  t_nodup : NoDup (all_nodes ff);
  t_bound : forall n, n ∈ all_nodes ff -> (n < length (heap ff))%nat;
  t_down : forall a b, b ∈ ff_graph ff !!! a ->
                       a ∈ all_nodes ff /\ b ∈ all_nodes ff;
  t_up : forall a b, b ∈ ff_reverse_graph ff !!! a ->
                     a ∈ all_nodes ff /\ b ∈ all_nodes ff;
  t_edges : forall a b,
    occ b (ff_graph ff !!! a) = occ a (ff_reverse_graph ff !!! b);
  t_reach : forall n, n ∈ all_nodes ff -> (n < length objects)%nat ->
                      reachable n
}.

(** Every visited node that is not being traversed has its inputs visited. *)
Definition closed_under_inputs (ff : FunctionalFlow) (open : nat -> Prop)
    : Prop :=
  forall n, n ∈ all_nodes ff ->
    open n \/ forall i, input_edge n i -> i ∈ all_nodes ff.

Lemma inputs_of_tinv (ff : FunctionalFlow) (n : nat) :
  tinv ff -> inputs_of ff n = orig_inputs n.
Proof.
  intros [(extra & Hheap & Hextra) _ _ _ _ _ _].
  unfold inputs_of, orig_inputs. rewrite Hheap.
  destruct (objects !! n) as [a|] eqn:Ho.
  - by rewrite (lookup_app_l_Some _ _ _ _ Ho).
  - apply lookup_ge_None in Ho. rewrite lookup_app_r by done.
    destruct (extra !! _) as [a|] eqn:He; [|done].
    rewrite Forall_forall in Hextra. apply Hextra.
    by eapply list_elem_of_lookup_2.
Qed.

Lemma tinv_length (ff : FunctionalFlow) :
  tinv ff -> (length objects <= length (heap ff))%nat.
Proof.
  intros [(extra & -> & _) _ _ _ _ _ _]. rewrite length_app. lia.
Qed.

(** The node to visit is a constructed node, reachable, within the budget;
    or it is a bare layer. *)
Definition visitable (fuel : nat) (ff : FunctionalFlow) (node : node_ref)
    : Prop :=
  match node with
  | RApplied i =>
    (i < length (heap ff))%nat /\
    ((i < length objects)%nat -> reachable i /\ (i + 2 <= fuel)%nat)
  | RLayer _ => True
  end.

Definition traverse_post (ff : FunctionalFlow) (open : nat -> Prop)
    (ff' : FunctionalFlow) : Prop :=
  tinv ff' /\ closed_under_inputs ff' open /\
  (forall n, n ∈ all_nodes ff -> n ∈ all_nodes ff') /\
  (length (heap ff) <= length (heap ff'))%nat.

Lemma as_applied_tinv (ff : FunctionalFlow) (node : node_ref) (fuel : nat) :
  tinv ff -> visitable fuel ff node ->
  let '(n, ff1) := as_applied node ff in
  tinv ff1 /\ all_nodes ff1 = all_nodes ff /\
  (n < length (heap ff1))%nat /\
  (length (heap ff) <= length (heap ff1))%nat /\
  ((n < length objects)%nat -> reachable n /\ (n + 2 <= fuel)%nat) /\
  (forall j, node = RApplied j -> n = j).
Proof.
  intros Hinv Hvis. destruct node as [i|t]; simpl.
  - destruct Hvis as [Hlt Hreach].
    split; [done|]. split; [done|]. split; [done|]. split; [done|].
    split; [apply Hreach | by intros j [= ->]].
  - pose proof (tinv_length ff Hinv) as Hlen.
    destruct Hinv as [(extra & Hheap & Hextra) Hnd Hb Hd Hu He Hr].
    split; [split; simpl; try done|].
    + exists (extra ++ [mkApplied t []]). rewrite Hheap, app_assoc.
      split; [done|]. apply Forall_app. split; [done|]. by repeat constructor.
    + intros n Hn. rewrite length_app. apply Hb in Hn. lia.
    + rewrite length_app. simpl. repeat split; try lia. done.
Qed.

Lemma visitable_mono (fuel : nat) (ff ff' : FunctionalFlow) (node : node_ref) :
  (length (heap ff) <= length (heap ff'))%nat ->
  visitable fuel ff node -> visitable fuel ff' node.
Proof.
  intros Hlen. destruct node as [i|t]; [|done].
  intros [Hlt Hr]. split; [lia|done].
Qed.

Lemma closed_under_inputs_same (ff ff' : FunctionalFlow) (open : nat -> Prop) :
  all_nodes ff' = all_nodes ff ->
  closed_under_inputs ff open -> closed_under_inputs ff' open.
Proof. intros Heq Hc n. rewrite Heq. apply Hc. Qed.

Lemma add_edge_tinv (i node : nat) (ff : FunctionalFlow) :
  tinv ff -> i ∈ all_nodes ff -> node ∈ all_nodes ff ->
  tinv (add_edge i node ff).
Proof.
  intros [Hh Hnd Hb Hd Hu He Hr] Hi Hnode. split; simpl; try done.
  - intros a b. rewrite dd_append_lookup. case_decide; [|apply Hd].
    subst a. intros [Hin|Hin%list_elem_of_singleton]%elem_of_app.
    + by apply Hd in Hin.
    + by subst b.
  - intros a b. rewrite dd_append_lookup. case_decide; [|apply Hu].
    subst a. intros [Hin|Hin%list_elem_of_singleton]%elem_of_app.
    + by apply Hu in Hin.
    + by subst b.
  - by apply dd_append_edges.
Qed.

Lemma add_node_tinv (n : nat) (ff : FunctionalFlow) :
  tinv ff -> n ∉ all_nodes ff -> (n < length (heap ff))%nat ->
  ((n < length objects)%nat -> reachable n) ->
  tinv (add_node n ff).
Proof.
  intros [Hh Hnd Hb Hd Hu He Hr] Hn Hlt Hreach. split; simpl; try done.
  - apply NoDup_app. split; [done|]. split; [|apply NoDup_singleton].
    intros x Hx Hx'%list_elem_of_singleton. by subst.
  - intros m [Hm|Hm%list_elem_of_singleton]%elem_of_app;
      [by apply Hb | by subst].
  - intros a b Hin. apply Hd in Hin as [? ?].
    split; apply elem_of_app; by left.
  - intros a b Hin. apply Hu in Hin as [? ?].
    split; apply elem_of_app; by left.
  - intros m [Hm|Hm%list_elem_of_singleton]%elem_of_app Hlt';
      [by apply Hr | subst; by apply Hreach].
Qed.

Lemma traverse_post_refl (ff : FunctionalFlow) (open : nat -> Prop) :
  tinv ff -> closed_under_inputs ff open -> traverse_post ff open ff.
Proof. intros Hinv Hc. split; [done|]. split; [done|]. split; done. Qed.

Section Loop.
Variable fuel : nat.
Variable rec : FunctionalFlow -> node_ref -> option FunctionalFlow.
Hypothesis rec_spec : forall ff i open,
  (1 <= fuel)%nat -> tinv ff -> closed_under_inputs ff open ->
  visitable fuel ff (RApplied i) ->
  exists ff', rec ff (RApplied i) = Some ff' /\ traverse_post ff open ff' /\
              i ∈ all_nodes ff'.

Lemma traverse_inputs_spec (node : nat) (open : nat -> Prop)
    (inps : list node_ref) :
  forall ff,
    tinv ff -> node ∈ all_nodes ff -> closed_under_inputs ff open ->
    (forall inp, inp ∈ inps -> visitable fuel ff inp) ->
    (inps = [] \/ (1 <= fuel)%nat) ->
    exists ff', traverse_inputs rec node inps ff = Some ff' /\
      traverse_post ff open ff' /\
      forall i, RApplied i ∈ inps -> i ∈ all_nodes ff'.
Proof.
  induction inps as [|inp rest IH]; intros ff Hinv Hnode Hclosed Hvis Hfuel.
  { exists ff. split; [done|]. split; [by apply traverse_post_refl|].
    intros i Hi. by apply elem_of_nil in Hi. }
  destruct Hfuel as [?|Hfuel]; [done|]. simpl.
  pose proof (as_applied_tinv ff inp fuel Hinv (Hvis inp ltac:(left)))
    as Has.
  destruct (as_applied inp ff) as [i ff1].
  destruct Has as (Hinv1 & Hall1 & Hlt1 & Hlen1 & Hreach1 & Hwhich).
  destruct (rec_spec ff1 i open Hfuel Hinv1) as (ff2 & -> & Hpost2 & Hi2).
  { by eapply closed_under_inputs_same. }
  { by split. }
  destruct Hpost2 as (Hinv2 & Hclosed2 & Hmono2 & Hlen2).
  assert (node ∈ all_nodes ff2) as Hnode2.
  { apply Hmono2. by rewrite Hall1. }
  destruct (IH (add_edge i node ff2)) as (ff3 & -> & Hpost3 & Hall3).
  { by apply add_edge_tinv. }
  { done. }
  { done. }
  { intros inp' Hinp'. apply (visitable_mono fuel ff); [simpl; lia|].
    apply Hvis. by right. }
  { by right. }
  destruct Hpost3 as (Hinv3 & Hclosed3 & Hmono3 & Hlen3).
  exists ff3. split; [done|]. split.
  - split; [done|]. split; [done|]. split.
    + intros n Hn. apply Hmono3. simpl. apply Hmono2. by rewrite Hall1.
    + simpl in Hlen3. lia.
  - intros j [Hj|Hj]%elem_of_cons; [|by apply Hall3].
    rewrite <- (Hwhich j (eq_sym Hj)). by apply Hmono3.
Qed.

End Loop.

Lemma traverse_spec (heap_ok : heap_wf) (fuel : nat) :
  forall ff node open,
    tinv ff -> closed_under_inputs ff open ->
    visitable fuel ff node -> (1 <= fuel)%nat ->
    exists ff', traverse fuel ff node = Some ff' /\
      traverse_post ff open ff' /\ (as_applied node ff).1 ∈ all_nodes ff'.
Proof.
  induction fuel as [|fuel IH]; intros ff node open Hinv Hclosed Hvis Hfuel;
    [lia|].
  simpl.
  pose proof (as_applied_tinv ff node (S fuel) Hinv Hvis) as Has.
  destruct (as_applied node ff) as [n ff1]. simpl.
  destruct Has as (Hinv1 & Hall1 & Hlt1 & Hlen1 & Hreach1 & _).
  case_bool_decide as Hin.
  { exists ff1. split; [done|]. split; [|done].
    split; [done|]. split; [by eapply closed_under_inputs_same|].
    split; [by rewrite Hall1 | done]. }
  rewrite (inputs_of_tinv ff1 n Hinv1).
  assert (tinv (add_node n ff1)) as Hinv2.
  { apply add_node_tinv; try done. intros Hlt. by apply Hreach1. }
  destruct (traverse_inputs_spec fuel (traverse fuel) ) with
    (node := n) (open := fun m => open m \/ m = n)
    (inps := orig_inputs n) (ff := add_node n ff1)
    as (ff3 & -> & Hpost3 & Hall3).
  - intros ff0 i open0 Hpos Hinv0 Hclosed0 Hvis0. by apply IH.
  - done.
  - simpl. apply elem_of_app. right. by left.
  - intros m [Hm|Hm%list_elem_of_singleton]%elem_of_app.
    + rewrite Hall1 in Hm. destruct (Hclosed m Hm) as [?|Hc]; [by left; left|].
      right. intros i Hi. simpl. apply elem_of_app. left.
      rewrite Hall1. by apply Hc.
    + left. by right.
  - intros inp Hinp. destruct inp as [j|t]; [|done].
    unfold orig_inputs in Hinp.
    destruct (objects !! n) as [a|] eqn:Ho; [|by apply elem_of_nil in Hinp].
    pose proof (heap_ok n a j Ho Hinp) as Hjn.
    pose proof (lookup_lt_Some _ _ _ Ho) as Hn.
    destruct (Hreach1 Hn) as [(o & Ho' & Hrtc) Hf].
    split; [simpl; lia|]. intros _. split; [|lia].
    exists o. split; [done|]. eapply rtc_r; [done|].
    unfold input_edge, orig_inputs. by rewrite Ho.
  - unfold orig_inputs. destruct (objects !! n) as [a|] eqn:Ho; [|by left].
    right. pose proof (lookup_lt_Some _ _ _ Ho) as Hn.
    destruct (Hreach1 Hn) as [_ Hf]. lia.
  - destruct Hpost3 as (Hinv3 & Hclosed3 & Hmono3 & Hlen3).
    exists ff3. split; [done|]. split.
    + split; [done|]. split.
      * intros m Hm. destruct (Hclosed3 m Hm) as [[?|Heq]|?];
          [by left|subst m|by right].
        right. intros i Hi. by apply Hall3.
      * split; [|simpl in Hlen3; lia].
        intros m Hm. apply Hmono3. simpl. apply elem_of_app. left.
        by rewrite Hall1.
    + apply Hmono3. simpl. apply elem_of_app. right. by left.
Qed.

Definition never : nat -> Prop := fun _ => False.

Lemma build_fold_spec (heap_ok : heap_wf) (outs : list node_ref) :
  (forall o, RApplied o ∈ outs ->
     RApplied o ∈ outputs /\ (o < length objects)%nat) ->
  forall ff, tinv ff -> closed_under_inputs ff never ->
  exists ff',
    foldl (fun acc output =>
             match acc with
             | Some ff => traverse (S (length objects)) ff output
             | None => None
             end) (Some ff) outs = Some ff' /\
    traverse_post ff never ff' /\
    forall o, RApplied o ∈ outs -> o ∈ all_nodes ff'.
Proof.
  induction outs as [|out outs IH]; intros Houts ff Hinv Hclosed.
  { exists ff. split; [done|]. split; [by apply traverse_post_refl|].
    intros o Ho. by apply elem_of_nil in Ho. }
  cbn [foldl].
  destruct (traverse_spec heap_ok (S (length objects)) ff out never)
    as (ff1 & -> & (Hinv1 & Hclosed1 & Hmono1 & Hlen1) & Hin1);
    [done|done| |lia|].
  { destruct out as [o|t]; [|done].
    destruct (Houts o) as [Ho Hlt]; [left|].
    pose proof (tinv_length ff Hinv). split; [lia|]. intros _.
    split; [|lia]. exists o. split; [done|]. apply rtc_refl. }
  destruct (IH) with (ff := ff1)
    as (ff2 & -> & (Hinv2 & Hclosed2 & Hmono2 & Hlen2) & Hall2); [|done|done|].
  { intros o Ho. apply Houts. by right. }
  exists ff2. split; [done|]. split.
  - split; [done|]. split; [done|]. split; [|lia].
    intros n Hn. by apply Hmono2, Hmono1.
  - intros o [Ho|Ho]%elem_of_cons; [|by apply Hall2].
    subst out. simpl in Hin1. by apply Hmono2.
Qed.

Lemma initial_tinv : tinv (mkFunctional objects [] ∅ ∅).
Proof.
  split; simpl.
  - exists []. by rewrite app_nil_r.
  - apply NoDup_nil_2.
  - intros n Hn. by apply elem_of_nil in Hn.
  - intros a b. rewrite lookup_total_empty. intros H. by apply elem_of_nil in H.
  - intros a b. rewrite lookup_total_empty. intros H. by apply elem_of_nil in H.
  - intros a b. by rewrite !lookup_total_empty.
  - intros n Hn. by apply elem_of_nil in Hn.
Qed.

Lemma closed_reach (ff : FunctionalFlow) (x z : nat) :
  closed_under_inputs ff never -> x ∈ all_nodes ff -> rtc input_edge x z ->
  z ∈ all_nodes ff.
Proof.
  intros Hclosed Hx Hrtc. induction Hrtc as [|x y z Hxy _ IH]; [done|].
  apply IH. destruct (Hclosed x Hx) as [[]|Hc]. by apply Hc.
Qed.

(** [_build_graph] returns; the node set it builds holds exactly the
    constructed nodes that are reachable from the outputs (and the nodes it
    makes itself from bare layers), each once; and the two edge maps mirror
    each other and stay within the node set. *)
Lemma build_graph_spec (heap_ok : heap_wf) :
  (forall o, RApplied o ∈ outputs -> (o < length objects)%nat) ->
  exists ff, build_graph objects outputs = Some ff /\ tinv ff /\
    forall n, (n < length objects)%nat -> (n ∈ all_nodes ff <-> reachable n).
Proof.
  intros Houts.
  destruct (build_fold_spec heap_ok outputs) with
    (ff := mkFunctional objects [] ∅ ∅)
    as (ff & Hbuild & (Hinv & Hclosed & _ & _) & Hall).
  - intros o Ho. split; [done | by apply Houts].
  - apply initial_tinv.
  - intros n Hn. by apply elem_of_nil in Hn.
  - exists ff. split; [done|]. split; [done|].
    intros n Hn. split; [intros Hin; by apply (t_reach _ Hinv)|].
    intros (o & Ho & Hrtc). apply Hall in Ho. by eapply closed_reach.
Qed.

Lemma tinv_functional_wf (ff : FunctionalFlow) : tinv ff -> functional_wf ff.
Proof.
  intros [Hh Hnd Hb Hd Hu He Hr]. split; try done.
  - intros n d _ Hin. by apply Hd in Hin as [_ ?].
  - intros n u _ Hin. by apply Hu in Hin as [_ ?].
Qed.

Lemma tinv_fresh_inputs (ff : FunctionalFlow) (n : nat) :
  tinv ff -> (length objects <= n)%nat -> inputs_of ff n = [].
Proof.
  intros Hinv Hn. rewrite (inputs_of_tinv ff n Hinv). unfold orig_inputs.
  by rewrite (proj2 (lookup_ge_None objects n) Hn).
Qed.
End BuildFacts.

(** ** Reachability from the outputs *)



(** Four applied tasks, of which the third is not connected to the output:
    [a = A(); b = B(a); c = C(a); d = D(b)], with [outputs = d]. *)
Definition pruned_objs (n : nat) : Task :=
  match n with
  | 0%nat => mkTask "A" [] (fun _ _ _ => Ok (VInt 1)) 0 1 2 None
  | 1%nat => mkTask "B" ["A"]
               (fun _ _ kw => match kw with
                              | [(_, VInt x)] => Ok (VInt (x + 1))
                              | _ => Raise (TypeError "B")
                              end) 0 1 2 None
  | 2%nat => mkTask "C" ["A"] (fun _ _ _ => Ok (VInt 100)) 0 1 2 None
  | _ => mkTask "D" ["B"]
               (fun _ _ kw => match kw with
                              | [(_, VInt x)] => Ok (VInt (x * 2))
                              | _ => Raise (TypeError "D")
                              end) 0 1 2 None
  end.

Definition pruned_objects : list AppliedTask :=
  [mkApplied 0 []; mkApplied 1 [RApplied 0]; mkApplied 2 [RApplied 0];
   mkApplied 3 [RApplied 1]].

Definition pruned_outputs : list node_ref := [RApplied 3].



(** The graph built holds [d], [b] and [a], not [c]; the run executes these
    three and the results have no entry for [C]. *)
Example pruned_run :
  (fun ff => all_nodes ff) <$> build_graph pruned_objects pruned_outputs
    = Some [3; 1; 0]%nat /\
  (fun s => (st_status s, started s, map_to_list (results s)))
    <$> FunctionalFlow_build_and_run pruned_objs pruned_objects pruned_outputs
          [Work 0; Collect 0; Work 1; Collect 1; Work 2; Collect 2]
          quiet_world
  = Some (Returned, [0; 1; 3]%nat,
          [("A"%string, VInt 1); ("B"%string, VInt 2); ("D"%string, VInt 4)]).
Proof. split; vm_compute; reflexivity. Qed.


(** ** The graph the Flow builder makes *)

(** The edges of the two maps lie within [S] and mirror each other. *)
Record edges_within (f : Flow) (S : list nat) : Prop := mkEdgesWithin {
  ew_down : forall a b, b ∈ graph f !!! a -> a ∈ S /\ b ∈ S;
  ew_up : forall a b, b ∈ reverse_graph f !!! a -> a ∈ S /\ b ∈ S;
  ew_edges : forall a b,
    occ b (graph f !!! a) = occ a (reverse_graph f !!! b)
}.

(** What [add], [branch] and [merge] keep: every edge is between tasks of
    the list, and so is every branch point. *)
Definition flow_ok (f : Flow) : Prop :=
  edges_within f (tasks f) /\ forall b, b ∈ branch_points f -> b ∈ tasks f.

Lemma edges_within_mono (f : Flow) (S S' : list nat) :
  (forall x, x ∈ S -> x ∈ S') -> edges_within f S -> edges_within f S'.
Proof.
  intros Hsub [Hd Hu He]. split; [| |done].
  - intros a b Hab. destruct (Hd a b Hab). split; by apply Hsub.
  - intros a b Hab. destruct (Hu a b Hab). split; by apply Hsub.
Qed.

Lemma edges_within_same (f f' : Flow) (S : list nat) :
  graph f' = graph f -> reverse_graph f' = reverse_graph f ->
  edges_within f S -> edges_within f' S.
Proof.
  intros Hg Hr [Hd Hu He]. split.
  - intros a b. rewrite Hg. apply Hd.
  - intros a b. rewrite Hr. apply Hu.
  - intros a b. rewrite Hg, Hr. apply He.
Qed.

Lemma connect_within (a b : nat) (f : Flow) (S : list nat) :
  a ∈ S -> b ∈ S -> edges_within f S -> edges_within (connect a b f) S.
Proof.
  intros Ha Hb [Hd Hu He]. split; simpl.
  - intros x y. rewrite dd_append_lookup. case_decide as Hx.
    + subst x. rewrite elem_of_app, list_elem_of_singleton.
      intros [Hy| ->]; [by apply Hd | done].
    + apply Hd.
  - intros x y. rewrite dd_append_lookup. case_decide as Hx.
    + subst x. rewrite elem_of_app, list_elem_of_singleton.
      intros [Hy| ->]; [by apply Hu | done].
    + apply Hu.
  - by apply dd_append_edges.
Qed.

Lemma connect_tasks (a b : nat) (f : Flow) :
  tasks (connect a b f) = tasks f /\
  branch_points (connect a b f) = branch_points f.
Proof. done. Qed.

(** The inner loop of [branch]: [for branch_task in branch_tasks]. *)
Lemma connect_each_within (prev : nat) (bs : list nat) (f : Flow)
    (S : list nat) :
  prev ∈ S -> (forall b, b ∈ bs -> b ∈ S) -> edges_within f S ->
  edges_within (foldl (fun f b => connect prev b f) f bs) S /\
  tasks (foldl (fun f b => connect prev b f) f bs) = tasks f.
Proof.
  intros Hp. revert f. induction bs as [|b bs IH]; intros f Hbs Hf; [done|].
  cbn [foldl]. destruct (IH (connect prev b f)) as [H1 H2].
  - intros x Hx. apply Hbs. by right.
  - apply connect_within; [done| |done]. apply Hbs. by left.
  - done.
Qed.

(** The outer loop of [branch]: [for prev in prev_tasks]. *)
Lemma connect_all_within (prevs bs : list nat) (f : Flow) (S : list nat) :
  (forall p, p ∈ prevs -> p ∈ S) -> (forall b, b ∈ bs -> b ∈ S) ->
  edges_within f S ->
  edges_within
    (foldl (fun f prev => foldl (fun f b => connect prev b f) f bs) f prevs) S
  /\ tasks (foldl (fun f prev => foldl (fun f b => connect prev b f) f bs)
                  f prevs) = tasks f.
Proof.
  revert f. induction prevs as [|p prevs IH]; intros f Hps Hbs Hf; [done|].
  cbn [foldl].
  destruct (connect_each_within p bs f S) as [H1 H2]; [|done|done|].
  { apply Hps. by left. }
  destruct (IH (foldl (fun f b => connect p b f) f bs)) as [H3 H4];
    [|done|done|].
  { intros x Hx. apply Hps. by right. }
  split; [done|]. by rewrite H4.
Qed.

(** The loop of [merge]: [for branch in self._branch_points]. *)
Lemma connect_to_within (bps : list nat) (m : nat) (f : Flow) (S : list nat) :
  (forall p, p ∈ bps -> p ∈ S) -> m ∈ S -> edges_within f S ->
  edges_within (foldl (fun f b => connect b m f) f bps) S /\
  tasks (foldl (fun f b => connect b m f) f bps) = tasks f.
Proof.
  revert f. induction bps as [|p bps IH]; intros f Hps Hm Hf; [done|].
  cbn [foldl]. destruct (IH (connect p m f)) as [H1 H2]; [|done| |done].
  - intros x Hx. apply Hps. by right.
  - apply connect_within; [|done|done]. apply Hps. by left.
Qed.

Lemma append_task_once_spec (t : nat) (f : Flow) :
  graph (append_task_once t f) = graph f /\
  reverse_graph (append_task_once t f) = reverse_graph f /\
  forall x, x ∈ tasks (append_task_once t f) <-> x ∈ tasks f \/ x = t.
Proof.
  unfold append_task_once. case_bool_decide as Hin; simpl.
  - split; [done|]. split; [done|]. intros x. split; [by left|].
    by intros [?| ->].
  - split; [done|]. split; [done|]. intros x.
    by rewrite elem_of_app, list_elem_of_singleton.
Qed.

(** [for branch_task in branch_tasks: if branch_task not in self.tasks: ...] *)
Lemma append_each_once_spec (bs : list nat) (f : Flow) :
  graph (foldl (fun f b => append_task_once b f) f bs) = graph f /\
  reverse_graph (foldl (fun f b => append_task_once b f) f bs)
    = reverse_graph f /\
  forall x, x ∈ tasks (foldl (fun f b => append_task_once b f) f bs)
            <-> x ∈ tasks f \/ x ∈ bs.
Proof.
  revert f. induction bs as [|b bs IH]; intros f.
  { split; [done|]. split; [done|]. intros x. split; [by left|].
    intros [?|H]; [done | by apply elem_of_nil in H]. }
  cbn [foldl]. destruct (IH (append_task_once b f)) as (Hg & Hr & Ht).
  destruct (append_task_once_spec b f) as (Hg' & Hr' & Ht').
  split; [by rewrite Hg|]. split; [by rewrite Hr|].
  intros x. rewrite Ht, Ht', elem_of_cons. tauto.
Qed.

Lemma Flow_new_ok : flow_ok Flow_new.
Proof.
  split; [split|]; simpl.
  - intros a b. rewrite lookup_total_empty. intros H. by apply elem_of_nil in H.
  - intros a b. rewrite lookup_total_empty. intros H. by apply elem_of_nil in H.
  - intros a b. by rewrite !lookup_total_empty.
  - intros b H. by apply elem_of_nil in H.
Qed.

Lemma add_ok (task : nat) (f : Flow) : flow_ok f -> flow_ok (add task f).
Proof.
  intros [Hew Hbp]. unfold add.
  assert (edges_within (append_task task f) (tasks f ++ [task])) as H1.
  { apply (edges_within_same f); [done..|].
    apply (edges_within_mono f (tasks f)); [|done].
    intros x Hx. apply elem_of_app. by left. }
  assert (task ∈ tasks f ++ [task]) as Htask.
  { apply elem_of_app. right. by apply list_elem_of_singleton. }
  destruct (last (tasks f)) as [prev|] eqn:Hlast.
  - split; simpl.
    + apply (edges_within_same (connect prev task (append_task task f)));
        [done..|].
      apply connect_within; [|done|done].
      apply elem_of_app. left. apply last_Some in Hlast as [l' ->].
      apply elem_of_app. right. by apply list_elem_of_singleton.
    + intros b Hb. by apply list_elem_of_singleton in Hb as ->.
  - split; simpl.
    + by apply (edges_within_same (append_task task f)).
    + intros b Hb. by apply list_elem_of_singleton in Hb as ->.
Qed.

Lemma branch_ok (branch_tasks : list nat) (f f' : Flow) :
  flow_ok f -> branch branch_tasks f = Ok f' -> flow_ok f'.
Proof.
  intros [Hew Hbp]. unfold branch.
  destruct (branch_points f) as [|p ps] eqn:Hps; [done|].
  cbv zeta. intros [= <-].
  set (f1 := foldl (fun f prev => foldl (fun f b => connect prev b f) f
                                        branch_tasks) f (p :: ps)).
  set (f2 := foldl (fun f b => append_task_once b f) f1 branch_tasks).
  destruct (connect_all_within (p :: ps) branch_tasks f
              (tasks f ++ branch_tasks)) as [H1 Ht1].
  { intros x Hx. apply elem_of_app. left. by apply Hbp. }
  { intros x Hx. apply elem_of_app. by right. }
  { apply (edges_within_mono f (tasks f)); [|done].
    intros x Hx. apply elem_of_app. by left. }
  fold f1 in H1, Ht1.
  destruct (append_each_once_spec branch_tasks f1) as (Hg & Hr & Ht).
  fold f2 in Hg, Hr, Ht.
  split; simpl.
  - apply (edges_within_same f1); [done..|].
    apply (edges_within_mono f1 (tasks f ++ branch_tasks)); [|done].
    intros x Hx. apply Ht. rewrite Ht1. by apply elem_of_app.
  - intros b Hb. apply Ht. by right.
Qed.

Lemma merge_ok (merge_task : nat) (f f' : Flow) :
  flow_ok f -> merge merge_task f = Ok f' -> flow_ok f'.
Proof.
  intros [Hew Hbp]. unfold merge.
  destruct (branch_points f) as [|p ps] eqn:Hps; [done|].
  cbv zeta. intros [= <-].
  set (f1 := foldl (fun f b => connect b merge_task f) f (p :: ps)).
  destruct (connect_to_within (p :: ps) merge_task f
              (tasks f ++ [merge_task])) as [H1 Ht1].
  { intros x Hx. apply elem_of_app. left. by apply Hbp. }
  { apply elem_of_app. right. by apply list_elem_of_singleton. }
  { apply (edges_within_mono f (tasks f)); [|done].
    intros x Hx. apply elem_of_app. by left. }
  fold f1 in H1, Ht1.
  destruct (append_task_once_spec merge_task f1) as (Hg & Hr & Ht).
  split; simpl.
  - apply (edges_within_same f1); [done..|].
    apply (edges_within_mono f1 (tasks f ++ [merge_task])); [|done].
    intros x Hx. apply Ht. rewrite Ht1.
    by rewrite elem_of_app, list_elem_of_singleton in Hx.
  - intros b Hb. apply list_elem_of_singleton in Hb as ->. apply Ht.
    by right.
Qed.

(** When everything downstream is collected already,
    [_collect_transitive_tasks] adds nothing. *)
Lemma collect_downstream_known rec (ds collected : list nat) :
  (forall d, d ∈ ds -> d ∈ collected) ->
  collect_downstream rec ds collected = Some collected.
Proof.
  induction ds as [|d ds IH]; intros Hds; [done|]. simpl.
  rewrite bool_decide_true by (apply Hds; by left).
  apply IH. intros x Hx. apply Hds. by right.
Qed.

Lemma collect_all_known (fuel : nat) (g : gmap nat (list nat))
    (collected todo : list nat) :
  (forall a d, d ∈ g !!! a -> d ∈ collected) ->
  foldl (fun acc task =>
           match acc with
           | Some collected =>
             collect_transitive_tasks (S fuel) g collected task
           | None => None
           end) (Some collected) todo = Some collected.
Proof.
  intros Hg. induction todo as [|t todo IH]; [done|].
  cbn [foldl]. cbn [collect_transitive_tasks].
  rewrite collect_downstream_known; [done|]. intros d. apply Hg.
Qed.

(** For a flow made by [add], [branch] and [merge], [run] works on the tasks
    of the list, each once, and the graph is well formed. *)
Lemma Flow_all_tasks_built (f : Flow) :
  flow_ok f ->
  Flow_all_tasks f = Some (remove_dups (tasks f)) /\
  flow_wf f (remove_dups (tasks f)).
Proof.
  intros [[Hd Hu He] Hbp]. split.
  - unfold Flow_all_tasks. apply collect_all_known.
    intros a d Had. apply elem_of_remove_dups. by apply (Hd a d).
  - split.
    + apply NoDup_remove_dups.
    + intros n d _ Hnd. apply elem_of_remove_dups. by apply (Hd n d).
    + intros n u _ Hnu. apply elem_of_remove_dups. by apply (Hu n u).
    + done.
Qed.

(** [Flow.run] on a flow made by the builder returns or raises, under every
    schedule. *)
Lemma Flow_run_total (objs : nat -> Task) (f : Flow) (sch : list action)
    (w : World) :
  flow_ok f -> is_Some (Flow_run objs f sch w).
Proof.
  intros Hok. destruct (Flow_all_tasks_built f Hok) as [Hall Hwf].
  unfold Flow_run. rewrite Hall. apply engine_run_total.
  intros n d. apply (wf_down _ _ (Flow_engine_wf objs f _ Hwf)).
Qed.

(** The flow of the example in the docstring of [merge]:
    [add(t0).branch(t1, t2).merge(t3)]. *)
Example Flow_builder_example :
  (fun f => (tasks f, (fun t => graph f !!! t) <$> [0; 1; 2; 3]%nat,
             branch_points f))
    <$> (match branch [1; 2]%nat (add 0%nat Flow_new) with
         | Ok f => match merge 3%nat f with Ok f' => Some f' | _ => None end
         | _ => None
         end)
  = Some ([0; 1; 2; 3]%nat,
          [[1; 2]; [3]; [3]; []]%nat, [3%nat]).
Proof. vm_compute. reflexivity. Qed.

(** * Further properties of the engine *)

(** ** Accounting of the retry loop *)






(** The same task with a negative delay: the first wait is negative, and
    the call ends in [time.sleep] after one invocation of the body, with
    two retries left. *)
Example negative_delay_call :
  let t := mkTask "my_task" [] (func flaky_task) 3 (-1) 2 None in
  exists w', Task_call t [] [] quiet_world = Some (Raise negative_sleep, w') /\
             calls_of "my_task" (trace w') = 1%nat /\
             retries_of "my_task" (trace w') = 1%nat /\
             last (trace w') = Some (EvSleep (-1 + 0)).
Proof. eexists. split; [vm_compute; reflexivity|]. by vm_compute. Qed.

(** ** The waits of the retry loop *)

(** The value of [current_delay] after [k] retries, computed as the loop
    computes it: [current_delay *= self.backoff], [k] times. *)
Fixpoint delay_after (t : Task) (k : nat) (d : Q) : Q :=
  match k with
  | O => d
  | S k' => delay_after t k' (d * backoff t)%Q
  end.

Lemma delay_after_power (t : Task) (k : nat) (d : Q) :
  (delay_after t k d == d * backoff t ^ Z.of_nat k)%Q.
Proof.
  revert d. induction k as [|k IH]; intros d.
  - simpl. ring.
  - cbn [delay_after]. rewrite IH.
    replace (Z.of_nat (S k)) with (1 + Z.of_nat k) by lia.
    rewrite Qpower_plus' by lia. simpl. ring.
Qed.

Lemma retry_loop_delays (t : Task) args kwargs (fuel : nat) (attempt : Z)
    (d : Q) (w : World) r w' :
  0 <= attempt ->
  retry_loop fuel t args kwargs attempt d w = Some (r, w') ->
  exists ext, trace w' = trace w ++ ext /\
    forall m att mx dl, EvRetry m att mx dl ∈ ext ->
      exists k : nat,
        att = attempt + 1 + Z.of_nat k /\ att <= retries t /\
        m = name t /\ mx = retries t /\
        dl = (delay_after t k d
              + random_uniform w (draws w + k)%nat 0
                  (delay_after t k d * (1 # 10)))%Q /\
        exists l1 l2, ext = l1 ++ EvRetry m att mx dl :: EvSleep dl :: l2.
Proof.
  revert attempt d w. induction fuel as [|fuel IH]; intros attempt d w Ha;
    [done|].
  simpl. destruct (func t (trace w) args kwargs) as [v|e].
  { intros [= <- <-]. eexists [_; _]. simpl. rewrite <- app_assoc.
    split; [done|]. intros m att mx dl Hin.
    apply elem_of_cons in Hin as [?|Hin]; [done|].
    apply list_elem_of_singleton in Hin. done. }
  destruct (Z.ltb_spec (retries t) (attempt + 1)) as [Hlt|Hge].
  { intros [= <- <-]. eexists [_; _]. simpl. rewrite <- app_assoc.
    split; [done|]. intros m att mx dl Hin.
    apply elem_of_cons in Hin as [?|Hin]; [done|].
    apply list_elem_of_singleton in Hin. done. }
  destruct (Z.ltb_spec 0 (retries t)) as [Hpos|Hneg]; [|lia].
  destruct (Qle_bool 0 _).
  2:{ intros [= <- <-]. eexists [_; _; _]. simpl. rewrite <- !app_assoc.
      split; [done|]. intros m att mx dl Hin.
      apply elem_of_cons in Hin as [?|Hin]; [done|].
      apply elem_of_cons in Hin as [Heq|Hin].
      2:{ apply list_elem_of_singleton in Hin. done. }
      injection Heq as -> -> -> ->. exists 0%nat. simpl.
      rewrite Nat.add_0_r. split; [lia|]. split; [lia|].
      split; [done|]. split; [done|]. split; [done|].
      by exists [EvCall (name t) args kwargs], []. }
  intros Hrun. apply IH in Hrun as (ext & Htr & Hext); [|lia].
  simpl in Htr.
  set (dl0 := (d + random_uniform w (draws w) 0 (d * (1 # 10)))%Q) in *.
  exists (EvCall (name t) args kwargs
            :: EvRetry (name t) (attempt + 1) (retries t) dl0
            :: EvSleep dl0 :: ext).
  split; [by rewrite Htr, <- !app_assoc|].
  intros m att mx dl Hin.
  apply elem_of_cons in Hin as [?|Hin]; [done|].
  apply elem_of_cons in Hin as [Heq|Hin].
  { injection Heq as -> -> -> ->. exists 0%nat. simpl.
    rewrite Nat.add_0_r. split; [lia|]. split; [lia|].
    split; [done|]. split; [done|]. split; [done|].
    by exists [EvCall (name t) args kwargs], ext. }
  apply elem_of_cons in Hin as [?|Hin]; [done|].
  destruct (Hext m att mx dl Hin)
    as (k & -> & Hle & -> & -> & Hdl & l1 & l2 & Hl).
  exists (S k). simpl in Hdl. cbn [delay_after].
  replace (draws w + S k)%nat with (S (draws w + k)) by lia.
  split; [lia|]. split; [lia|]. split; [done|]. split; [done|].
  split; [exact Hdl|].
  exists (EvCall (name t) args kwargs
            :: EvRetry (name t) (attempt + 1) (retries t) dl0
            :: EvSleep dl0 :: l1), l2.
  by rewrite Hl.
Qed.

(** X2. Every retry event of a call of a task has the number of the failed
    attempt, between 1 and [retries], and a wait that is the current delay
    plus the jitter drawn for it, where the current delay of the [k+1]-th
    retry is [delay * backoff ^ k] and the jitter is drawn from
    [random.uniform(0, 0.1 * current_delay)]: the wait lies between the
    current delay and 1.1 times it. The event is followed at once by the
    sleep of that wait. The delays start from [delay] in each call. *)
Theorem backoff_schedule (t : Task) args kwargs (w : World) r w' :
  Task_call t args kwargs w = Some (r, w') ->
  forall m att mx dl, EvRetry m att mx dl ∈ new_events w w' ->
    exists k : nat,
      att = Z.of_nat k + 1 /\ att <= retries t /\
      m = name t /\ mx = retries t /\
      let dk := delay_after t k (delay t) in
      (dk == delay t * backoff t ^ Z.of_nat k)%Q /\
      dl = (dk + random_uniform w (draws w + k)%nat 0 (dk * (1 # 10)))%Q /\
      (uniform_in_range w -> (0 <= dk)%Q ->
       (dk <= dl)%Q /\ (dl <= dk + dk * (1 # 10))%Q) /\
      exists l1 l2,
        new_events w w' = l1 ++ EvRetry m att mx dl :: EvSleep dl :: l2.
Proof.
  assert (forall w0 ev, trace w0 = trace w ++ [ev] ->
            random_uniform w0 = random_uniform w -> draws w0 = draws w ->
            (forall a b c d0, ev ≠ EvRetry a b c d0) ->
            retry_loop (S (Z.to_nat (retries t))) t args kwargs 0 (delay t) w0
            = Some (r, w') ->
            forall m att mx dl, EvRetry m att mx dl ∈ new_events w w' ->
            exists k : nat,
              att = Z.of_nat k + 1 /\ att <= retries t /\
              m = name t /\ mx = retries t /\
              let dk := delay_after t k (delay t) in
              (dk == delay t * backoff t ^ Z.of_nat k)%Q /\
              dl = (dk + random_uniform w (draws w + k)%nat 0
                           (dk * (1 # 10)))%Q /\
              (uniform_in_range w -> (0 <= dk)%Q ->
               (dk <= dl)%Q /\ (dl <= dk + dk * (1 # 10))%Q) /\
              exists l1 l2,
                new_events w w'
                = l1 ++ EvRetry m att mx dl :: EvSleep dl :: l2) as Hrun.
  { intros w0 ev Htr0 Hru Hdr Hev Hloop m att mx dl Hin.
    apply retry_loop_delays in Hloop as (ext & Htr & Hext); [|lia].
    rewrite Htr0, <- app_assoc in Htr.
    rewrite (new_events_app _ _ _ Htr) in Hin |- *.
    apply elem_of_cons in Hin as [Heq|Hin]; [by apply eq_sym, Hev in Heq|].
    destruct (Hext m att mx dl Hin)
      as (k & -> & Hle & -> & -> & Hdl & l1 & l2 & Hl).
    rewrite Hru, Hdr in Hdl.
    exists k. split; [lia|]. split; [lia|]. split; [done|]. split; [done|].
    cbv zeta. split; [apply delay_after_power|]. split; [exact Hdl|].
    split.
    - intros Huni Hpos. rewrite Hdl.
      destruct (Huni (draws w + k)%nat 0%Q
                  (delay_after t k (delay t) * (1 # 10))%Q) as [Hlo Hhi].
      { apply Qmult_le_0_compat; [done | discriminate]. }
      split.
      + rewrite <- (Qplus_0_r (delay_after t k (delay t))) at 1.
        by apply Qplus_le_r.
      + by apply Qplus_le_r.
    - exists (ev :: l1), l2. by rewrite Hl. }
  unfold Task_call. destruct (when t) as [cond|].
  - destruct args as [|a rest].
    { intros [= <- <-] m att mx dl Hin. unfold new_events in Hin.
      simpl in Hin. rewrite drop_app_length in Hin.
      by apply list_elem_of_singleton in Hin. }
    destruct (cond a) as [[|]|e].
    + by apply (Hrun (emit (EvStart (name t)) w) (EvStart (name t))).
    + intros [= <- <-] m att mx dl Hin. unfold new_events in Hin.
      simpl in Hin. rewrite drop_app_length in Hin.
      by apply list_elem_of_singleton in Hin.
    + intros [= <- <-] m att mx dl Hin. unfold new_events in Hin.
      rewrite drop_all in Hin. by apply elem_of_nil in Hin.
  - by apply (Hrun (emit (EvStart (name t)) w) (EvStart (name t))).
Qed.

Lemma backoff_schedule_witness :
  exists r w', Task_call flaky_task [] [] quiet_world = Some (r, w') /\
  EvRetry "my_task" 2 3 (1 * 2 + 0)%Q ∈ new_events quiet_world w' /\
  exists k : nat,
    2 = Z.of_nat k + 1 /\ 2 <= retries flaky_task /\
    "my_task"%string = name flaky_task /\ 3 = retries flaky_task /\
    let dk := delay_after flaky_task k (delay flaky_task) in
    (dk == delay flaky_task * backoff flaky_task ^ Z.of_nat k)%Q /\
    (1 * 2 + 0)%Q
    = (dk + random_uniform quiet_world (draws quiet_world + k)%nat 0
              (dk * (1 # 10)))%Q /\
    (uniform_in_range quiet_world -> (0 <= dk)%Q ->
     (dk <= 1 * 2 + 0)%Q /\ (1 * 2 + 0 <= dk + dk * (1 # 10))%Q) /\
    exists l1 l2,
      new_events quiet_world w'
      = l1 ++ EvRetry "my_task" 2 3 (1 * 2 + 0)%Q
           :: EvSleep (1 * 2 + 0)%Q :: l2.
Proof.
  eexists _, _. split; [vm_compute; reflexivity|].
  assert (EvRetry "my_task" 2 3 (1 * 2 + 0)%Q
          ∈ new_events quiet_world
              (mkWorld [EvStart "my_task"; EvCall "my_task" [] [];
                        EvRetry "my_task" 1 3 (1 + 0)%Q; EvSleep (1 + 0)%Q;
                        EvCall "my_task" [] [];
                        EvRetry "my_task" 2 3 (1 * 2 + 0)%Q;
                        EvSleep (1 * 2 + 0)%Q;
                        EvCall "my_task" [] []; EvSuccess "my_task"]
                       (random_uniform quiet_world) 2)) as Hin.
  { unfold new_events. simpl. do 5 right. left. }
  split; [exact Hin|].
  apply (backoff_schedule flaky_task [] [] quiet_world (Ok (VStr "success")));
    [vm_compute; reflexivity | exact Hin].
Defined.

(** ** The condition of a task in [Flow] and [FunctionalFlow] *)

(** X3. In [Flow._execute_task] and [FunctionalFlow._execute_node] the
    predicate [when] of a task is never consulted. A task that has one is
    either called raw, when an entry of the results matches a parameter
    name, or called without arguments and therefore skipped for want of
    upstream data; which of the two does not depend on the predicate. *)
Theorem condition_never_consulted (t : Task) (cond : value -> result bool)
    (res : gmap string value) (w : World) :
  when t = Some cond ->
  let skip := Some (Ok VNone, emit (EvSkip (name t) "no upstream data") w) in
  let outcome := match filter_kwargs (params t) res with
                 | [] => skip
                 | kwargs => Some (call_func t [] kwargs w)
                 end in
  Flow_execute_task t res w = outcome /\
  forall objs ff n, node_task objs ff n = Some t ->
    FunctionalFlow_execute_node objs ff n res w
    = match inputs_of ff n with
      | [] => skip
      | _ => outcome
      end.
Proof.
  intros Hw skip outcome.
  assert (Task_call t [] [] w = skip) as Hskip
    by by eapply Task_call_skip_no_args.
  split.
  - unfold Flow_execute_task, outcome. case_bool_decide as He.
    + subst res. by rewrite filter_kwargs_empty.
    + by destruct (filter_kwargs (params t) res).
  - intros objs ff n Hn. unfold FunctionalFlow_execute_node, outcome.
    rewrite Hn. destruct (inputs_of ff n); [done|].
    by destruct (filter_kwargs (params t) res).
Qed.

Lemma condition_never_consulted_witness :
  when (conditional_objs 0) = Some (fun v => Ok (match v with
                                                | VInt x => 50 <? x
                                                | _ => false
                                                end)) /\
  Flow_execute_task (conditional_objs 0) {["value" := VInt 7]} quiet_world
  = Some (call_func (conditional_objs 0) [] [("value"%string, VInt 7)]
            quiet_world) /\
  Flow_execute_task (conditional_objs 0) {["other" := VInt 70]} quiet_world
  = Some (Ok VNone,
          emit (EvSkip "conditional_task" "no upstream data") quiet_world).
Proof.
  split; [reflexivity|].
  split.
  - exact (proj1 (condition_never_consulted (conditional_objs 0) _
                    {["value" := VInt 7]} quiet_world eq_refl)).
  - exact (proj1 (condition_never_consulted (conditional_objs 0) _
                    {["other" := VInt 70]} quiet_world eq_refl)).
Defined.

(** ** Further invariants of the scheduling loop *)

Section RunFacts.
Context {P : Type}.
Variable E : Engine P.
Variable up : nat -> list nat.
Hypothesis engine_ok : engine_wf E up.

(** The futures the loop over the downstream nodes adds are appended to the
    pool, not yet run, and carry the payload made from the results as they
    are during that loop. *)
Lemma unlock_pool_app (ds : list nat) (s : state P) :
  exists extra,
    pool (unlock E ds s) = pool s ++ extra /\
    Forall (fun f => fut_result f = None /\
                     fut_payload f = e_payload E (fut_node f) (results s))
           extra.
Proof.
  revert s. induction ds as [|d ds IH]; intros s.
  { exists []. by rewrite app_nil_r. }
  simpl. destruct (indegree s !! d) as [deg|].
  2:{ exists []. by rewrite app_nil_r. }
  destruct (deg - 1 =? 0).
  - match goal with
    | |- context [unlock E ds ?s2] =>
        destruct (IH s2) as (extra & Hp & Hall)
    end.
    eexists (_ :: extra). rewrite Hp. simpl. rewrite <- app_assoc.
    split; [done|]. by constructor.
  - match goal with
    | |- context [unlock E ds ?s2] =>
        destruct (IH s2) as (extra & Hp & Hall)
    end.
    by exists extra.
Qed.

Lemma collect_pool_app (k : nat) (s s' : state P) :
  collect E k s = Some s' ->
  exists extra,
    pool s' = pool s ++ extra /\
    Forall (fun f => fut_result f = None /\
                     fut_payload f = e_payload E (fut_node f) (results s'))
           extra.
Proof.
  unfold collect. destruct (st_status s); try done.
  case_bool_decide; [|done].
  destruct (pool s !! k) as [[n p [[v|e]|]]|]; try done.
  - intros [= <-]. rewrite next_round_pool.
    rewrite (proj1 (next_round_frame _)).
    rewrite (proj1 (proj2 (unlock_frame E _ _))).
    match goal with
    | |- context [unlock E ?ds ?s1] =>
        destruct (unlock_pool_app ds s1) as (extra & Hp & Hall)
    end.
    by exists extra.
  - intros [= <-]. exists []. by rewrite app_nil_r.
Qed.

(** *** What a future is given *)

(** The payload of a future is the one made before the loop, for a node
    without upstream nodes, or it was made from a state [res0] of the Result
    Store that the store still extends, in which each upstream node of the
    future's node was resolved and had left what it returns. *)
Definition fed (s : state P) : Prop :=
  forall j f, pool s !! j = Some f ->
    (up (fut_node f) = [] /\
     e_first_payload E (fut_node f) = Ok (fut_payload f)) \/
    exists res0, fut_payload f = e_payload E (fut_node f) res0 /\
      res0 ⊆ results s /\
      forall u, u ∈ up (fut_node f) ->
        u ∈ resolved s /\
        forall ku pu v, pool s !! ku = Some (mkFuture u pu (Some (Ok v))) ->
          res0 !! e_name E u = entry_of E v.

Lemma step_fed (a : action) (s s' : state P) :
  names_unique E -> inv E up s -> store_inv E s -> fed s ->
  step E a s = Some s' -> fed s'.
Proof.
  intros Hu Hinv Hs Hfed Hstep.
  pose proof (inv_core _ _ _ Hinv) as Hc.
  pose proof (step_inv E up engine_ok a s s' Hinv Hstep) as Hinv'.
  pose proof (step_store_inv E up engine_ok a s s' Hinv Hs Hstep) as Hs'.
  pose proof (step_results_mono E up engine_ok a s s' Hu Hinv Hs Hstep)
    as Hmono.
  destruct a as [k|k]; simpl in Hstep.
  - apply work_shape in Hstep as (n & p & r & w' & Hk & Hex & ->).
    intros j f Hj. simpl in Hj.
    assert (exists f0, pool s !! j = Some f0 /\ fut_node f0 = fut_node f /\
                       fut_payload f0 = fut_payload f) as (f0 & Hj0 & Hn0 & Hp0).
    { destruct (decide (j = k)) as [->|Hne].
      - rewrite list_lookup_insert_eq in Hj by by eapply lookup_lt_Some.
        injection Hj as <-. by eexists.
      - rewrite list_lookup_insert_ne in Hj by done. by eexists. }
    destruct (Hfed j f0 Hj0) as [Hnil|(res0 & Hpay & Hsub & Hup)].
    { left. by rewrite <- Hn0, <- Hp0. }
    right. exists res0. rewrite <- Hn0, <- Hp0. split; [done|].
    split; [done|]. intros u Hin. destruct (Hup u Hin) as [Hur Hent].
    split; [done|]. simpl. intros ku pu v Hku.
    destruct (decide (ku = k)) as [->|Hne].
    + exfalso.
      rewrite list_lookup_insert_eq in Hku by by eapply lookup_lt_Some.
      injection Hku as Hn _ _. subst u.
      destruct (core_resolved _ _ _ _ Hc n Hur) as (k' & p' & v' & Hk' & _).
      assert (k' = k) as -> by (eapply pool_node_inj; [apply Hc|done..]).
      congruence.
    + rewrite list_lookup_insert_ne in Hku by done. by eapply Hent.
  - destruct (collect_pool_app k s s' Hstep) as (extra & Hpool & Hextra).
    apply collect_shape in Hstep as (n & p & r & Hk & Hst & Hkb & Hr).
    assert (forall m, m ∈ resolved s -> m ∈ resolved s') as Hrmono.
    { destruct r as [v|e].
      - destruct Hr as (_ & -> & _). intros m Hm. apply elem_of_app. by left.
      - by destruct Hr as (_ & -> & _). }
    intros j f Hj. rewrite Hpool in Hj.
    apply lookup_app_Some in Hj as [Hj|[Hlen Hj]].
    + destruct (Hfed j f Hj) as [Hnil|(res0 & Hpay & Hsub & Hup)];
        [by left|].
      right. exists res0. split; [done|]. split; [by etrans|].
      intros u Hin. destruct (Hup u Hin) as [Hur Hent].
      split; [by apply Hrmono|]. intros ku pu v Hku. rewrite Hpool in Hku.
      apply lookup_app_Some in Hku as [Hku|[_ Hku]]; [by eapply Hent|].
      exfalso. rewrite Forall_forall in Hextra.
      destruct (Hextra _ (list_elem_of_lookup_2 _ _ _ Hku)) as [Hnone _].
      done.
    + rewrite Forall_forall in Hextra.
      destruct (Hextra _ (list_elem_of_lookup_2 _ _ _ Hj)) as [Hnone Hpay].
      right. exists (results s'). split; [done|]. split; [done|].
      assert (fut_node f ∈ submitted s') as Hsub.
      { apply elem_of_submitted. exists j, f. split; [|done].
        rewrite Hpool. apply lookup_app_Some. by right. }
      assert (fut_node f ∈ e_nodes E) as Hnode
        by by apply (core_nodes _ _ _ _ (inv_core _ _ _ Hinv')).
      intros u Hin. split.
      * by apply (inv_ready E up s' (fut_node f) Hinv' Hnode).
      * intros ku pu v Hku.
        eapply (store_entry E s' Hs' Hu); [|exact Hku].
        by apply (inv_ready E up s' (fut_node f) Hinv' Hnode).
Qed.

Lemma submit_ready_pool (ts : list nat) (s : state P) j f :
  pool (submit_ready E ts s) !! j = Some f ->
  pool s !! j = Some f \/
  (fut_node f ∈ ts /\ e_first_payload E (fut_node f) = Ok (fut_payload f)).
Proof.
  revert s. induction ts as [|t ts IH]; intros s; [by left|].
  simpl. destruct (e_first_payload E t) as [p|e] eqn:Hp; [|by left].
  intros [Hj|[Hin Hf]]%IH.
  - apply lookup_pool_submit in Hj as [Hj|[_ ->]]; [by left|].
    right. simpl. split; [left | done].
  - right. split; [by right | done].
Qed.

Lemma start_fed (w : World) : fed (start E w).
Proof.
  intros j f Hj. left. unfold start in Hj. rewrite next_round_pool in Hj.
  apply submit_ready_pool in Hj as [Hj|[Hin Hf]].
  { simpl in Hj. by rewrite lookup_nil in Hj. }
  split; [|done]. by apply (elem_of_ready E up engine_ok) in Hin as [_ ?].
Qed.

Lemma run_fed (sch : list action) (w : World) :
  names_unique E -> fed (exec E sch (start E w)).
Proof.
  intros Hu.
  assert (inv E up (start E w) /\ store_inv E (start E w) /\ fed (start E w))
    as Hstart.
  { split; [by apply start_inv|]. split; [|apply start_fed].
    apply start_store_inv.
    intros t [Ht Hup]%(elem_of_ready E up engine_ok).
    by apply (wf_first _ _ engine_ok). }
  revert Hstart. generalize (start E w).
  induction sch as [|a sch IH]; intros s (Hi & Hs & Hf); [done|].
  simpl. destruct (step E a s) as [s'|] eqn:Hstep; [|by apply IH].
  apply IH. split; [by eapply step_inv|].
  split; [by eapply step_store_inv | by eapply step_fed].
Qed.

(** *** The order of completion *)

(** Each resolved node comes after its upstream nodes in [resolved]. *)
Definition ordered (s : state P) : Prop :=
  forall i n, resolved s !! i = Some n ->
    forall u, u ∈ up n ->
      exists j, (j < i)%nat /\ resolved s !! j = Some u.

Lemma step_ordered (a : action) (s s' : state P) :
  inv E up s -> ordered s -> step E a s = Some s' -> ordered s'.
Proof.
  intros Hinv Hord Hstep. pose proof (inv_core _ _ _ Hinv) as Hc.
  destruct a as [k|k]; simpl in Hstep.
  - by apply work_shape in Hstep as (n & p & r & w' & Hk & Hex & ->).
  - apply collect_shape in Hstep as (n & p & r & Hk & Hst & Hkb & Hr).
    destruct r as [v|e].
    2:{ destruct Hr as (_ & Hrsv & _). unfold ordered. by rewrite Hrsv. }
    destruct Hr as (_ & Hrsv & _). unfold ordered. rewrite Hrsv.
    intros i m Hi u Hin. apply lookup_app_Some in Hi as [Hi|[Hlen Hi]].
    + destruct (Hord i m Hi u Hin) as (j & Hlt & Hj).
      exists j. split; [done|]. apply lookup_app_Some. by left.
    + apply list_lookup_singleton_Some in Hi as [Hi0 <-].
      assert (n ∈ submitted s) as Hsub.
      { apply elem_of_submitted. by eexists k, _. }
      assert (u ∈ resolved s) as Hur.
      { apply (inv_ready E up s n Hinv); [|done..].
        by apply (core_nodes _ _ _ _ Hc). }
      apply list_elem_of_lookup in Hur as [j Hj].
      exists j. split; [apply lookup_lt_Some in Hj; lia|].
      apply lookup_app_Some. by left.
Qed.

Lemma run_ordered (sch : list action) (w : World) :
  ordered (exec E sch (start E w)).
Proof.
  assert (inv E up (start E w) /\ ordered (start E w)) as Hstart.
  { split; [by apply start_inv|]. intros i n Hi.
    unfold start in Hi. rewrite (proj2 (next_round_frame _)) in Hi.
    destruct (submit_ready_spec E (ready E) (initial_state E w))
      as (_ & _ & _ & H4 & _).
    { intros t [Ht Hup]%(elem_of_ready E up engine_ok).
      by apply (wf_first _ _ engine_ok). }
    rewrite H4 in Hi. simpl in Hi. by rewrite lookup_nil in Hi. }
  revert Hstart. generalize (start E w).
  induction sch as [|a sch IH]; intros s (Hi & Ho); [done|].
  simpl. destruct (step E a s) as [s'|] eqn:Hstep; [|by apply IH].
  apply IH. split; [by eapply step_inv | by eapply step_ordered].
Qed.

(** *** Progress and termination *)

(** What a worker runs returns or raises. *)
Definition execute_total : Prop :=
  forall n p res w, n ∈ e_nodes E -> is_Some (e_execute E n p res w).

(** While [run] has neither returned nor raised, a worker can run a future
    or the orchestrating thread can collect one. *)
Lemma progress (s : state P) :
  execute_total -> inv E up s -> st_status s = Running ->
  exists a s', step E a s = Some s'.
Proof.
  intros Htot Hinv Hrun. pose proof (inv_core _ _ _ Hinv) as Hc.
  destruct (batch s) as [|k b] eqn:Hb;
    [by apply (inv_running _ _ _ Hinv) in Hrun|].
  assert (k ∈ batch s) as Hkb by (rewrite Hb; left).
  destruct (core_futures _ _ _ _ Hc k) as (f & Hk & _);
    [by apply (core_batch _ _ _ _ Hc)|].
  destruct f as [n p [r|]].
  - exists (Collect k). simpl. unfold collect. rewrite Hrun.
    rewrite bool_decide_true by done. rewrite Hk. destruct r; by eexists.
  - exists (Work k). simpl. unfold work. rewrite Hk.
    destruct (Htot n p (results s) (world s)) as [[r w'] ->]; [|by eexists].
    apply (core_nodes _ _ _ _ Hc), elem_of_submitted. by eexists k, _.
Qed.

(** The steps of a schedule that are taken. *)
Fixpoint steps_taken (sch : list action) (s : state P) : nat :=
  match sch with
  | [] => 0
  | a :: rest =>
    match step E a s with
    | Some s' => S (steps_taken rest s')
    | None => steps_taken rest s
    end
  end.

(** The steps that are left at most: one run per node not yet run, and,
    while the loop goes on, one collection per node not yet resolved. *)
Definition budget (s : state P) : nat :=
  (length (e_nodes E) - length (started s)) +
  match st_status s with
  | Running => length (e_nodes E) - length (resolved s)
  | _ => 0
  end.

Lemma started_NoDup (s : state P) : inv E up s -> NoDup (started s).
Proof.
  intros Hinv. eapply sublist_NoDup; [apply (inv_core _ _ _ Hinv)|].
  unfold started, submitted. apply fmap_sublist, sublist_filter.
Qed.

Lemma started_bound (s : state P) :
  inv E up s -> (length (started s) <= length (e_nodes E))%nat.
Proof.
  intros Hinv. apply submseteq_length, NoDup_submseteq;
    [by apply started_NoDup|].
  intros n Hn. apply (core_nodes _ _ _ _ (inv_core _ _ _ Hinv)).
  by apply started_subseteq.
Qed.

Lemma resolved_bound (s : state P) :
  inv E up s -> (length (resolved s) <= length (e_nodes E))%nat.
Proof.
  intros Hinv. pose proof (inv_core _ _ _ Hinv) as Hc.
  apply submseteq_length, NoDup_submseteq; [apply Hc|].
  intros n Hn. apply (core_nodes _ _ _ _ Hc).
  by eapply core_resolved_submitted.
Qed.

Lemma length_filter_insert {A} (Q : A -> Prop) `{!forall x, Decision (Q x)}
    (l : list A) (k : nat) (x y : A) :
  l !! k = Some x -> ~ Q x -> Q y ->
  length (filter Q (<[k := y]> l)) = S (length (filter Q l)).
Proof.
  revert k. induction l as [|z l IH]; intros k Hk Hx Hy; [done|].
  destruct k as [|k]; simpl in Hk.
  - injection Hk as ->. simpl.
    rewrite filter_cons_True by done. by rewrite filter_cons_False by done.
  - simpl. rewrite !filter_cons. specialize (IH k Hk Hx Hy).
    destruct (decide (Q z)); simpl; lia.
Qed.

Lemma step_budget (a : action) (s s' : state P) :
  inv E up s -> step E a s = Some s' -> (budget s' < budget s)%nat.
Proof.
  intros Hinv Hstep. pose proof (inv_core _ _ _ Hinv) as Hc.
  pose proof (step_inv E up engine_ok a s s' Hinv Hstep) as Hinv'.
  pose proof (started_bound s' Hinv') as Hsb.
  pose proof (resolved_bound s' Hinv') as Hrb.
  unfold budget in *. destruct a as [k|k]; simpl in Hstep.
  - apply work_shape in Hstep as (n & p & r & w' & Hk & Hex & ->).
    simpl in *. unfold started in *. simpl in *.
    rewrite !length_fmap in *.
    pose proof (length_filter_insert
                  (fun f : future P => fut_result f ≠ None) (pool s) k
                  (mkFuture n p None) (mkFuture n p (Some r)) Hk) as Hlen.
    rewrite Hlen in Hsb |- * by (simpl; congruence).
    destruct (st_status s); lia.
  - destruct (collect_pool_app k s s' Hstep) as (extra & Hpool & Hextra).
    assert (started s' = started s) as Hst'.
    { unfold started. rewrite Hpool, filter_app.
      assert (filter (fun f : future P => fut_result f ≠ None) extra = [])
        as ->; [|by rewrite app_nil_r].
      clear Hpool. induction Hextra as [|f extra [Hf _] _ IH]; [done|].
      rewrite filter_cons_False; [exact IH|]. intros H. by apply H. }
    apply collect_shape in Hstep as (n & p & r & Hk & Hrun & Hkb & Hr).
    rewrite Hst', Hrun. destruct r as [v|e].
    + destruct Hr as (_ & Hrsv & _). rewrite Hrsv, length_app in *.
      simpl in *. destruct (st_status s'); lia.
    + destruct Hr as (_ & Hrsv & _ & Hraised). rewrite Hraised.
      assert (S (length (resolved s)) <= length (e_nodes E))%nat; [|lia].
      destruct (core_futures _ _ _ _ Hc k) as (f & Hf & Hnf);
        [by apply (core_batch _ _ _ _ Hc)|].
      rewrite Hk in Hf. injection Hf as <-. simpl in Hnf.
      change (S (length (resolved s))) with (length (n :: resolved s)).
      apply submseteq_length, NoDup_submseteq.
      * constructor; [done | apply Hc].
      * intros m [->|Hm]%elem_of_cons; apply (core_nodes _ _ _ _ Hc).
        -- apply elem_of_submitted. by eexists k, _.
        -- by eapply core_resolved_submitted.
Qed.

Lemma steps_taken_budget (sch : list action) (s : state P) :
  inv E up s -> (steps_taken sch s <= budget s)%nat.
Proof.
  revert s. induction sch as [|a sch IH]; intros s Hinv; simpl; [lia|].
  destruct (step E a s) as [s'|] eqn:Hstep; [|by apply IH].
  pose proof (step_budget a s s' Hinv Hstep).
  pose proof (IH s' (step_inv E up engine_ok a s s' Hinv Hstep)). lia.
Qed.

Lemma budget_start (w : World) :
  (budget (start E w) <= 2 * length (e_nodes E))%nat.
Proof. unfold budget. destruct (st_status (start E w)); lia. Qed.

Lemma reaches_end (s : state P) :
  execute_total -> inv E up s ->
  exists sch, st_status (exec E sch s) ≠ Running.
Proof.
  intros Htot. remember (budget s) as b eqn:Hb. revert s Hb.
  induction (lt_wf b) as [b _ IH]. intros s -> Hinv.
  destruct (st_status s) eqn:Hrun;
    [|exists []; simpl; by rewrite Hrun..].
  destruct (progress s Htot Hinv Hrun) as (a & s' & Hstep).
  destruct (IH (budget s') (step_budget a s s' Hinv Hstep) s' eq_refl)
    as [sch Hsch]; [by eapply step_inv|].
  exists (a :: sch). simpl. by rewrite Hstep.
Qed.

(** *** After [run] has returned or raised *)

Lemma step_after_end (a : action) (s s' : state P) :
  inv E up s -> st_status s ≠ Running -> step E a s = Some s' ->
  (exists e, st_status s = Raised e) /\
  st_status s' = st_status s /\ results s' = results s /\
  resolved s' = resolved s /\ submitted s' = submitted s /\
  futures s' = futures s /\ indegree s' = indegree s.
Proof.
  intros Hinv Hst Hstep. pose proof (inv_core _ _ _ Hinv) as Hc.
  destruct a as [k|k]; simpl in Hstep.
  2:{ by apply collect_shape in Hstep as (n & p & r & _ & Hrun & _). }
  apply work_shape in Hstep as (n & p & r & w' & Hk & Hex & ->). simpl.
  split.
  - destruct (st_status s) as [| |e] eqn:Hs; [done| |by eexists].
    exfalso.
    destruct (core_pool _ _ _ _ Hc k _ Hk) as [Hin|(e & He & _)].
    + simpl. intros Hn.
      destruct (core_resolved _ _ _ _ Hc n Hn) as (k' & p' & v' & Hk' & _).
      assert (k' = k) as -> by (eapply pool_node_inj; [apply Hc|done..]).
      congruence.
    + rewrite (inv_returned _ _ _ Hinv Hs) in Hin. by apply elem_of_nil in Hin.
    + congruence.
  - repeat split; try done. unfold submitted. simpl.
    by eapply submitted_insert_result.
Qed.

Lemma exec_after_end (sch : list action) (s : state P) :
  inv E up s -> st_status s ≠ Running ->
  st_status (exec E sch s) = st_status s /\
  results (exec E sch s) = results s /\
  resolved (exec E sch s) = resolved s /\
  submitted (exec E sch s) = submitted s /\
  futures (exec E sch s) = futures s /\
  (st_status s = Returned -> exec E sch s = s).
Proof.
  revert s. induction sch as [|a sch IH]; intros s Hinv Hst; [done|].
  simpl. destruct (step E a s) as [s'|] eqn:Hstep; [|by apply IH].
  destruct (step_after_end a s s' Hinv Hst Hstep)
    as ([e He] & H1 & H2 & H3 & H4 & H5 & _).
  destruct (IH s') as (G1 & G2 & G3 & G4 & G5 & _);
    [by eapply step_inv | by rewrite H1 |].
  rewrite G1, G2, G3, G4, G5, H1, H2, H3, H4, H5.
  repeat split; try done. intros Hret. congruence.
Qed.

End RunFacts.

(** ** What each front end hands to a node *)

(** X4. [DAG.run] calls a task with one positional argument per upstream
    task, in the order of [task.upstream]: the argument is what that
    upstream task returned ([None] included), and the upstream task was
    collected before the task was submitted. *)
Theorem DAG_arguments (r : Registry) (sch : list action) (w : World)
    (s : state (list value)) :
  registry_wf r -> names_unique (DAG_engine r) ->
  DAG_run r sch w = Some s ->
  forall j f, pool s !! j = Some f ->
    length (fut_payload f) = length (upstream r (fut_node f)) /\
    forall i u, upstream r (fut_node f) !! i = Some u ->
      exists ku pu v,
        pool s !! ku = Some (mkFuture u pu (Some (Ok v))) /\
        u ∈ resolved s /\ fut_payload f !! i = Some v.
Proof.
  intros Hr Hu Hrun j f Hj.
  pose proof (DAG_engine_wf r Hr) as Hwf.
  apply engine_run_state in Hrun as [(st & -> & _)|(-> & _ & _)].
  { simpl in Hj. by rewrite lookup_nil in Hj. }
  pose proof (run_inv _ _ Hwf sch w) as Hinv.
  destruct (run_fed _ _ Hwf sch w Hu j f Hj)
    as [[Hnil Hfirst]|(res0 & Hpay & Hsub & Hup)].
  { rewrite Hnil. simpl in Hfirst. unfold DAG_first_args in Hfirst.
    rewrite Hnil in Hfirst. simpl in Hfirst. injection Hfirst as <-.
    split; [done|]. intros i u Hi. by rewrite lookup_nil in Hi. }
  simpl in Hpay. rewrite Hpay. unfold DAG_args.
  split; [by rewrite length_fmap|]. intros i u Hi.
  destruct (Hup u (list_elem_of_lookup_2 _ _ _ Hi)) as [Hur Hent].
  destruct (core_resolved _ _ _ _ (inv_core _ _ _ Hinv) u Hur)
    as (ku & pu & v & Hku & _).
  exists ku, pu, v. split; [done|]. split; [done|].
  rewrite list_lookup_fmap, Hi. simpl. f_equal.
  change (task_name r u) with (e_name (DAG_engine r) u).
  rewrite (Hent ku pu v Hku). unfold entry_of. simpl. by destruct v.
Qed.

Lemma DAG_arguments_witness :
  let sch := [Work 0; Collect 0; Work 1; Work 2; Collect 2; Collect 1] in
  let s := exec (DAG_engine diamond) sch (start (DAG_engine diamond)
                                            quiet_world) in
  registry_wf diamond /\ names_unique (DAG_engine diamond) /\
  DAG_run diamond sch quiet_world = Some s /\
  pool s !! 3%nat = Some (mkFuture 3 [VInt 20; VInt 15] None) /\
  forall j f, pool s !! j = Some f ->
    length (fut_payload f) = length (upstream diamond (fut_node f)) /\
    forall i u, upstream diamond (fut_node f) !! i = Some u ->
      exists ku pu v,
        pool s !! ku = Some (mkFuture u pu (Some (Ok v))) /\
        u ∈ resolved s /\ fut_payload f !! i = Some v.
Proof.
  intros sch s.
  assert (DAG_run diamond sch quiet_world = Some s) as Hrun
    by (vm_compute; reflexivity).
  split; [exact diamond_wf|]. split; [exact diamond_names_unique|].
  split; [exact Hrun|]. split; [vm_compute; reflexivity|].
  exact (DAG_arguments diamond sch quiet_world s diamond_wf
           diamond_names_unique Hrun).
Defined.

(** X5. In [Flow.run] the keyword dictionary a task is submitted with is
    a copy of the results taken when the task became ready: every entry of
    it is an entry of the results, and for each upstream task it holds what
    that task returned, under its name, unless that was [None]; so a
    parameter named after an upstream task that returned a value receives
    that value. *)
Theorem Flow_snapshot (objs : nat -> Task) (f : Flow) (all : list nat)
    (sch : list action) (w : World) (s : state (gmap string value)) :
  Flow_all_tasks f = Some all -> flow_wf f all ->
  names_unique (Flow_engine objs f all) ->
  Flow_run objs f sch w = Some s ->
  forall j fu, pool s !! j = Some fu ->
    fut_payload fu ⊆ results s /\
    forall u, u ∈ reverse_graph f !!! fut_node fu ->
      exists ku pu v,
        pool s !! ku = Some (mkFuture u pu (Some (Ok v))) /\
        u ∈ resolved s /\
        fut_payload fu !! name (objs u)
        = (if is_none v then None else Some v) /\
        (is_none v = false ->
         name (objs u) ∈ params (objs (fut_node fu)) ->
         (name (objs u), v)
         ∈ filter_kwargs (params (objs (fut_node fu))) (fut_payload fu)).
Proof.
  intros Hall Hf Hu Hrun j fu Hj. unfold Flow_run in Hrun.
  rewrite Hall in Hrun. pose proof (Flow_engine_wf objs f all Hf) as Hwf.
  apply engine_run_state in Hrun as [(st & -> & _)|(-> & _ & _)].
  { simpl in Hj. by rewrite lookup_nil in Hj. }
  pose proof (run_inv _ _ Hwf sch w) as Hinv.
  destruct (run_fed _ _ Hwf sch w Hu j fu Hj)
    as [[Hnil Hfirst]|(res0 & Hpay & Hsub & Hup)].
  { simpl in Hnil, Hfirst. injection Hfirst as <-.
    split; [apply map_empty_subseteq|]. intros u Hin.
    rewrite Hnil in Hin. by apply elem_of_nil in Hin. }
  simpl in Hpay. subst res0. split; [done|]. intros u Hin.
  destruct (Hup u Hin) as [Hur Hent].
  destruct (core_resolved _ _ _ _ (inv_core _ _ _ Hinv) u Hur)
    as (ku & pu & v & Hku & _).
  exists ku, pu, v. split; [done|]. split; [done|].
  assert (fut_payload fu !! name (objs u)
          = (if is_none v then None else Some v)) as Hlook.
  { change (name (objs u)) with (e_name (Flow_engine objs f all) u).
    rewrite (Hent ku pu v Hku). unfold entry_of. simpl. by destruct v. }
  split; [done|]. intros Hv Hp. apply elem_of_filter_kwargs.
  split; [done|]. by rewrite Hlook, Hv.
Qed.

(** The diamond as a flow: [add(R).branch(A, B).merge(M)], the tasks taking
    the results of their upstream tasks by name. *)
Definition named_tasks (n : nat) : Task :=
  match n with
  | 0%nat => mkTask "R" [] (fun _ _ _ => Ok (VInt 10)) 0 1 2 None
  | 1%nat => mkTask "A" ["R"]
               (fun _ _ kw => match kw with
                              | [(_, VInt x)] => Ok (VInt (x * 2))
                              | _ => Raise (TypeError "A")
                              end) 0 1 2 None
  | 2%nat => mkTask "B" ["R"]
               (fun _ _ kw => match kw with
                              | [(_, VInt x)] => Ok (VInt (x + 5))
                              | _ => Raise (TypeError "B")
                              end) 0 1 2 None
  | _ => mkTask "M" ["A"; "B"]
           (fun _ _ kw => match kw with
                          | [(_, VInt x); (_, VInt y)] => Ok (VInt (x + y))
                          | _ => Raise (TypeError "M")
                          end) 0 1 2 None
  end.

Definition diamond_flow : Flow :=
  match branch [1; 2]%nat (add 0%nat Flow_new) with
  | Ok f => match merge 3%nat f with Ok f' => f' | Raise _ => Flow_new end
  | Raise _ => Flow_new
  end.

Lemma diamond_flow_ok : flow_ok diamond_flow.
Proof.
  apply (merge_ok 3%nat
           (mkFlow [0; 1; 2]%nat {[0%nat := [1; 2]%nat]}
                   {[1%nat := [0%nat]; 2%nat := [0%nat]]} [1; 2]%nat));
    [|vm_compute; reflexivity].
  apply (branch_ok [1; 2]%nat (add 0%nat Flow_new));
    [|vm_compute; reflexivity].
  apply add_ok, Flow_new_ok.
Qed.

Lemma diamond_flow_names :
  names_unique (Flow_engine named_tasks diamond_flow [0; 1; 2; 3]%nat).
Proof.
  apply names_unique_by_nodup. apply (bool_decide_unpack _).
  vm_compute. reflexivity.
Qed.

Lemma Flow_snapshot_witness :
  let sch := [Work 0; Collect 0; Work 1; Work 2; Collect 2; Collect 1] in
  let E := Flow_engine named_tasks diamond_flow [0; 1; 2; 3]%nat in
  let s := exec E sch (start E quiet_world) in
  Flow_all_tasks diamond_flow = Some [0; 1; 2; 3]%nat /\
  flow_wf diamond_flow [0; 1; 2; 3]%nat /\ names_unique E /\
  Flow_run named_tasks diamond_flow sch quiet_world = Some s /\
  (fut_payload <$> pool s !! 3%nat)
  = Some ({["R" := VInt 10; "A" := VInt 20; "B" := VInt 15]}
          : gmap string value) /\
  forall j fu, pool s !! j = Some fu ->
    fut_payload fu ⊆ results s /\
    forall u, u ∈ reverse_graph diamond_flow !!! fut_node fu ->
      exists ku pu v,
        pool s !! ku = Some (mkFuture u pu (Some (Ok v))) /\
        u ∈ resolved s /\
        fut_payload fu !! name (named_tasks u)
        = (if is_none v then None else Some v) /\
        (is_none v = false ->
         name (named_tasks u) ∈ params (named_tasks (fut_node fu)) ->
         (name (named_tasks u), v)
         ∈ filter_kwargs (params (named_tasks (fut_node fu)))
             (fut_payload fu)).
Proof.
  intros sch E s.
  destruct (Flow_all_tasks_built diamond_flow diamond_flow_ok)
    as [Hall Hwf].
  change (remove_dups (tasks diamond_flow)) with [0; 1; 2; 3]%nat
    in Hall, Hwf.
  assert (Flow_run named_tasks diamond_flow sch quiet_world = Some s)
    as Hrun by (vm_compute; reflexivity).
  split; [exact Hall|]. split; [exact Hwf|].
  split; [exact diamond_flow_names|]. split; [exact Hrun|].
  split; [vm_compute; reflexivity|].
  exact (Flow_snapshot named_tasks diamond_flow [0; 1; 2; 3]%nat sch
           quiet_world s Hall Hwf diamond_flow_names Hrun).
Defined.

(** X6. In [FunctionalFlow.run] a worker reads the shared dictionary of
    results when it runs a node. At that moment every upstream node of the
    node has been collected and the dictionary holds what it returned under
    its name, [None] included; so a parameter named after an upstream node
    receives that value. *)
Theorem Functional_inputs_available (objs : nat -> Task) (ff : FunctionalFlow)
    (sch : list action) (w : World) (s : state unit) :
  functional_wf ff -> names_unique (Functional_engine objs ff) ->
  FunctionalFlow_run objs ff sch w = Some s ->
  forall k s', work (Functional_engine objs ff) k s = Some s' ->
    exists n r w',
      pool s !! k = Some (mkFuture n tt None) /\
      FunctionalFlow_execute_node objs ff n (results s) (world s)
      = Some (r, w') /\
      pool s' !! k = Some (mkFuture n tt (Some r)) /\
      forall u, u ∈ ff_reverse_graph ff !!! n ->
        exists ku v,
          pool s !! ku = Some (mkFuture u tt (Some (Ok v))) /\
          u ∈ resolved s /\
          results s !! node_name objs ff u = Some v /\
          (forall t, node_task objs ff n = Some t ->
             node_name objs ff u ∈ params t ->
             (node_name objs ff u, v) ∈ filter_kwargs (params t) (results s)).
Proof.
  intros Hf Hu Hrun k s' Hwork.
  pose proof (Functional_engine_wf objs ff Hf) as Hwf.
  apply work_shape in Hwork as (n & [] & r & w' & Hk & Hex & ->).
  exists n, r, w'. split; [done|]. split; [done|]. split.
  { simpl. apply list_lookup_insert_eq. by eapply lookup_lt_Some. }
  unfold FunctionalFlow_run in Hrun.
  apply engine_run_state in Hrun as [(st & -> & _)|(-> & _ & _)].
  { simpl in Hk. by rewrite lookup_nil in Hk. }
  pose proof (run_inv _ _ Hwf sch w) as Hinv.
  pose proof (run_store_inv _ _ Hwf sch w) as Hs.
  pose proof (inv_core _ _ _ Hinv) as Hc.
  assert (n ∈ submitted (exec (Functional_engine objs ff) sch
                           (start (Functional_engine objs ff) w))) as Hsub.
  { apply elem_of_submitted. by eexists k, _. }
  intros u Hin.
  assert (u ∈ resolved (exec (Functional_engine objs ff) sch
                          (start (Functional_engine objs ff) w))) as Hur.
  { apply (inv_ready _ _ _ n Hinv); [|done..].
    by apply (core_nodes _ _ _ _ Hc). }
  destruct (core_resolved _ _ _ _ Hc u Hur) as (ku & [] & v & Hku & _).
  exists ku, v. split; [done|]. split; [done|].
  pose proof (store_entry _ _ Hs Hu u ku tt v Hur Hku) as Hent.
  unfold entry_of in Hent. simpl in Hent.
  split; [done|]. intros t _ Hp. by apply elem_of_filter_kwargs.
Qed.

(** The diamond with the Functional API. *)
Definition diamond_objects : list AppliedTask :=
  [mkApplied 0 []; mkApplied 1 [RApplied 0]; mkApplied 2 [RApplied 0];
   mkApplied 3 [RApplied 1; RApplied 2]].

Definition diamond_functional : FunctionalFlow :=
  default (mkFunctional [] [] ∅ ∅) (build_graph diamond_objects [RApplied 3]).

Lemma diamond_heap_wf : heap_wf diamond_objects.
Proof.
  intros n a i Hn Hi.
  destruct n as [|[|[|[|n]]]]; simpl in Hn; try discriminate Hn;
    injection Hn as <-; simpl in Hi;
    repeat (apply elem_of_cons in Hi as [Hi|Hi]; [injection Hi as ->; lia|]);
    by apply elem_of_nil in Hi.
Qed.

Lemma diamond_functional_wf : functional_wf diamond_functional.
Proof.
  destruct (build_graph_spec diamond_objects [RApplied 3] diamond_heap_wf)
    as (ff & Hb & Hinv & _).
  { intros o Ho. apply list_elem_of_singleton in Ho. injection Ho as ->.
    simpl. lia. }
  unfold diamond_functional. rewrite Hb. simpl.
  by apply (tinv_functional_wf diamond_objects [RApplied 3]).
Qed.

Lemma diamond_functional_names :
  names_unique (Functional_engine named_tasks diamond_functional).
Proof.
  apply names_unique_by_nodup. apply (bool_decide_unpack _).
  vm_compute. reflexivity.
Qed.

Lemma Functional_inputs_available_witness :
  let E := Functional_engine named_tasks diamond_functional in
  let sch := [Work 0; Collect 0; Work 1; Work 2; Collect 2; Collect 1] in
  let s := exec E sch (start E quiet_world) in
  functional_wf diamond_functional /\ names_unique E /\
  FunctionalFlow_run named_tasks diamond_functional sch quiet_world = Some s /\
  exists s', work E 3 s = Some s' /\
    exists n r w',
      pool s !! 3%nat = Some (mkFuture n tt None) /\
      FunctionalFlow_execute_node named_tasks diamond_functional n
        (results s) (world s) = Some (r, w') /\
      pool s' !! 3%nat = Some (mkFuture n tt (Some r)) /\
      forall u, u ∈ ff_reverse_graph diamond_functional !!! n ->
        exists ku v,
          pool s !! ku = Some (mkFuture u tt (Some (Ok v))) /\
          u ∈ resolved s /\
          results s !! node_name named_tasks diamond_functional u = Some v /\
          (forall t, node_task named_tasks diamond_functional n = Some t ->
             node_name named_tasks diamond_functional u ∈ params t ->
             (node_name named_tasks diamond_functional u, v)
             ∈ filter_kwargs (params t) (results s)).
Proof.
  intros E sch s.
  assert (FunctionalFlow_run named_tasks diamond_functional sch quiet_world
          = Some s) as Hrun by (vm_compute; reflexivity).
  split; [exact diamond_functional_wf|].
  split; [exact diamond_functional_names|]. split; [exact Hrun|].
  eexists. split; [vm_compute; reflexivity|].
  apply (Functional_inputs_available named_tasks diamond_functional sch
           quiet_world s diamond_functional_wf diamond_functional_names Hrun).
  vm_compute. reflexivity.
Defined.

(** ** The run as a whole *)

(** X7. The order in which [run] counts nodes as completed is a topological
    order: every collected node is a node of the graph and comes after each
    of its upstream nodes; and when [run] returns normally the collected
    nodes are all the nodes, each once. *)
Theorem completion_order {P} (E : Engine P) (up : nat -> list nat)
    (sch : list action) (w : World) (s : state P) :
  engine_wf E up ->
  engine_run E sch w = Some s ->
  (forall i n, resolved s !! i = Some n ->
     n ∈ e_nodes E /\
     forall u, u ∈ up n ->
       exists j, (j < i)%nat /\ resolved s !! j = Some u) /\
  (st_status s = Returned -> resolved s ≡ₚ e_nodes E).
Proof.
  intros Hwf Hrun.
  destruct (engine_run_state E sch w s Hrun)
    as [(st & -> & Hnil)|(-> & _ & Hcheck)].
  { split; [intros i n Hi; simpl in Hi; by rewrite lookup_nil in Hi|].
    simpl. intros Hst. by rewrite (Hnil Hst). }
  pose proof (run_inv E up Hwf sch w) as Hinv.
  pose proof (inv_core _ _ _ Hinv) as Hc. split.
  - intros i n Hi. split; [|by apply (run_ordered E up Hwf sch w i n)].
    apply (core_nodes _ _ _ _ Hc).
    eapply core_resolved_submitted; [exact Hc|].
    by eapply list_elem_of_lookup_2.
  - intros Hret. apply NoDup_Permutation; [apply Hc | apply Hwf|].
    intros n. split.
    + intros Hn. apply (core_nodes _ _ _ _ Hc).
      by eapply core_resolved_submitted.
    + apply (all_resolved E up Hwf); try done.
      * apply acyclic_by_check; [|done]. intros a d. apply (wf_down _ _ Hwf).
      * by apply (inv_returned _ _ _ Hinv).
      * intros e He. by rewrite Hret in He.
Qed.

Lemma completion_order_witness :
  let E := DAG_engine diamond in
  let s := exec E diamond_schedule (start E quiet_world) in
  engine_wf E (upstream diamond) /\
  engine_run E diamond_schedule quiet_world = Some s /\
  resolved s = [0; 2; 1; 3]%nat /\
  (forall i n, resolved s !! i = Some n ->
     n ∈ e_nodes E /\
     forall u, u ∈ upstream diamond n ->
       exists j, (j < i)%nat /\ resolved s !! j = Some u) /\
  (st_status s = Returned -> resolved s ≡ₚ e_nodes E).
Proof.
  intros E s.
  assert (engine_wf E (upstream diamond)) as Hwf
    by apply DAG_engine_wf, diamond_wf.
  assert (engine_run E diamond_schedule quiet_world = Some s) as Hrun
    by (vm_compute; reflexivity).
  split; [exact Hwf|]. split; [exact Hrun|].
  split; [vm_compute; reflexivity|].
  exact (completion_order E (upstream diamond) diamond_schedule quiet_world s
           Hwf Hrun).
Defined.

Lemma DAG_execute_total (r : Registry) : execute_total (DAG_engine r).
Proof. intros n p res w _. apply Task_call_total. Qed.

Lemma Flow_execute_total (objs : nat -> Task) (f : Flow) (all : list nat) :
  execute_total (Flow_engine objs f all).
Proof.
  intros n p res w _. simpl. unfold Flow_execute_task.
  case_bool_decide; [apply Task_call_total|].
  destruct (filter_kwargs _ _); [apply Task_call_total | by eexists].
Qed.

(** [run] either raised or returned before the pool was made, whatever the
    schedule, or it is in the state the schedule leads to. *)
Lemma engine_run_cases {P} (E : Engine P) (sch : list action) (w : World)
    (s : state P) :
  engine_run E sch w = Some s ->
  (s = exec E sch (start E w) /\
   forall sch', engine_run E sch' w = Some (exec E sch' (start E w))) \/
  (st_status s ≠ Running /\ forall sch', engine_run E sch' w = Some s).
Proof.
  unfold engine_run. destruct (e_nodes E) as [|n ns].
  { intros [= <-]. by right. }
  destruct (has_cycle (e_down E) (n :: ns)) as [[[|]|e]|]; intros [= <-].
  - by right.
  - by left.
  - by right.
Qed.

(** X8. The scheduling loop cannot hang and cannot go on for ever: while
    [run] has neither returned nor raised, some worker can run a submitted
    future or some finished future can be collected; a run takes at most two
    steps per node, the call and the collection; and every run can be
    carried on to the point where [run] returns or raises. *)
Theorem run_terminates {P} (E : Engine P) (up : nat -> list nat)
    (w : World) :
  engine_wf E up -> execute_total E ->
  (forall sch,
     (steps_taken E sch (start E w) <= 2 * length (e_nodes E))%nat) /\
  (forall sch s, engine_run E sch w = Some s -> st_status s = Running ->
     exists a s', step E a s = Some s') /\
  (forall sch s, engine_run E sch w = Some s ->
     exists sch' s', engine_run E (sch ++ sch') w = Some s' /\
                     st_status s' ≠ Running).
Proof.
  intros Hwf Htot. split; [|split].
  - intros sch. etrans; [|apply (budget_start E w)].
    apply (steps_taken_budget E up Hwf). by apply start_inv.
  - intros sch s Hrun Hst.
    destruct (engine_run_cases E sch w s Hrun) as [(-> & _)|(Hend & _)];
      [|done].
    apply (progress E up); try done. by apply run_inv.
  - intros sch s Hrun.
    destruct (engine_run_cases E sch w s Hrun) as [(-> & Hex)|(Hend & Hall)].
    + destruct (reaches_end E up Hwf (exec E sch (start E w)) Htot)
        as [sch' Hsch']; [by apply run_inv|].
      exists sch', (exec E sch' (exec E sch (start E w))).
      split; [|done]. by rewrite Hex, exec_app.
    + exists [], s. split; [apply Hall | done].
Qed.

Lemma run_terminates_witness :
  let E := DAG_engine diamond in
  engine_wf E (upstream diamond) /\ execute_total E /\
  (forall sch,
     (steps_taken E sch (start E quiet_world) <= 2 * length (e_nodes E))%nat) /\
  (forall sch s, engine_run E sch quiet_world = Some s ->
     st_status s = Running -> exists a s', step E a s = Some s') /\
  (forall sch s, engine_run E sch quiet_world = Some s ->
     exists sch' s', engine_run E (sch ++ sch') quiet_world = Some s' /\
                     st_status s' ≠ Running).
Proof.
  intros E.
  assert (engine_wf E (upstream diamond)) as Hwf
    by apply DAG_engine_wf, diamond_wf.
  split; [exact Hwf|]. split; [exact (DAG_execute_total diamond)|].
  exact (run_terminates E (upstream diamond) quiet_world Hwf
           (DAG_execute_total diamond)).
Defined.

(** ** Retry exhaustion in a run *)




Section RetryExhaustion.
Variable r : Registry.
Variable T : nat.
Variable e : exn.
Hypothesis registry_ok : registry_wf r.
Hypothesis names_ok : names_unique (DAG_engine r).
Hypothesis T_registered : T ∈ all_tasks r.
Hypothesis T_retries : retries (task_obj r T) = 2.
Hypothesis T_unconditional : when (task_obj r T) = None.
Hypothesis T_fails : forall tr args kwargs,
  func (task_obj r T) tr args kwargs = Raise e.
Hypothesis T_delay : (0 <= delay (task_obj r T))%Q.
Hypothesis T_backoff : (0 <= backoff (task_obj r T))%Q.













End RetryExhaustion.


(** X9. Once [run] has raised, nothing more is submitted, collected or
    stored, whatever the workers still do: the status, the results, the
    nodes counted as completed and the futures handed to the pool stay as
    they are; a worker can at most finish a future that was submitted
    before. Once [run] has returned, nothing happens at all. *)
Theorem nothing_after_the_end {P} (E : Engine P) (up : nat -> list nat)
    (sch sch' : list action) (w : World) (s s' : state P) :
  engine_wf E up ->
  engine_run E sch w = Some s -> st_status s ≠ Running ->
  engine_run E (sch ++ sch') w = Some s' ->
  st_status s' = st_status s /\ results s' = results s /\
  resolved s' = resolved s /\ submitted s' = submitted s /\
  futures s' = futures s /\
  (st_status s = Returned -> s' = s).
Proof.
  intros Hwf Hrun Hst Hrun'.
  destruct (engine_run_cases E sch w s Hrun) as [(-> & Hex)|(_ & Hall)].
  - rewrite Hex, exec_app in Hrun'. injection Hrun' as <-.
    apply (exec_after_end E up Hwf); [by apply run_inv | done].
  - rewrite Hall in Hrun'. by injection Hrun' as <-.
Qed.

(** Two tasks without an edge between them: [stop] raises at once, [late]
    returns a value. *)
Definition racing_tasks (n : nat) : Task :=
  match n with
  | O => mkTask "stop" [] (fun _ _ _ => Raise (ValueError "stop")) 0 1 2 None
  | _ => mkTask "late" [] (fun _ _ _ => Ok (VInt 1)) 0 1 2 None
  end.

Definition racing_registry : Registry :=
  mkRegistry [0; 1]%nat racing_tasks (fun _ => []) (fun _ => []).

Lemma racing_registry_wf : registry_wf racing_registry.
Proof. apply registry_wf_base. by apply (bool_decide_unpack _). Qed.

(** After [stop] has been collected and [run] has raised, a worker still
    runs [late]: its future gets a result and its events enter the trace,
    but the future is not collected and its value is not stored. After the
    run of the diamond has returned, no step is taken. *)
Lemma nothing_after_the_end_witness :
  let E := DAG_engine racing_registry in
  let sch := [Work 0; Collect 0] in
  let sch' := [Work 1; Collect 1; Collect 0] in
  let s := exec E sch (start E quiet_world) in
  let s' := exec E (sch ++ sch') (start E quiet_world) in
  let D := DAG_engine diamond in
  let d := exec D diamond_schedule (start D quiet_world) in
  let rest := [Work 0; Collect 0; Work 3; Collect 3] in
  (engine_wf E (upstream racing_registry) /\
   engine_run E sch quiet_world = Some s /\ st_status s ≠ Running /\
   engine_run E (sch ++ sch') quiet_world = Some s' /\
   pool s !! 1%nat = Some (mkFuture 1%nat [] None) /\
   pool s' !! 1%nat = Some (mkFuture 1%nat [] (Some (Ok (VInt 1)))) /\
   calls_of "late" (trace (world s)) = 0%nat /\
   calls_of "late" (trace (world s')) = 1%nat /\
   st_status s' = Raised (ValueError "stop") /\
   results s' = ∅ /\ resolved s' = [] /\ futures s' = [1%nat] /\
   st_status s' = st_status s /\ results s' = results s /\
   resolved s' = resolved s /\ submitted s' = submitted s /\
   futures s' = futures s) /\
  (engine_wf D (upstream diamond) /\
   engine_run D diamond_schedule quiet_world = Some d /\
   st_status d = Returned /\
   forall d', engine_run D (diamond_schedule ++ rest) quiet_world = Some d' ->
              d' = d).
Proof.
  intros E sch sch' s s' D d rest. split.
  - assert (engine_wf E (upstream racing_registry)) as Hwf
      by apply DAG_engine_wf, racing_registry_wf.
    assert (engine_run E sch quiet_world = Some s) as Hrun
      by (vm_compute; reflexivity).
    assert (st_status s ≠ Running) as Hst by (vm_compute; discriminate).
    assert (engine_run E (sch ++ sch') quiet_world = Some s') as Hrun'
      by (vm_compute; reflexivity).
    split; [exact Hwf|]. split; [exact Hrun|]. split; [exact Hst|].
    split; [exact Hrun'|].
    do 8 (split; [vm_compute; reflexivity|]).
    destruct (nothing_after_the_end E (upstream racing_registry) sch sch'
                quiet_world s s' Hwf Hrun Hst Hrun')
      as (H1 & H2 & H3 & H4 & H5 & _).
    repeat split; assumption.
  - assert (engine_wf D (upstream diamond)) as Hwf
      by apply DAG_engine_wf, diamond_wf.
    assert (engine_run D diamond_schedule quiet_world = Some d) as Hrun
      by (vm_compute; reflexivity).
    assert (st_status d = Returned) as Hret by (vm_compute; reflexivity).
    split; [exact Hwf|]. split; [exact Hrun|]. split; [exact Hret|].
    intros d' Hrun'.
    assert (st_status d ≠ Running) as Hst by (rewrite Hret; discriminate).
    destruct (nothing_after_the_end D (upstream diamond) diamond_schedule
                rest quiet_world d d' Hwf Hrun Hst Hrun')
      as (_ & _ & _ & _ & _ & Hsame).
    by apply Hsame.
Defined.

(** X10. While the scheduler runs, the in-degree kept for a node is the
    number of its upstream edges, counted with repetitions, that come from
    nodes not yet collected; it is never negative, and the node has been
    submitted exactly when it is zero. *)
Theorem indegree_counts_pending {P} (E : Engine P) (up : nat -> list nat)
    (sch : list action) (w : World) (s : state P) :
  engine_wf E up -> ~ cyclic (e_down E) (e_nodes E) ->
  engine_run E sch w = Some s ->
  forall n, n ∈ e_nodes E ->
    indegree s !! n
    = Some (Z.of_nat (length (filter (fun u => u ∉ resolved s) (up n)))) /\
    (n ∈ submitted s <-> indegree s !! n = Some 0).
Proof.
  intros Hwf Hacyc Hrun n Hn.
  destruct (engine_run_state E sch w s Hrun)
    as [(st & -> & Hnil)|(-> & _ & _)].
  { exfalso. revert Hrun. unfold engine_run.
    destruct (has_cycle_correct (e_down E) (e_nodes E)) as (b & -> & Hb).
    { intros a d. apply (wf_down _ _ Hwf). }
    destruct (e_nodes E) as [|m ms] eqn:Hm; [by apply elem_of_nil in Hn|].
    destruct b; [exfalso; by apply Hacyc, Hb|].
    intros [= Heq]. pose proof (f_equal (fun s => submitted s) Heq) as Hsub.
    pose proof (f_equal indegree Heq) as Hdeg. simpl in Hsub, Hdeg.
    pose proof (run_inv E up Hwf sch w) as Hinv.
    assert (n ∈ e_nodes E) as Hn' by by rewrite Hm.
    pose proof (inv_indegree E up _ n Hinv Hn') as Hi.
    rewrite Hdeg, lookup_empty in Hi. done. }
  pose proof (run_inv E up Hwf sch w) as Hinv.
  pose proof (inv_indegree E up _ n Hinv Hn) as Hi. split; [exact Hi|].
  rewrite (inv_ready E up _ n Hinv Hn), Hi, <- pending_zero.
  unfold pending. split; [by intros -> | intros [= H]; lia].
Qed.

Lemma indegree_counts_pending_witness :
  let E := DAG_engine diamond in
  let sch := [Work 0; Collect 0; Work 1; Collect 1] in
  let s := exec E sch (start E quiet_world) in
  engine_wf E (upstream diamond) /\
  ~ cyclic (e_down E) (e_nodes E) /\
  engine_run E sch quiet_world = Some s /\
  indegree s !! 3%nat = Some 1 /\
  forall n, n ∈ e_nodes E ->
    indegree s !! n
    = Some (Z.of_nat (length (filter (fun u => u ∉ resolved s)
                                (upstream diamond n)))) /\
    (n ∈ submitted s <-> indegree s !! n = Some 0).
Proof.
  intros E sch s.
  assert (engine_wf E (upstream diamond)) as Hwf
    by apply DAG_engine_wf, diamond_wf.
  assert (~ cyclic (e_down E) (e_nodes E)) as Hacyc.
  { apply acyclic_by_check; [|vm_compute; reflexivity].
    intros a d. apply (wf_down _ _ Hwf). }
  assert (engine_run E sch quiet_world = Some s) as Hrun
    by (vm_compute; reflexivity).
  split; [exact Hwf|]. split; [exact Hacyc|]. split; [exact Hrun|].
  split; [vm_compute; reflexivity|].
  exact (indegree_counts_pending E (upstream diamond) sch quiet_world s
           Hwf Hacyc Hrun).
Defined.

(** ** Flows made with the builder *)

(** A chain of builder calls, [Flow(...).add(t).branch(a, b).merge(m)...],
    stopped by the first call that raises. *)
Inductive flow_op :=
| OpAdd (t : nat)
| OpBranch (ts : list nat)
| OpMerge (t : nat).

Fixpoint build_flow (ops : list flow_op) (f : Flow) : result Flow :=
  match ops with
  | [] => Ok f
  | OpAdd t :: rest => build_flow rest (add t f)
  | OpBranch ts :: rest =>
    match branch ts f with
    | Ok f' => build_flow rest f'
    | Raise e => Raise e
    end
  | OpMerge t :: rest =>
    match merge t f with
    | Ok f' => build_flow rest f'
    | Raise e => Raise e
    end
  end.

Lemma build_flow_ok (ops : list flow_op) (f f' : Flow) :
  flow_ok f -> build_flow ops f = Ok f' -> flow_ok f'.
Proof.
  revert f. induction ops as [|[t|ts|t] ops IH]; intros f Hf; simpl.
  - by intros [= <-].
  - apply IH. by apply add_ok.
  - destruct (branch ts f) as [f1|e] eqn:Hb; [|done].
    apply IH. by eapply branch_ok.
  - destruct (merge t f) as [f1|e] eqn:Hm; [|done].
    apply IH. by eapply merge_ok.
Qed.

(** X11. Whatever chain of [add], [branch] and [merge] made a flow: every
    edge of [graph] joins two tasks of [flow.tasks], [reverse_graph] holds
    the same edges reversed, as many times, and the branch points are tasks
    of the list. So [_collect_transitive_tasks] finds nothing new, [run]
    works on the tasks of [flow.tasks], each once, and under every schedule
    the run is defined and can be carried on to the point where [run] has
    returned or raised. *)
Theorem built_flow_graph (ops : list flow_op) (f : Flow) :
  build_flow ops Flow_new = Ok f ->
  (forall a b, b ∈ graph f !!! a -> a ∈ tasks f /\ b ∈ tasks f) /\
  (forall a b, occ b (graph f !!! a) = occ a (reverse_graph f !!! b)) /\
  (forall b, b ∈ branch_points f -> b ∈ tasks f) /\
  Flow_all_tasks f = Some (remove_dups (tasks f)) /\
  forall objs sch w,
    exists s, Flow_run objs f sch w = Some s /\
      exists sch' s',
        Flow_run objs f (sch ++ sch') w = Some s' /\
        (st_status s' = Returned \/ exists e, st_status s' = Raised e).
Proof.
  intros Hb. pose proof (build_flow_ok ops Flow_new f Flow_new_ok Hb) as Hok.
  destruct (Flow_all_tasks_built f Hok) as [Hall Hwf].
  pose proof Hok as [[Hd Hu He] Hbp].
  split; [done|]. split; [done|]. split; [done|]. split; [done|].
  intros objs sch w.
  destruct (Flow_run_total objs f sch w Hok) as [s Hrun].
  exists s. split; [done|].
  unfold Flow_run in *. rewrite Hall in *.
  set (E := Flow_engine objs f (remove_dups (tasks f))) in *.
  pose proof (Flow_engine_wf objs f _ Hwf) as HwfE. fold E in HwfE.
  assert (exists sch' s', engine_run E (sch ++ sch') w = Some s' /\
                          st_status s' ≠ Running) as (sch' & s' & Hrun' & Hst).
  { destruct (engine_run_cases _ _ _ _ Hrun) as [[-> Hex]|[Hst Hex]].
    - destruct (reaches_end E _ HwfE (exec E sch (start E w))
                  (Flow_execute_total objs f _) (run_inv _ _ HwfE sch w))
        as [sch' Hsch'].
      exists sch', (exec E (sch ++ sch') (start E w)).
      split; [apply Hex|]. by rewrite exec_app.
    - exists [], s. split; [apply Hex | done]. }
  exists sch', s'. split; [done|].
  destruct (st_status s') as [| |e]; [done | by left | right; by exists e].
Qed.

Lemma built_flow_graph_witness :
  build_flow [OpAdd 0; OpBranch [1; 2]%nat; OpMerge 3; OpAdd 4] Flow_new
  = Ok (add 4%nat diamond_flow) /\
  Flow_all_tasks (add 4%nat diamond_flow) = Some [0; 1; 2; 3; 4]%nat /\
  (forall a b, b ∈ graph (add 4%nat diamond_flow) !!! a ->
     a ∈ tasks (add 4%nat diamond_flow) /\
     b ∈ tasks (add 4%nat diamond_flow)) /\
  (st_status <$> Flow_run named_tasks (add 4%nat diamond_flow)
                   [Work 0] quiet_world) = Some Running /\
  exists sch' s',
    Flow_run named_tasks (add 4%nat diamond_flow) ([Work 0] ++ sch')
             quiet_world = Some s' /\
    (st_status s' = Returned \/ exists e, st_status s' = Raised e).
Proof.
  assert (build_flow [OpAdd 0; OpBranch [1; 2]%nat; OpMerge 3; OpAdd 4]
            Flow_new = Ok (add 4%nat diamond_flow)) as Hb
    by (vm_compute; reflexivity).
  split; [exact Hb|].
  destruct (built_flow_graph _ _ Hb) as (H1 & _ & _ & H4 & H5).
  split; [exact H4|]. split; [exact H1|].
  split; [vm_compute; reflexivity|].
  destruct (H5 named_tasks [Work 0] quiet_world) as (s & _ & Hend).
  exact Hend.
Defined.

(** X12. Adding to a flow the task that was added last connects the task
    to itself, and [run] then raises [DAGCycleError] before anything is
    submitted, whatever else the flow holds. *)
Theorem add_twice_is_a_cycle (objs : nat -> Task) (ops : list flow_op)
    (f : Flow) (t : nat) (sch : list action) (w : World) :
  build_flow ops Flow_new = Ok f -> last (tasks f) = Some t ->
  t ∈ graph (add t f) !!! t /\
  Flow_run objs (add t f) sch w = Some (finished (Raised DAGCycleError) w).
Proof.
  intros Hb Hlast.
  assert (t ∈ graph (add t f) !!! t) as Hedge.
  { unfold add. rewrite Hlast. simpl. rewrite dd_append_lookup.
    rewrite decide_True by done. apply elem_of_app. right.
    by apply list_elem_of_singleton. }
  split; [done|].
  pose proof (add_ok t f (build_flow_ok ops Flow_new f Flow_new_ok Hb))
    as Hok.
  destruct (Flow_all_tasks_built _ Hok) as [Hall Hwf].
  unfold Flow_run. rewrite Hall.
  set (E := Flow_engine objs (add t f) (remove_dups (tasks (add t f)))).
  assert (t ∈ e_nodes E) as Hin.
  { simpl. apply elem_of_remove_dups. unfold add. rewrite Hlast. simpl.
    apply elem_of_app. right. by apply list_elem_of_singleton. }
  assert (closed (e_down E) (e_nodes E)) as Hclosed.
  { intros a d. apply (wf_down _ _ (Flow_engine_wf objs _ _ Hwf)). }
  destruct (has_cycle_correct (e_down E) (e_nodes E) Hclosed)
    as (b & Hhc & Hiff).
  assert (b = true) as ->.
  { apply Hiff. exists t. split; [done|]. by apply tc_once. }
  unfold engine_run. rewrite Hhc.
  destruct (e_nodes E); [by apply elem_of_nil in Hin | done].
Qed.

Lemma add_twice_is_a_cycle_witness :
  build_flow [OpAdd 0; OpAdd 1] Flow_new = Ok (add 1%nat (add 0%nat Flow_new))
  /\ last (tasks (add 1%nat (add 0%nat Flow_new))) = Some 1%nat /\
  Flow_run named_tasks (add 1%nat (add 1%nat (add 0%nat Flow_new)))
    [Work 0] quiet_world
  = Some (finished (Raised DAGCycleError) quiet_world).
Proof.
  assert (build_flow [OpAdd 0; OpAdd 1] Flow_new
          = Ok (add 1%nat (add 0%nat Flow_new))) as Hb by reflexivity.
  split; [exact Hb|]. split; [reflexivity|].
  exact (proj2 (add_twice_is_a_cycle named_tasks _ _ 1%nat [Work 0]
                  quiet_world Hb eq_refl)).
Defined.

(** ** Graphs made with [>>] *)

(** A sequence of [a >> b] between single tasks. *)
Definition rshift_all (edges : list (nat * nat)) (r : Registry) : Registry :=
  foldl (fun r e => rshift e.1 e.2 r) r edges.

Lemma rshift_all_snoc (edges : list (nat * nat)) (e : nat * nat)
    (r : Registry) :
  rshift_all (edges ++ [e]) r = rshift e.1 e.2 (rshift_all edges r).
Proof. unfold rshift_all. by rewrite foldl_app. Qed.

Lemma rshift_all_lists (edges : list (nat * nat)) (r : Registry) (t : nat) :
  all_tasks (rshift_all edges r) = all_tasks r /\
  task_obj (rshift_all edges r) = task_obj r /\
  upstream (rshift_all edges r) t
  = upstream r t ++ (fst <$> filter (fun e => e.2 = t) edges) /\
  downstream (rshift_all edges r) t
  = downstream r t ++ (snd <$> filter (fun e => e.1 = t) edges).
Proof.
  induction edges as [|[a b] edges IH] using rev_ind.
  { simpl. by rewrite !app_nil_r. }
  rewrite rshift_all_snoc. destruct IH as (H1 & H2 & H3 & H4). simpl.
  split; [done|]. split; [done|].
  rewrite !append_to_lookup, !filter_app, !fmap_app, !app_assoc.
  rewrite !filter_cons, !filter_nil. simpl. split.
  - destruct (decide (t = b)) as [->|Hne].
    + rewrite decide_True by done. by rewrite H3.
    + rewrite decide_False by congruence. by rewrite H3, app_nil_r.
  - destruct (decide (t = a)) as [->|Hne].
    + rewrite decide_True by done. by rewrite H4.
    + rewrite decide_False by congruence. by rewrite H4, app_nil_r.
Qed.

(** X13. After any sequence of [>>] between tasks, the [upstream] list of
    a task holds the sources of the edges into it, in the order in which
    the edges were declared and as often, and its [downstream] list the
    targets of the edges out of it; [a >> [b1, ...]] and [[a1, ...] >> b]
    are sequences of single edges. The in-degree [DAG.run] starts with
    is the number of declared edges into the task, and the positional
    arguments of a task follow the order of declaration. *)
Theorem rshift_builds_edge_lists (edges : list (nat * nat)) (l : list nat)
    (objs : nat -> Task) :
  let r := rshift_all edges (mkRegistry l objs (fun _ => []) (fun _ => [])) in
  (forall t, upstream r t = fst <$> filter (fun e => e.2 = t) edges) /\
  (forall t, downstream r t = snd <$> filter (fun e => e.1 = t) edges) /\
  all_tasks r = l /\
  (forall a bs r0, rshift_list a bs r0 = rshift_all ((fun b => (a, b)) <$> bs) r0)
  /\
  (forall b l0 r0, rrshift_list l0 b r0
                   = rshift_all ((fun a => (a, b)) <$> l0) r0) /\
  (NoDup l -> forall t, t ∈ l ->
     DAG_indegree r !! t
     = Some (Z.of_nat (length (filter (fun e => e.2 = t) edges)))) /\
  (forall t res, DAG_args r t res
     = (fun e => default VNone (res !! name (objs e.1)))
         <$> filter (fun e => e.2 = t) edges).
Proof.
  intros r.
  assert (forall t, upstream r t = fst <$> filter (fun e => e.2 = t) edges)
    as Hup.
  { intros t. unfold r.
    by destruct (rshift_all_lists edges
                   (mkRegistry l objs (fun _ => []) (fun _ => [])) t)
      as (_ & _ & -> & _). }
  assert (task_obj r = objs) as Hobj.
  { unfold r.
    by destruct (rshift_all_lists edges
                   (mkRegistry l objs (fun _ => []) (fun _ => [])) 0%nat)
      as (_ & -> & _). }
  assert (all_tasks r = l) as Hall.
  { unfold r.
    by destruct (rshift_all_lists edges
                   (mkRegistry l objs (fun _ => []) (fun _ => [])) 0%nat)
      as (-> & _). }
  split; [done|]. split.
  { intros t. unfold r.
    by destruct (rshift_all_lists edges
                   (mkRegistry l objs (fun _ => []) (fun _ => [])) t)
      as (_ & _ & _ & ->). }
  split; [done|]. split.
  { intros a bs r0. unfold rshift_list, rshift_all.
    revert r0. induction bs as [|b bs IH]; intros r0; [done|]. simpl.
    apply IH. }
  split.
  { intros b l0 r0. unfold rrshift_list, rshift_all.
    revert r0. induction l0 as [|a l0 IH]; intros r0; [done|]. simpl.
    apply IH. }
  split.
  - intros Hnd t Ht. unfold DAG_indegree. rewrite Hall.
    rewrite (key_map_lookup (fun t => Z.of_nat (length (upstream r t))))
      by done.
    by rewrite Hup, length_fmap.
  - intros t res. unfold DAG_args, task_name. rewrite Hup, Hobj.
    by rewrite <- list_fmap_compose.
Qed.

(** ** The graph of a functional flow has no cycle *)

Section ForwardEdges.
Variable objects : list AppliedTask.
Hypothesis heap_ok : heap_wf objects.

(** The heap holds the constructed objects, followed by the objects made
    from bare layers, which have no inputs. *)
Definition heap_ext (ff : FunctionalFlow) : Prop :=
  exists extra, heap ff = objects ++ extra /\
                Forall (fun a => at_inputs a = []) extra.

(** Every edge leads to a constructed node, from a node constructed before
    it or from a node made from a bare layer. *)
Definition edges_forward (ff : FunctionalFlow) : Prop :=
  forall a b, b ∈ ff_graph ff !!! a ->
    (b < length objects)%nat /\ ((a < b)%nat \/ (length objects <= a)%nat).

Lemma inputs_of_heap_ext (ff : FunctionalFlow) (n : nat) :
  heap_ext ff -> inputs_of ff n = orig_inputs objects n.
Proof.
  intros (extra & Hheap & Hextra).
  unfold inputs_of, orig_inputs. rewrite Hheap.
  destruct (objects !! n) as [a|] eqn:Ho.
  - by rewrite (lookup_app_l_Some _ _ _ _ Ho).
  - apply lookup_ge_None in Ho. rewrite lookup_app_r by done.
    destruct (extra !! _) as [a|] eqn:He; [|done].
    rewrite Forall_forall in Hextra. apply Hextra.
    by eapply list_elem_of_lookup_2.
Qed.

Lemma as_applied_heap_ext (node : node_ref) (ff : FunctionalFlow) :
  heap_ext ff ->
  heap_ext (as_applied node ff).2 /\
  ff_graph (as_applied node ff).2 = ff_graph ff /\
  match node with
  | RApplied i => (as_applied node ff).1 = i
  | RLayer _ => (length objects <= (as_applied node ff).1)%nat
  end.
Proof.
  intros (extra & Hheap & Hextra). destruct node as [i|t]; simpl.
  - split; [by exists extra | done].
  - split; [|split; [done|]].
    + exists (extra ++ [mkApplied t []]). rewrite Hheap, app_assoc.
      split; [done|]. apply Forall_app. split; [done|]. by repeat constructor.
    + rewrite Hheap, length_app. lia.
Qed.

Lemma traverse_inputs_forward
    (rec : FunctionalFlow -> node_ref -> option FunctionalFlow)
    (n : nat) :
  (forall ff node ff', heap_ext ff -> edges_forward ff ->
     rec ff node = Some ff' -> heap_ext ff' /\ edges_forward ff') ->
  forall inps ff ff',
    (forall inp, inp ∈ inps -> inp ∈ orig_inputs objects n) ->
    heap_ext ff -> edges_forward ff ->
    traverse_inputs rec n inps ff = Some ff' ->
    heap_ext ff' /\ edges_forward ff'.
Proof.
  intros Hrec. induction inps as [|inp inps IH]; intros ff ff' Hin Hh He.
  { by intros [= <-]. }
  simpl. destruct (as_applied inp ff) as [i ff1] eqn:Has.
  destruct (as_applied_heap_ext inp ff Hh) as (Hh1 & Hg1 & Hi).
  rewrite Has in Hh1, Hg1, Hi. simpl in Hh1, Hg1, Hi.
  destruct (rec ff1 (RApplied i)) as [ff2|] eqn:Hr; [|done].
  destruct (Hrec ff1 (RApplied i) ff2 Hh1) as [Hh2 He2]; [|done|].
  { intros a b. rewrite Hg1. apply He. }
  apply IH.
  - intros x Hx. apply Hin. by right.
  - done.
  - intros a b. simpl. rewrite dd_append_lookup. case_decide as Ha.
    2:{ apply He2. }
    subst a. rewrite elem_of_app, list_elem_of_singleton.
    intros [Hb| ->]; [by apply He2|].
    assert (inp ∈ orig_inputs objects n) as Hinp by (apply Hin; left).
    unfold orig_inputs in Hinp.
    destruct (objects !! n) as [obj|] eqn:Hn;
      [|by apply elem_of_nil in Hinp].
    split; [by eapply lookup_lt_Some|].
    destruct inp as [j|t]; [|by right]. subst j. left.
    by apply (heap_ok n obj i).
Qed.

Lemma traverse_forward (fuel : nat) (ff : FunctionalFlow) (node : node_ref)
    (ff' : FunctionalFlow) :
  heap_ext ff -> edges_forward ff -> traverse fuel ff node = Some ff' ->
  heap_ext ff' /\ edges_forward ff'.
Proof.
  revert ff node ff'. induction fuel as [|fuel IH]; intros ff node ff' Hh He;
    [done|].
  simpl. destruct (as_applied node ff) as [n ff1] eqn:Has.
  destruct (as_applied_heap_ext node ff Hh) as (Hh1 & Hg1 & _).
  rewrite Has in Hh1, Hg1. simpl in Hh1, Hg1.
  case_bool_decide.
  { intros [= <-]. split; [done|]. intros a b. rewrite Hg1. apply He. }
  apply (traverse_inputs_forward (traverse fuel) n IH).
  - intros inp. by rewrite (inputs_of_heap_ext ff1 n Hh1).
  - done.
  - intros a b. simpl. rewrite Hg1. apply He.
Qed.

Lemma build_graph_forward (outputs : list node_ref) (ff : FunctionalFlow) :
  build_graph objects outputs = Some ff -> edges_forward ff.
Proof.
  unfold build_graph.
  assert (heap_ext (mkFunctional objects [] ∅ ∅) /\
          edges_forward (mkFunctional objects [] ∅ ∅)) as Hinit.
  { split.
    - exists []. by rewrite app_nil_r.
    - intros a b. simpl. rewrite lookup_total_empty.
      intros H. by apply elem_of_nil in H. }
  revert Hinit. generalize (mkFunctional objects [] ∅ ∅).
  induction outputs as [|out outs IH]; intros ff0 [Hh He]; cbn [foldl].
  { by intros [= <-]. }
  destruct (traverse (S (length objects)) ff0 out) as [ff1|] eqn:Ht.
  - apply IH. by eapply traverse_forward.
  - intros Hnone. exfalso. clear -Hnone.
    induction outs as [|o outs IH]; [done|]. cbn [foldl] in Hnone.
    by apply IH.
Qed.

Lemma edges_forward_acyclic (ff : FunctionalFlow) (l : list nat) :
  edges_forward ff -> ~ cyclic (fun n => ff_graph ff !!! n) l.
Proof.
  intros He (n & _ & Htc).
  assert (forall x y, tc (edge (fun n => ff_graph ff !!! n)) x y ->
            (y < length objects)%nat /\
            ((x < y)%nat \/ (length objects <= x)%nat)) as Hall.
  { intros x y H. induction H as [x y Hxy|x m y Hxm _ [IH1 IH2]].
    - by apply He.
    - destruct (He x m Hxm) as [Hm Hx]. split; [done|]. lia. }
  destruct (Hall n n Htc). lia.
Qed.

End ForwardEdges.

(** X14. The graph that [_build_graph] makes from applied tasks has no
    cycle, since the inputs of an applied task exist before it: every edge
    goes from an input to the node that lists it. The cycle check of
    [FunctionalFlow.run] therefore always passes: [run] returns at once when
    there is no node, and goes on to the scheduler otherwise. *)
Theorem functional_graph_acyclic (objs : nat -> Task)
    (objects : list AppliedTask) (outputs : list node_ref) :
  heap_wf objects ->
  (forall o, RApplied o ∈ outputs -> (o < length objects)%nat) ->
  exists ff, build_graph objects outputs = Some ff /\
    (forall a b, b ∈ ff_graph ff !!! a ->
       (b < length objects)%nat /\
       ((a < b)%nat \/ (length objects <= a)%nat)) /\
    ~ cyclic (fun n => ff_graph ff !!! n) (all_nodes ff) /\
    (all_nodes ff ≠ [] ->
     has_cycle (fun n => ff_graph ff !!! n) (all_nodes ff) = Some (Ok false)) /\
    forall sch w,
      FunctionalFlow_build_and_run objs objects outputs sch w
      = Some (match all_nodes ff with
              | [] => finished Returned w
              | _ => exec (Functional_engine objs ff) sch
                       (start (Functional_engine objs ff) w)
              end).
Proof.
  intros Hheap Houts.
  destruct (build_graph_spec objects outputs Hheap Houts)
    as (ff & Hbuild & Hinv & _).
  exists ff. split; [done|].
  pose proof (build_graph_forward objects Hheap outputs ff Hbuild) as Hfwd.
  split; [done|].
  pose proof (edges_forward_acyclic objects ff (all_nodes ff) Hfwd) as Hacyc.
  split; [done|].
  pose proof (Functional_engine_wf objs ff
                (tinv_functional_wf objects outputs ff Hinv)) as Hwf.
  destruct (has_cycle_correct (fun n => ff_graph ff !!! n) (all_nodes ff))
    as (b & Hhc & Hiff).
  { intros a d. apply (wf_down _ _ Hwf). }
  assert (b = false) as ->.
  { destruct b; [|done]. exfalso. by apply Hacyc, Hiff. }
  split; [done|]. intros sch w.
  unfold FunctionalFlow_build_and_run, FunctionalFlow_run, engine_run.
  rewrite Hbuild. simpl. rewrite Hhc. by destruct (all_nodes ff).
Qed.

Lemma functional_graph_acyclic_witness :
  heap_wf diamond_objects /\
  (forall o, RApplied o ∈ [RApplied 3] -> (o < length diamond_objects)%nat) /\
  exists ff, build_graph diamond_objects [RApplied 3] = Some ff /\
    ~ cyclic (fun n => ff_graph ff !!! n) (all_nodes ff) /\
    forall sch w,
      FunctionalFlow_build_and_run named_tasks diamond_objects [RApplied 3]
        sch w
      = Some (match all_nodes ff with
              | [] => finished Returned w
              | _ => exec (Functional_engine named_tasks ff) sch
                       (start (Functional_engine named_tasks ff) w)
              end).
Proof.
  assert (forall o, RApplied o ∈ [RApplied 3] ->
                    (o < length diamond_objects)%nat) as Houts.
  { intros o Ho. apply list_elem_of_singleton in Ho. injection Ho as ->.
    simpl. lia. }
  split; [exact diamond_heap_wf|]. split; [exact Houts|].
  destruct (functional_graph_acyclic named_tasks diamond_objects
              [RApplied 3] diamond_heap_wf Houts)
    as (ff & Hb & _ & Hacyc & _ & Hrun).
  exists ff. split; [exact Hb|]. split; [exact Hacyc | exact Hrun].
Defined.

(** ** What [FunctionalFlow.run] returns *)

(** The value of [run]: the value of the output when there is one output,
    the tuple of the values of the outputs otherwise. *)
Inductive run_value :=
| Single (v : value)
| Tuple (vs : list value).

(** [out.name], for an output that is an applied task or a bare layer. *)
Definition output_name (objs : nat -> Task) (ff : FunctionalFlow)
    (out : node_ref) : string :=
  match out with
  | RApplied o => node_name objs ff o
  | RLayer t => name (objs t)
  end.

(** The end of [FunctionalFlow.run], from the state in which the scheduling
    loop has ended: the early return for a flow without nodes, the exception
    that came out of the loop, or
    [tuple(results[out.name] for out in self.outputs)]. *)
Definition FunctionalFlow_result (objs : nat -> Task) (ff : FunctionalFlow)
    (outputs : list node_ref) (s : state unit) : option (result run_value) :=
  match st_status s with
  | Running => None
  | Raised e => Some (Raise e)
  | Returned =>
    match all_nodes ff with
    | [] =>
      Some (Ok (match outputs with
                | [_] => Single VNone
                | _ => Tuple ((fun _ => VNone) <$> outputs)
                end))
    | _ =>
      match mapM (fun out => results s !! output_name objs ff out) outputs with
      | None => Some (Raise KeyError)
      | Some [v] => Some (Ok (Single v))
      | Some vs => Some (Ok (Tuple vs))
      end
    end
  end.

(** X15. For a flow whose outputs are applied tasks: the node set is empty
    exactly when there is no output; and when the scheduling loop ends
    normally, the lookup of the outputs in the results never raises
    [KeyError]: [run] returns one value per output, in the order of the
    outputs, the value alone when there is one output; with unique node
    names the value is what the call of the output node returned. *)
Theorem functional_outputs (objs : nat -> Task) (objects : list AppliedTask)
    (outputs : list node_ref) :
  heap_wf objects ->
  (forall out, out ∈ outputs ->
     exists o, out = RApplied o /\ (o < length objects)%nat) ->
  exists ff, build_graph objects outputs = Some ff /\
    (all_nodes ff = [] <-> outputs = []) /\
    forall sch w s,
      FunctionalFlow_run objs ff sch w = Some s -> st_status s = Returned ->
      exists vs,
        FunctionalFlow_result objs ff outputs s
        = Some (Ok (match vs with [v] => Single v | _ => Tuple vs end)) /\
        length vs = length outputs /\
        (names_unique (Functional_engine objs ff) ->
         forall i o, outputs !! i = Some (RApplied o) ->
           exists k v, pool s !! k = Some (mkFuture o tt (Some (Ok v))) /\
                       vs !! i = Some v).
Proof.
  intros Hheap Houts.
  assert (forall o, RApplied o ∈ outputs -> (o < length objects)%nat)
    as Houts'.
  { intros o Ho. destruct (Houts _ Ho) as (o' & [= ->] & Hlt). done. }
  destruct (build_graph_spec objects outputs Hheap Houts')
    as (ff & Hbuild & Hinv & Hreach).
  exists ff. split; [done|].
  assert (forall o, RApplied o ∈ outputs -> o ∈ all_nodes ff) as Hin.
  { intros o Ho. apply Hreach; [by apply Houts'|].
    exists o. split; [done | apply rtc_refl]. }
  assert (all_nodes ff = [] <-> outputs = []) as Hempty.
  { split.
    - intros Hnil. destruct outputs as [|out outs]; [done|]. exfalso.
      destruct (Houts out) as (o & -> & _); [left|].
      assert (o ∈ all_nodes ff) as Ho by (apply Hin; left).
      rewrite Hnil in Ho. by apply elem_of_nil in Ho.
    - intros ->. by injection Hbuild as <-. }
  split; [done|]. intros sch w s Hrun Hret.
  pose proof (Functional_engine_wf objs ff
                (tinv_functional_wf objects outputs ff Hinv)) as Hwf.
  unfold FunctionalFlow_result. rewrite Hret.
  unfold FunctionalFlow_run in Hrun.
  destruct (engine_run_state _ sch w s Hrun)
    as [(st & -> & Hnil)|(-> & Hne & Hcheck)].
  { simpl in Hret, Hnil. rewrite (Hnil Hret).
    rewrite (proj1 Hempty (Hnil Hret)). exists []. split; [done|].
    split; [done|]. intros _ i o Hi. by rewrite lookup_nil in Hi. }
  set (E := Functional_engine objs ff) in *.
  set (s := exec E sch (start E w)) in *.
  pose proof (run_inv E _ Hwf sch w) as Hinv'. fold s in Hinv'.
  pose proof (run_store_inv E _ Hwf sch w) as Hs. fold s in Hs.
  pose proof (inv_core _ _ _ Hinv') as Hc.
  assert (forall n, n ∈ all_nodes ff -> n ∈ resolved s) as Hres.
  { apply (all_resolved E _ Hwf); try done.
    - apply acyclic_by_check; [|done]. intros a d. apply (wf_down _ _ Hwf).
    - by apply (inv_returned _ _ _ Hinv').
    - intros e He. by rewrite Hret in He. }
  destruct (all_nodes ff) as [|n0 ns] eqn:Hnodes; [done|].
  rewrite <- Hnodes in *.
  destruct (mapM (fun out => results s !! output_name objs ff out) outputs)
    as [vs|] eqn:Hm.
  2:{ exfalso. apply mapM_None_1, Exists_exists in Hm as (out & Hout & Hno).
      destruct (Houts out Hout) as (o & -> & _). simpl in Hno.
      destruct (store_all _ _ Hs eq_refl o) as [v Hv];
        [by apply Hres, Hin|].
      simpl in Hv. congruence. }
  exists vs. split; [by destruct vs as [|v [|v' vs]]|].
  split; [symmetry; by eapply length_mapM|].
  intros Hu i o Hi. apply mapM_Some_1 in Hm.
  destruct (Forall2_lookup_l _ _ _ _ _ Hm Hi) as (v & Hv & Hlook).
  simpl in Hlook.
  assert (o ∈ resolved s) as Ho.
  { apply Hres, Hin. by eapply list_elem_of_lookup_2. }
  destruct (core_resolved _ _ _ _ Hc o Ho) as (k & [] & v' & Hk & _).
  exists k, v'. split; [done|].
  pose proof (store_entry _ _ Hs Hu o k tt v' Ho Hk) as Hent.
  unfold entry_of in Hent. simpl in Hent.
  change (e_name E o) with (node_name objs ff o) in Hent. congruence.
Qed.

Lemma functional_outputs_witness :
  let sch := [Work 0; Collect 0; Work 1; Work 2; Collect 2; Collect 1;
              Work 3; Collect 3] in
  heap_wf diamond_objects /\
  (forall out, out ∈ [RApplied 3] ->
     exists o, out = RApplied o /\ (o < length diamond_objects)%nat) /\
  build_graph diamond_objects [RApplied 3] = Some diamond_functional /\
  (FunctionalFlow_result named_tasks diamond_functional [RApplied 3]
     <$> FunctionalFlow_run named_tasks diamond_functional sch quiet_world)
  = Some (Some (Ok (Single (VInt 35)))) /\
  exists ff, build_graph diamond_objects [RApplied 3] = Some ff /\
    (all_nodes ff = [] <-> [RApplied 3] = []).
Proof.
  intros sch.
  assert (forall out, out ∈ [RApplied 3] ->
            exists o, out = RApplied o /\ (o < length diamond_objects)%nat)
    as Houts.
  { intros out Ho. apply list_elem_of_singleton in Ho as ->.
    exists 3%nat. split; [done|]. simpl. lia. }
  split; [exact diamond_heap_wf|]. split; [exact Houts|].
  split; [vm_compute; reflexivity|]. split; [vm_compute; reflexivity|].
  destruct (functional_outputs named_tasks diamond_objects [RApplied 3]
              diamond_heap_wf Houts) as (ff & Hb & Hempty & _).
  exists ff. split; [exact Hb | exact Hempty].
Defined.

(** ** The edges of a functional flow are the recorded inputs *)

Section InputEdges.
Variable objects : list AppliedTask.
Hypothesis heap_ok : heap_wf objects.

(** How the upstream node [u] recorded for the node [n] answers to the
    input [inp] of [n]: an applied task is recorded itself; a bare layer is
    recorded as a node made for this one use, with the task of the layer, no
    input, and [n] as its only downstream node. *)
Definition input_node (ff : FunctionalFlow) (n : nat) (inp : node_ref)
    (u : nat) : Prop :=
  match inp with
  | RApplied o => u = o
  | RLayer t =>
    (length objects <= u)%nat /\
    heap ff !! u = Some (mkApplied t []) /\
    ff_graph ff !!! u = [n]
  end.

(** [reverse_graph[n]] answers to the inputs of [n], one by one. *)
Definition complete (ff : FunctionalFlow) (n : nat) : Prop :=
  Forall2 (input_node ff n) (orig_inputs objects n)
          (ff_reverse_graph ff !!! n).

Record kinv (ff : FunctionalFlow) : Prop := mkKinv {
  k_heap : heap_ext objects ff;
  k_nodes : forall n, n ∈ all_nodes ff -> (n < length (heap ff))%nat;
  k_up : forall a, a ∉ all_nodes ff -> ff_reverse_graph ff !!! a = [];
  k_down : forall a, (length (heap ff) <= a)%nat -> ff_graph ff !!! a = []
}.

(** What a part of the traversal leaves as it is: the objects and the nodes
    that exist, the upstream lists of the nodes that exist (those of [ex]
    apart), and the downstream list of a node made from a layer once it has
    its edge. *)
Record frame (ex : list nat) (ff ff' : FunctionalFlow) : Prop := mkFrame {
  f_heap : heap ff `prefix_of` heap ff';
  f_nodes : forall n, n ∈ all_nodes ff -> n ∈ all_nodes ff';
  f_up : forall m, m ∈ all_nodes ff -> m ∉ ex ->
                   ff_reverse_graph ff' !!! m = ff_reverse_graph ff !!! m;
  f_down : forall a, (length objects <= a)%nat -> ff_graph ff !!! a ≠ [] ->
                     ff_graph ff' !!! a = ff_graph ff !!! a
}.

(** The nodes made from layers before are not given an edge. *)
Definition untouched (ff ff' : FunctionalFlow) : Prop :=
  forall a, (length objects <= a < length (heap ff))%nat ->
            ff_graph ff' !!! a = ff_graph ff !!! a.

Definition valid (ff : FunctionalFlow) (node : node_ref) : Prop :=
  match node with
  | RApplied o => (o < length (heap ff))%nat
  | RLayer _ => True
  end.

Definition traverse_ok
    (rec : FunctionalFlow -> node_ref -> option FunctionalFlow) : Prop :=
  forall ff node ff', kinv ff -> valid ff node -> rec ff node = Some ff' ->
    kinv ff' /\ frame [] ff ff' /\ untouched ff ff' /\
    forall m, m ∈ all_nodes ff' -> m ∉ all_nodes ff -> complete ff' m.

Lemma frame_refl (ex : list nat) (ff : FunctionalFlow) : frame ex ff ff.
Proof. by split. Qed.

Lemma frame_trans (ex : list nat) (ff ff1 ff2 : FunctionalFlow) :
  frame ex ff ff1 -> frame ex ff1 ff2 -> frame ex ff ff2.
Proof.
  intros [Hh1 Hn1 Hu1 Hd1] [Hh2 Hn2 Hu2 Hd2]. split.
  - by etrans.
  - auto.
  - intros m Hm Hex. rewrite Hu2 by auto. by apply Hu1.
  - intros a Ha Hne. rewrite Hd2; [by apply Hd1 | done |].
    by rewrite Hd1.
Qed.

Lemma frame_weaken (ex : list nat) (ff ff' : FunctionalFlow) :
  frame [] ff ff' -> frame ex ff ff'.
Proof.
  intros [Hh Hn Hu Hd]. split; try done.
  intros m Hm _. apply Hu; [done|]. apply not_elem_of_nil.
Qed.

Lemma frame_new (n : nat) (ff ff' : FunctionalFlow) :
  frame [n] ff ff' -> n ∉ all_nodes ff -> frame [] ff ff'.
Proof.
  intros [Hh Hn Hu Hd] Hnew. split; try done.
  intros m Hm _. apply Hu; [done|].
  rewrite list_elem_of_singleton. by intros ->.
Qed.

Lemma untouched_trans (ff ff1 ff2 : FunctionalFlow) :
  heap ff `prefix_of` heap ff1 ->
  untouched ff ff1 -> untouched ff1 ff2 -> untouched ff ff2.
Proof.
  intros Hp H1 H2 a Ha. apply prefix_length in Hp.
  rewrite H2 by lia. by apply H1.
Qed.

Lemma input_node_frame (ex : list nat) (ff ff' : FunctionalFlow) (n : nat)
    (inp : node_ref) (u : nat) :
  frame ex ff ff' -> input_node ff n inp u -> input_node ff' n inp u.
Proof.
  intros [Hh _ _ Hd]. destruct inp as [o|t]; [done|].
  intros (Hu & Hheap & Hg). split; [done|]. split.
  - by eapply prefix_lookup_Some.
  - rewrite Hd; [done..|]. by rewrite Hg.
Qed.

Lemma complete_frame (ex : list nat) (ff ff' : FunctionalFlow) (m : nat) :
  frame ex ff ff' -> m ∈ all_nodes ff -> m ∉ ex ->
  complete ff m -> complete ff' m.
Proof.
  intros Hf Hm Hex Hc. unfold complete. rewrite (f_up _ _ _ Hf) by done.
  eapply Forall2_impl; [exact Hc|]. intros inp u. by apply (input_node_frame ex).
Qed.

(** [if isinstance(inp, Layer): inp = inp()], for an input of a constructed
    node. *)
Lemma as_applied_input (ff : FunctionalFlow) (node : node_ref) :
  kinv ff -> valid ff node ->
  let i := (as_applied node ff).1 in
  let ff1 := (as_applied node ff).2 in
  kinv ff1 /\ frame [] ff ff1 /\ untouched ff ff1 /\
  all_nodes ff1 = all_nodes ff /\ ff_graph ff1 = ff_graph ff /\
  (i < length (heap ff1))%nat /\
  match node with
  | RApplied o => i = o
  | RLayer t => i = length (heap ff) /\ heap ff1 !! i = Some (mkApplied t [])
  end.
Proof.
  intros [Hh Hn Hu Hd] Hv. destruct node as [o|t]; simpl.
  { repeat split; try done. }
  assert (heap_ext objects
            (mkFunctional (heap ff ++ [mkApplied t []]) (all_nodes ff)
                          (ff_graph ff) (ff_reverse_graph ff))) as Hh'.
  { destruct Hh as (extra & Hheap & Hextra).
    exists (extra ++ [mkApplied t []]). simpl. rewrite Hheap, app_assoc.
    split; [done|]. apply Forall_app. split; [done|]. by repeat constructor. }
  repeat split; simpl; try done.
  - intros n Hin. rewrite length_app. specialize (Hn n Hin). lia.
  - intros a. rewrite length_app. simpl. intros Ha. apply Hd. lia.
  - by apply prefix_app_r.
  - rewrite length_app. simpl. lia.
  - rewrite lookup_app_r by lia. by rewrite Nat.sub_diag.
Qed.

Lemma traverse_inputs_edges
    (rec : FunctionalFlow -> node_ref -> option FunctionalFlow) (n : nat) :
  traverse_ok rec ->
  forall inps pre ff ff',
    orig_inputs objects n = pre ++ inps ->
    kinv ff -> n ∈ all_nodes ff ->
    Forall2 (input_node ff n) pre (ff_reverse_graph ff !!! n) ->
    traverse_inputs rec n inps ff = Some ff' ->
    kinv ff' /\ frame [n] ff ff' /\ untouched ff ff' /\
    (forall m, m ∈ all_nodes ff' -> m ∉ all_nodes ff -> complete ff' m) /\
    complete ff' n.
Proof.
  intros Hrec. induction inps as [|inp inps IH];
    intros pre ff ff' Hsplit Hk Hn Hpre.
  { intros [= <-]. rewrite app_nil_r in Hsplit.
    split; [done|]. split; [apply frame_refl|]. split; [done|].
    split; [done|]. unfold complete. by rewrite Hsplit. }
  simpl. destruct (as_applied inp ff) as [i ff1] eqn:Has.
  assert (inp ∈ orig_inputs objects n) as Hinp.
  { rewrite Hsplit, elem_of_app. right. left. }
  assert (exists obj, objects !! n = Some obj /\ inp ∈ at_inputs obj)
    as (obj & Hobj & Hin).
  { unfold orig_inputs in Hinp. destruct (objects !! n) as [obj|];
      [by exists obj | by apply elem_of_nil in Hinp]. }
  pose proof (lookup_lt_Some _ _ _ Hobj) as Hlt.
  assert (length objects <= length (heap ff))%nat as Hlen.
  { destruct (k_heap _ Hk) as (extra & -> & _). rewrite length_app. lia. }
  assert (valid ff inp) as Hv.
  { destruct inp as [o|t]; [|done]. simpl.
    pose proof (heap_ok n obj o Hobj Hin). lia. }
  destruct (as_applied_input ff inp Hk Hv)
    as (Hk1 & Hf1 & Hun1 & Hnodes1 & Hg1 & Hi1 & Hcase).
  rewrite Has in Hk1, Hf1, Hun1, Hnodes1, Hg1, Hi1, Hcase.
  simpl in Hk1, Hf1, Hun1, Hnodes1, Hg1, Hi1, Hcase.
  destruct (rec ff1 (RApplied i)) as [ff2|] eqn:Hr; [|done]. intros Ht.
  destruct (Hrec ff1 (RApplied i) ff2 Hk1 Hi1 Hr)
    as (Hk2 & Hf2 & Hun2 & Hnew2).
  pose proof (prefix_length _ _ (f_heap _ _ _ Hf1)) as Hlen1.
  pose proof (prefix_length _ _ (f_heap _ _ _ Hf2)) as Hlen2.
  assert ((i < length objects)%nat \/
          (i = length (heap ff) /\ ff_graph ff2 !!! i = [])) as Hi.
  { destruct inp as [o|t].
    - left. subst i. pose proof (heap_ok n obj o Hobj Hin). lia.
    - right. destruct Hcase as [-> _]. split; [done|].
      rewrite Hun2 by lia. rewrite Hg1. by apply (k_down _ Hk). }
  assert (n ∈ all_nodes ff2) as Hn2.
  { apply (f_nodes _ _ _ Hf2). by rewrite Hnodes1. }
  set (ff3 := add_edge i n ff2).
  assert (kinv ff3) as Hk3.
  { destruct Hk2 as [Hh2 Hno2 Hu2 Hd2]. split; simpl; try done.
    - intros a Ha. rewrite dd_append_lookup. case_decide as Hx; [|by auto].
      by subst a.
    - intros a Ha. rewrite dd_append_lookup. case_decide as Hx; [|by auto].
      subst a. lia. }
  assert (frame [n] ff2 ff3) as Hf3.
  { split; simpl; try done.
    - intros m Hm Hex. rewrite dd_append_lookup.
      rewrite list_elem_of_singleton in Hex. by rewrite decide_False.
    - intros a Ha Hne. rewrite dd_append_lookup. case_decide as Hx; [|done].
      subst a. destruct Hi as [Hi|[_ Hi]]; [lia | done]. }
  assert (untouched ff ff3) as Hun3.
  { intros a Ha. simpl. rewrite dd_append_lookup. case_decide as Hx.
    - subst a. destruct Hi as [Hi|[Hi _]]; lia.
    - rewrite Hun2 by lia. by apply Hun1. }
  assert (frame [n] ff ff3) as Hf03.
  { eapply frame_trans; [|exact Hf3].
    eapply frame_trans; apply frame_weaken; [exact Hf1 | exact Hf2]. }
  assert (ff_reverse_graph ff3 !!! n = ff_reverse_graph ff !!! n ++ [i])
    as Hrev.
  { simpl. rewrite dd_append_lookup, decide_True by done.
    rewrite (f_up _ _ _ Hf2), (f_up _ _ _ Hf1);
      [done | done | apply not_elem_of_nil | by rewrite Hnodes1 |
       apply not_elem_of_nil]. }
  destruct (IH (pre ++ [inp]) ff3 ff') as (Hk' & Hf' & Hun' & Hnew' & Hc').
  - by rewrite <- app_assoc.
  - done.
  - done.
  - rewrite Hrev. apply Forall2_app.
    + eapply Forall2_impl; [exact Hpre|]. intros x u.
      by apply input_node_frame with [n].
    + constructor; [|constructor]. destruct inp as [o|t]; [done|].
      destruct Hcase as [-> Hheap]. split; [done|]. split.
      * by eapply prefix_lookup_Some; [|exact (f_heap _ _ _ Hf2)].
      * simpl. rewrite dd_append_lookup, decide_True by done.
        destruct Hi as [Hi|[_ ->]]; [lia | done].
  - done.
  - split; [done|]. split; [by eapply frame_trans|]. split.
    { eapply untouched_trans; [exact (f_heap _ _ _ Hf03) | done..]. }
    split; [|done]. intros m Hm Hnot.
    destruct (decide (m ∈ all_nodes ff3)) as [Hm3|Hm3]; [|by apply Hnew'].
    assert (m ≠ n) as Hmn by (by intros ->).
    apply (complete_frame [n] ff3); [done..| |].
    { rewrite list_elem_of_singleton. done. }
    apply (complete_frame [n] ff2); [done | done | |].
    { rewrite list_elem_of_singleton. done. }
    apply Hnew2; [done|]. by rewrite Hnodes1.
Qed.

Lemma traverse_edges (fuel : nat) : traverse_ok (traverse fuel).
Proof.
  induction fuel as [|fuel IH]; intros ff node ff' Hk Hv; [done|].
  simpl. destruct (as_applied node ff) as [n ff1] eqn:Has.
  destruct (as_applied_input ff node Hk Hv)
    as (Hk1 & Hf1 & Hun1 & Hnodes1 & Hg1 & Hi1 & _).
  rewrite Has in Hk1, Hf1, Hun1, Hnodes1, Hg1, Hi1.
  simpl in Hk1, Hf1, Hun1, Hnodes1, Hg1, Hi1.
  case_bool_decide as Hin.
  { intros [= <-]. split; [done|]. split; [done|]. split; [done|].
    intros m Hm Hnot. by rewrite Hnodes1 in Hm. }
  intros Ht.
  assert (kinv (add_node n ff1)) as Hka.
  { destruct Hk1 as [Hh1 Hn1 Hu1 Hd1]. split; simpl; try done.
    - intros m. rewrite elem_of_app, list_elem_of_singleton.
      intros [Hm| ->]; auto.
    - intros a Ha. apply Hu1. intros Hx. apply Ha.
      rewrite elem_of_app. by left. }
  destruct (traverse_inputs_edges (traverse fuel) n IH
              (inputs_of ff1 n) [] (add_node n ff1) ff')
    as (Hk' & Hf' & Hun' & Hnew' & Hc').
  - by rewrite (inputs_of_heap_ext objects ff1 n (k_heap _ Hk1)).
  - done.
  - simpl. rewrite elem_of_app, list_elem_of_singleton. by right.
  - simpl. rewrite (k_up _ Hk1) by done. constructor.
  - done.
  - assert (frame [n] ff1 ff') as Hf1'.
    { destruct Hf' as [Hh' Hn' Hu' Hd']. split; simpl in *; try done.
      - intros m Hm. apply Hn'. rewrite elem_of_app. by left.
      - intros m Hm Hex. apply Hu'; [|done]. rewrite elem_of_app. by left. }
    split; [done|]. split.
    { eapply frame_trans; [exact Hf1|]. by apply (frame_new n). }
    split.
    { eapply untouched_trans; [exact (f_heap _ _ _ Hf1) | done..]. }
    intros m Hm Hnot. destruct (decide (m = n)) as [->|Hmn]; [done|].
    apply Hnew'; [done|]. simpl.
    rewrite elem_of_app, list_elem_of_singleton, Hnodes1. by intros [?|?].
Qed.

Lemma build_graph_edges (outputs : list node_ref) (ff : FunctionalFlow) :
  (forall o, RApplied o ∈ outputs -> (o < length objects)%nat) ->
  build_graph objects outputs = Some ff ->
  forall n, n ∈ all_nodes ff -> complete ff n.
Proof.
  unfold build_graph.
  assert (kinv (mkFunctional objects [] ∅ ∅) /\
          forall n, n ∈ all_nodes (mkFunctional objects [] ∅ ∅) ->
                    complete (mkFunctional objects [] ∅ ∅) n) as Hinit.
  { split; [split; simpl|].
    - exists []. by rewrite app_nil_r.
    - intros n Hn. by apply elem_of_nil in Hn.
    - intros a _. by rewrite lookup_total_empty.
    - intros a _. by rewrite lookup_total_empty.
    - intros n Hn. by apply elem_of_nil in Hn. }
  revert Hinit. generalize (mkFunctional objects [] ∅ ∅).
  induction outputs as [|out outs IH]; intros ff0 [Hk Hc] Houts; cbn [foldl].
  { by intros [= <-]. }
  destruct (traverse (S (length objects)) ff0 out) as [ff1|] eqn:Ht.
  - assert (valid ff0 out) as Hv.
    { destruct out as [o|t]; [|done]. simpl.
      assert (o < length objects)%nat by (apply Houts; left).
      destruct (k_heap _ Hk) as (extra & -> & _). rewrite length_app. lia. }
    destruct (traverse_edges _ ff0 out ff1 Hk Hv Ht) as (Hk1 & Hf1 & _ & Hnew).
    apply IH.
    + split; [done|]. intros n Hn.
      destruct (decide (n ∈ all_nodes ff0)) as [Hn0|Hn0]; [|by apply Hnew].
      apply (complete_frame [] ff0); [done..|apply not_elem_of_nil|by apply Hc].
    + intros o Ho. apply Houts. by right.
  - intros Hnone. exfalso. clear -Hnone.
    induction outs as [|o outs IH]; [done|]. cbn [foldl] in Hnone.
    by apply IH.
Qed.

End InputEdges.

Lemma occ_one_lookup (x : nat) (l : list nat) (i j : nat) :
  occ x l = 1%nat -> l !! i = Some x -> l !! j = Some x -> i = j.
Proof.
  revert i j. induction l as [|y l IH]; intros i j Hocc Hi Hj; [done|].
  rewrite occ_cons in Hocc.
  destruct i as [|i], j as [|j]; simpl in Hi, Hj; [done| | |].
  - injection Hi as ->. rewrite decide_True in Hocc by done.
    assert (0 < occ x l)%nat by (apply occ_pos; by eapply list_elem_of_lookup_2).
    lia.
  - injection Hj as ->. rewrite decide_True in Hocc by done.
    assert (0 < occ x l)%nat by (apply occ_pos; by eapply list_elem_of_lookup_2).
    lia.
  - f_equal. apply IH; [|done..]. case_decide; [|done].
    assert (0 < occ x l)%nat by (apply occ_pos; by eapply list_elem_of_lookup_2).
    lia.
Qed.

(** X16. In the graph that [_build_graph] makes, the upstream list of a
    node answers to the recorded inputs of the node, one by one and in their
    order: an applied task given as input is the upstream node itself, as
    often as it is given; a bare layer given as input is a node made for that
    one use, with the task of the layer and no input, whose only downstream
    node is the node it was given to. The in-degree [run] starts with is the
    number of inputs, and a node made from a layer stands at one place of one
    upstream list only. *)
Theorem functional_upstream_is_inputs (objects : list AppliedTask)
    (outputs : list node_ref) :
  heap_wf objects ->
  (forall o, RApplied o ∈ outputs -> (o < length objects)%nat) ->
  exists ff, build_graph objects outputs = Some ff /\
    (forall n, n ∈ all_nodes ff ->
       Forall2 (input_node objects ff n) (orig_inputs objects n)
               (ff_reverse_graph ff !!! n) /\
       Functional_indegree ff !! n
       = Some (Z.of_nat (length (orig_inputs objects n)))) /\
    (forall n n' i i' u, n ∈ all_nodes ff -> n' ∈ all_nodes ff ->
       (length objects <= u)%nat ->
       (ff_reverse_graph ff !!! n) !! i = Some u ->
       (ff_reverse_graph ff !!! n') !! i' = Some u ->
       n = n' /\ i = i').
Proof.
  intros Hheap Houts.
  destruct (build_graph_spec objects outputs Hheap Houts)
    as (ff & Hbuild & Hinv & _).
  exists ff. split; [done|].
  pose proof (build_graph_edges objects Hheap outputs ff Houts Hbuild) as Hc.
  split.
  - intros n Hn. split; [by apply Hc|]. unfold Functional_indegree.
    rewrite (key_map_lookup
               (fun t => Z.of_nat (length (ff_reverse_graph ff !!! t))))
      by done.
    by rewrite <- (Forall2_length _ _ _ (Hc n Hn)).
  - assert (forall n i u, n ∈ all_nodes ff -> (length objects <= u)%nat ->
              (ff_reverse_graph ff !!! n) !! i = Some u ->
              ff_graph ff !!! u = [n]) as Hone.
    { intros n i u Hn Hu Hi.
      destruct (Forall2_lookup_r _ _ _ _ _ (Hc n Hn) Hi)
        as (inp & Hinp & Hnode).
      destruct inp as [o|t]; [|by destruct Hnode as (_ & _ & Hg)].
      simpl in Hnode. subst o. exfalso.
      apply list_elem_of_lookup_2 in Hinp. unfold orig_inputs in Hinp.
      destruct (objects !! n) as [obj|] eqn:Hobj;
        [|by apply elem_of_nil in Hinp].
      pose proof (Hheap n obj u Hobj Hinp).
      pose proof (lookup_lt_Some _ _ _ Hobj). lia. }
    intros n n' i i' u Hn Hn' Hu Hi Hi'.
    pose proof (Hone n i u Hn Hu Hi) as Hg.
    pose proof (Hone n' i' u Hn' Hu Hi') as Hg'.
    assert (n = n') as <- by congruence. split; [done|].
    apply (occ_one_lookup u (ff_reverse_graph ff !!! n)); [|done..].
    rewrite <- (t_edges _ _ _ Hinv u n), Hg. unfold occ.
    by rewrite filter_cons_True.
Qed.

(** A flow in which one bare layer is given twice to the same task. *)
Definition layered_objects : list AppliedTask :=
  [mkApplied 1 [RLayer 0; RLayer 0]].

Lemma layered_heap_wf : heap_wf layered_objects.
Proof.
  intros n a i Hn Hi. destruct n as [|n]; [|done]. injection Hn as <-.
  simpl in Hi.
  repeat (apply elem_of_cons in Hi as [Hi|Hi]; [discriminate Hi|]).
  by apply elem_of_nil in Hi.
Qed.

Lemma functional_upstream_is_inputs_witness :
  let outs := [RApplied 0] in
  heap_wf layered_objects /\
  (forall o, RApplied o ∈ outs -> (o < length layered_objects)%nat) /\
  exists ff, build_graph layered_objects outs = Some ff /\
    (forall n, n ∈ all_nodes ff ->
       Forall2 (input_node layered_objects ff n)
               (orig_inputs layered_objects n) (ff_reverse_graph ff !!! n) /\
       Functional_indegree ff !! n
       = Some (Z.of_nat (length (orig_inputs layered_objects n)))) /\
    (forall n n' i i' u, n ∈ all_nodes ff -> n' ∈ all_nodes ff ->
       (length layered_objects <= u)%nat ->
       (ff_reverse_graph ff !!! n) !! i = Some u ->
       (ff_reverse_graph ff !!! n') !! i' = Some u ->
       n = n' /\ i = i').
Proof.
  intros outs.
  assert (forall o, RApplied o ∈ outs -> (o < length layered_objects)%nat)
    as Houts.
  { intros o Ho. apply list_elem_of_singleton in Ho. injection Ho as ->.
    simpl. lia. }
  split; [exact layered_heap_wf|]. split; [exact Houts|].
  exact (functional_upstream_is_inputs layered_objects outs
           layered_heap_wf Houts).
Defined.

(** The layer given twice is two nodes, and its task is called twice. *)
Example layered_run :
  (match build_graph layered_objects [RApplied 0] with
   | Some ff =>
     Some (all_nodes ff, ff_reverse_graph ff !!! 0%nat,
           (fun s => (calls_of "R" (trace (world s)), st_status s))
             <$> FunctionalFlow_run named_tasks ff
                   [Work 0; Work 1; Collect 1; Collect 0; Work 2; Collect 2]
                   quiet_world)
   | None => None
   end)
  = Some ([0; 1; 2]%nat, [1; 2]%nat, Some (2%nat, Returned)).
Proof. vm_compute. reflexivity. Qed.

(** ** The order of the rows of [FunctionalFlow.summary] *)

(** [for downstream in self.graph[node]: indegree[downstream] -= 1;
     if indegree[downstream] == 0: queue.append(downstream)] *)
Fixpoint summary_unlock (downs : list nat) (indeg : gmap nat Z)
    (queue : list nat) : result (gmap nat Z * list nat) :=
  match downs with
  | [] => Ok (indeg, queue)
  | d :: rest =>
    match indeg !! d with
    | None => Raise KeyError
    | Some deg =>
      summary_unlock rest (<[d := deg - 1]> indeg)
                     (if deg - 1 =? 0 then queue ++ [d] else queue)
    end
  end.

(** [while queue: node = queue.popleft(); ordered_nodes.append(node); ...] *)
Fixpoint summary_sort (fuel : nat) (ff : FunctionalFlow) (indeg : gmap nat Z)
    (queue ordered : list nat) : comp (list nat) :=
  match queue with
  | [] => Some (Ok ordered)
  | node :: queue' =>
    match fuel with
    | O => None
    | S fuel' =>
      match summary_unlock (ff_graph ff !!! node) indeg queue' with
      | Raise e => Some (Raise e)
      | Ok (indeg', queue'') =>
        summary_sort fuel' ff indeg' queue'' (ordered ++ [node])
      end
    end
  end.

(** The list [ordered_nodes] of [summary], whose rows are printed in this
    order: the topological sort from the in-degrees and the queue of the
    nodes without upstream node. *)
Definition ordered_nodes (ff : FunctionalFlow) : comp (list nat) :=
  summary_sort (length (all_nodes ff)) ff (Functional_indegree ff)
    (filter (fun n => Functional_indegree ff !! n = Some 0) (all_nodes ff))
    [].

Section SummaryOrder.
Variable ff : FunctionalFlow.
Hypothesis ff_ok : functional_wf ff.

Let up (n : nat) : list nat := ff_reverse_graph ff !!! n.

(** Increasing positions of a list hold its elements in topological
    order. *)
Definition sorted_by_inputs (l : list nat) : Prop :=
  forall i n, l !! i = Some n ->
    forall u, u ∈ up n -> exists j, (j < i)%nat /\ l !! j = Some u.

(** What the loop keeps, with [ds] the downstream nodes of the node taken
    from the queue that are still to be visited. *)
Record sort_inv (ds : list nat) (indeg : gmap nat Z)
    (queue ordered : list nat) : Prop := mkSortInv {
  so_nodup : NoDup (ordered ++ queue);
  so_nodes : forall n, n ∈ ordered ++ queue -> n ∈ all_nodes ff;
  so_ds : forall d, d ∈ ds -> d ∈ all_nodes ff;
  so_indegree : forall n, n ∈ all_nodes ff ->
    indeg !! n = Some (Z.of_nat (pending up ordered n + occ n ds));
  so_ready : forall n, n ∈ all_nodes ff ->
    (n ∈ ordered ++ queue <-> (pending up ordered n + occ n ds = 0)%nat);
  so_sorted : sorted_by_inputs ordered
}.

Lemma summary_unlock_inv (ds : list nat) :
  forall indeg queue ordered,
    sort_inv ds indeg queue ordered ->
    exists indeg' queue',
      summary_unlock ds indeg queue = Ok (indeg', queue') /\
      sort_inv [] indeg' queue' ordered.
Proof.
  induction ds as [|d ds IH]; intros indeg queue ordered Hinv.
  { by exists indeg, queue. }
  destruct Hinv as [Hnd Hnodes Hds Hind Hready Hsorted].
  assert (d ∈ all_nodes ff) as Hd by (apply Hds; left).
  simpl. rewrite (Hind d Hd). apply IH.
  assert (d ∉ ordered ++ queue) as Hnew.
  { rewrite (Hready d Hd), occ_cons, decide_True by done. lia. }
  assert (occ d (d :: ds) = S (occ d ds)) as Hocc.
  { by rewrite occ_cons, decide_True. }
  split.
  - destruct (_ =? 0); [|done]. rewrite app_assoc.
    apply NoDup_app. split; [done|]. split; [|apply NoDup_singleton].
    intros x Hx ->%list_elem_of_singleton. done.
  - intros n Hn. destruct (_ =? 0); [|by auto].
    rewrite app_assoc in Hn.
    apply elem_of_app in Hn as [Hn| ->%list_elem_of_singleton]; auto.
  - intros x Hx. apply Hds. by right.
  - intros n Hn. destruct (decide (n = d)) as [->|Hne].
    + rewrite lookup_insert_eq, Hocc. f_equal. lia.
    + rewrite lookup_insert_ne by done. rewrite (Hind n Hn), occ_cons.
      by rewrite decide_False.
  - intros n Hn. destruct (decide (n = d)) as [->|Hne].
    + rewrite Hocc. destruct (Z.eqb_spec
        (Z.of_nat (pending up ordered d + S (occ d ds)) - 1) 0) as [Hz|Hz].
      * rewrite app_assoc, elem_of_app, list_elem_of_singleton.
        split; [lia | by right].
      * split; [done | lia].
    + assert (n ∈ ordered ++ (if Z.of_nat (pending up ordered d
                                             + occ d (d :: ds)) - 1 =? 0
                              then queue ++ [d] else queue)
              <-> n ∈ ordered ++ queue) as ->.
      { destruct (_ =? 0); [|done].
        rewrite app_assoc, elem_of_app, list_elem_of_singleton. tauto. }
      rewrite (Hready n Hn), occ_cons. by rewrite decide_False.
  - done.
Qed.

Lemma sort_inv_bound (indeg : gmap nat Z) (queue ordered : list nat) :
  sort_inv [] indeg queue ordered ->
  (length ordered + length queue <= length (all_nodes ff))%nat.
Proof.
  intros [Hnd Hnodes _ _ _ _]. rewrite <- length_app.
  apply submseteq_length, NoDup_submseteq; done.
Qed.

Lemma summary_sort_inv (fuel : nat) :
  forall indeg queue ordered,
    sort_inv [] indeg queue ordered ->
    (length (all_nodes ff) <= fuel + length ordered)%nat ->
    exists indeg' l,
      summary_sort fuel ff indeg queue ordered = Some (Ok l) /\
      sort_inv [] indeg' [] l.
Proof.
  induction fuel as [|fuel IH]; intros indeg queue ordered Hinv Hfuel.
  { pose proof (sort_inv_bound _ _ _ Hinv) as Hb.
    destruct queue as [|n queue]; [|simpl in Hb; lia].
    by exists indeg, ordered. }
  destruct queue as [|node queue]; [by exists indeg, ordered|].
  simpl.
  assert (sort_inv (ff_graph ff !!! node) indeg queue (ordered ++ [node]))
    as Hinv'.
  { destruct Hinv as [Hnd Hnodes _ Hind Hready Hsorted].
    assert (node ∈ all_nodes ff) as Hnode.
    { apply Hnodes. rewrite elem_of_app. right. left. }
    assert (node ∉ ordered) as Hfresh.
    { apply NoDup_app in Hnd as (_ & Hdis & _). intros Hin.
      apply (Hdis node Hin). left. }
    assert (forall n, (pending up (ordered ++ [node]) n
                       + occ n (ff_graph ff !!! node))%nat
                      = (pending up ordered n + occ n [])%nat) as Hpend.
    { intros n. rewrite occ_nil, Nat.add_0_r.
      rewrite <- (pending_resolve up ordered node n Hfresh).
      by rewrite (fun_edges _ ff_ok node n). }
    split.
    - by rewrite <- app_assoc.
    - intros n. rewrite <- app_assoc. apply Hnodes.
    - intros d Hd. by eapply (fun_down _ ff_ok).
    - intros n Hn. rewrite Hpend. by apply Hind.
    - intros n Hn. rewrite Hpend, <- app_assoc. by apply Hready.
    - intros i n Hi u Hu.
      apply lookup_app_Some in Hi as [Hi|[Hge Hi]].
      + destruct (Hsorted i n Hi u Hu) as (j & Hj & Hlook).
        exists j. split; [done|]. by apply lookup_app_l_Some.
      + apply list_lookup_singleton_Some in Hi as [Hz <-].
        assert (pending up ordered node = 0)%nat as Hzero.
        { pose proof (proj1 (Hready node Hnode)) as Hr.
          rewrite occ_nil in Hr. rewrite <- Hr; [lia|].
          rewrite elem_of_app. right. left. }
        rewrite pending_zero in Hzero. specialize (Hzero u Hu).
        apply list_elem_of_lookup in Hzero as [j Hj].
        exists j. split.
        * pose proof (lookup_lt_Some _ _ _ Hj). lia.
        * by apply lookup_app_l_Some. }
  destruct (summary_unlock_inv _ _ _ _ Hinv') as (indeg' & queue' & -> & Hinv'').
  apply (IH indeg'); [done|]. rewrite length_app. simpl. lia.
Qed.

Lemma sort_inv_init :
  sort_inv [] (Functional_indegree ff)
    (filter (fun n => Functional_indegree ff !! n = Some 0) (all_nodes ff))
    [].
Proof.
  assert (forall n, n ∈ all_nodes ff ->
            Functional_indegree ff !! n
            = Some (Z.of_nat (pending up [] n + occ n []))) as Hind.
  { intros n Hn. unfold Functional_indegree.
    rewrite (key_map_lookup
               (fun t => Z.of_nat (length (ff_reverse_graph ff !!! t))))
      by done.
    by rewrite pending_nil, occ_nil, Nat.add_0_r. }
  split; simpl.
  - apply NoDup_filter, (fun_nodup _ ff_ok).
  - intros n Hn. by apply list_elem_of_filter in Hn as [_ ?].
  - intros d Hd. by apply elem_of_nil in Hd.
  - done.
  - intros n Hn. rewrite list_elem_of_filter, (Hind n Hn). split.
    + intros [[= Hz] _]. lia.
    + intros ->. done.
  - intros i n Hi. by rewrite lookup_nil in Hi.
Qed.

Lemma ordered_nodes_sorted :
  ~ cyclic (fun n => ff_graph ff !!! n) (all_nodes ff) ->
  exists l, ordered_nodes ff = Some (Ok l) /\
            l ≡ₚ all_nodes ff /\ sorted_by_inputs l.
Proof.
  intros Hacyc.
  destruct (summary_sort_inv (length (all_nodes ff)) _ _ _ sort_inv_init)
    as (indeg' & l & Hsort & Hinv); [simpl; lia|].
  exists l. split; [done|].
  destruct Hinv as [Hnd Hnodes _ _ Hready Hsorted].
  rewrite app_nil_r in Hnd. split; [|done].
  apply NoDup_Permutation; [done | apply (fun_nodup _ ff_ok) |].
  intros n. split.
  { intros Hn. apply Hnodes. by rewrite app_nil_r. }
  set (E := Functional_engine (fun _ => flaky_task) ff).
  pose proof (Functional_engine_wf (fun _ => flaky_task) ff ff_ok) as Hwf.
  induction (parent_sn E up Hwf n Hacyc) as [n _ IH]. intros Hn.
  pose proof (proj2 (Hready n Hn)) as Hr. rewrite app_nil_r in Hr.
  apply Hr. rewrite occ_nil, Nat.add_0_r. apply pending_zero.
  intros u Hu. apply IH; [by split|]. by eapply (fun_up _ ff_ok).
Qed.

End SummaryOrder.

(** X17. For a flow made by [_build_graph], the topological sort of
    [summary] ends and raises nothing, and the list it prints the rows from
    holds every node of the flow once, each after all its upstream nodes; so
    the count printed as the total is the number of nodes. *)
Theorem summary_order (objects : list AppliedTask) (outputs : list node_ref) :
  heap_wf objects ->
  (forall o, RApplied o ∈ outputs -> (o < length objects)%nat) ->
  exists ff l, build_graph objects outputs = Some ff /\
    ordered_nodes ff = Some (Ok l) /\
    l ≡ₚ all_nodes ff /\ length l = length (all_nodes ff) /\
    forall i n, l !! i = Some n ->
      forall u, u ∈ ff_reverse_graph ff !!! n ->
        exists j, (j < i)%nat /\ l !! j = Some u.
Proof.
  intros Hheap Houts.
  destruct (build_graph_spec objects outputs Hheap Houts)
    as (ff & Hbuild & Hinv & _).
  pose proof (tinv_functional_wf objects outputs ff Hinv) as Hwf.
  destruct (ordered_nodes_sorted ff Hwf) as (l & Hl & Hperm & Hsorted).
  { apply (edges_forward_acyclic objects).
    by apply (build_graph_forward objects Hheap outputs). }
  exists ff, l. split; [done|]. split; [done|]. split; [done|].
  split; [by rewrite Hperm | exact Hsorted].
Qed.

Lemma summary_order_witness :
  let outs := [RApplied 3] in
  heap_wf diamond_objects /\
  (forall o, RApplied o ∈ outs -> (o < length diamond_objects)%nat) /\
  ordered_nodes diamond_functional = Some (Ok [0; 1; 2; 3]%nat) /\
  exists ff l, build_graph diamond_objects outs = Some ff /\
    ordered_nodes ff = Some (Ok l) /\
    l ≡ₚ all_nodes ff /\ length l = length (all_nodes ff) /\
    forall i n, l !! i = Some n ->
      forall u, u ∈ ff_reverse_graph ff !!! n ->
        exists j, (j < i)%nat /\ l !! j = Some u.
Proof.
  intros outs.
  assert (forall o, RApplied o ∈ outs -> (o < length diamond_objects)%nat)
    as Houts.
  { intros o Ho. apply list_elem_of_singleton in Ho. injection Ho as ->.
    simpl. lia. }
  split; [exact diamond_heap_wf|]. split; [exact Houts|].
  split; [vm_compute; reflexivity|].
  exact (summary_order diamond_objects outs diamond_heap_wf Houts).
Defined.
